(** * Text-to-audio: chunker, token manager, rate limiter and synthesis loop

    A shallow embedding of [src/text_processor.py], [src/auth.py] and
    [src/synthesizer.py], and the properties of the specification that
    are stated about them; then further properties of this code, of
    the counters of [src/utils.py] and of [merge_wav_files] of
    [src/audio_merger.py].

    Conventions of the embedding:
    - a Python [str] is the list of its Unicode code points;
    - a Python [int] is a [Z]; wall-clock seconds ([time.time()], a
      float in the source) are exact rationals [Q], and the limiter is
      given a second time in an arithmetic that rounds, that of the
      binary64 floats among them, for the property of its pacing; a
      [datetime] is its number of microseconds;
    - an exception is a value of [exn]; code that may raise returns a
      [result];
    - code that talks to the outside (clock, network, SDK, file system)
      is a state transformer over [State]; what the outside answers is
      read from an [Env], indexed by the number of outside calls made so
      far, so that every sequence of answers is an [Env];
    - a [TextChunk] is a mutable object of the source: a function that
      may change a chunk returns the chunk as it leaves it; the chunks
      of a list are distinct objects, as [split_text] makes them;
    - logging and the progress bar are left out, and so is an interrupt
      from the keyboard. *)

From Stdlib Require Import String Ascii DecimalString DecimalN.
From Stdlib Require Import List ZArith NArith QArith Qround Qpower Bool Lia Lqa.
Import ListNotations.
Close Scope Q_scope.

(** ** Python strings *)

Module PyStr.

Definition char := N.
Definition str := list char.

Definition of_string (s : string) : str :=
  map N_of_ascii (list_ascii_of_string s).

Definition len (s : str) : Z := Z.of_nat (length s).

(** Truth value of a string: non-empty. *)
Definition truthy (s : str) : bool :=
  match s with [] => false | _ :: _ => true end.

Definition in_range (lo hi c : N) : bool := ((lo <=? c) && (c <=? hi))%N.

(** [str.isspace] of one code point; it is also the class [\s] of [re]
    for [str] patterns and what [str.strip()] removes. *)
Definition is_space (c : char) : bool :=
  in_range 9 13 c || in_range 28 32 c || (c =? 133)%N || (c =? 160)%N
  || (c =? 5760)%N || in_range 8192 8202 c || (c =? 8232)%N
  || (c =? 8233)%N || (c =? 8239)%N || (c =? 8287)%N || (c =? 12288)%N.

Fixpoint lstrip (s : str) : str :=
  match s with
  | c :: s' => if is_space c then lstrip s' else s
  | [] => []
  end.

Definition rstrip (s : str) : str := rev (lstrip (rev s)).

Definition strip (s : str) : str := rstrip (lstrip s).

(** [s[i:j]] for [0 <= i <= j]. *)
Definition slice (s : str) (i j : Z) : str :=
  firstn (Z.to_nat (j - i)) (skipn (Z.to_nat i) s).

(** Characters of [s] that are not whitespace, in order. *)
Definition non_space (s : str) : str := filter (fun c => negb (is_space c)) s.

(** *** The regular expressions of the source

    A pattern is given by its matcher: the length of the match that
    starts at the head of the text, if there is one.  None of the
    patterns used matches the empty string. *)

Definition matcher := str -> option nat.

Fixpoint run_length (p : char -> bool) (s : str) : nat :=
  match s with
  | c :: s' => if p c then S (run_length p s') else O
  | [] => O
  end.

Fixpoint last_index (p : char -> bool) (s : str) : option nat :=
  match s with
  | [] => None
  | c :: s' =>
      match last_index p s' with
      | Some i => Some (S i)
      | None => if p c then Some O else None
      end
  end.

(** [re.split]: the pieces between the successive leftmost matches.
    [skip] counts the characters of the current match still to pass. *)
Fixpoint re_split_go (m : matcher) (skip : nat) (piece : str) (s : str)
  : list str :=
  match s with
  | [] => [rev piece]
  | c :: s' =>
      match skip with
      | S k => re_split_go m k piece s'
      | O =>
          match m s with
          | Some (S k) => rev piece :: re_split_go m k [] s'
          | _ => re_split_go m O (c :: piece) s'
          end
      end
  end.

Definition re_split (m : matcher) (s : str) : list str := re_split_go m O [] s.

(** [re.findall]: the successive leftmost matches themselves. *)
Fixpoint re_findall_go (m : matcher) (skip : nat) (s : str) : list str :=
  match s with
  | [] => []
  | _ :: s' =>
      match skip with
      | S k => re_findall_go m k s'
      | O =>
          match m s with
          | Some (S k) => firstn (S k) s :: re_findall_go m k s'
          | _ => re_findall_go m O s'
          end
      end
  end.

Definition re_findall (m : matcher) (s : str) : list str := re_findall_go m O s.

(** [re.sub(p{k,}, repl, s)] for a one-character class [p]: every maximal
    run of [p] of length at least [k] becomes [repl]. *)
Definition flush_run (k : nat) (repl : str) (run : str) : str :=
  match run with
  | [] => []
  | _ :: _ => if (k <=? length run)%nat then repl else rev run
  end.

Fixpoint sub_runs_go (p : char -> bool) (k : nat) (repl : str) (run : str)
  (s : str) : str :=
  match s with
  | [] => flush_run k repl run
  | c :: s' =>
      if p c then sub_runs_go p k repl (c :: run) s'
      else flush_run k repl run ++ c :: sub_runs_go p k repl [] s'
  end.

Definition sub_runs (p : char -> bool) (k : nat) (repl : str) (s : str) : str :=
  sub_runs_go p k repl [] s.

(** [re.sub(r'\r\n', '\n', s)]. *)
Fixpoint sub_crlf (s : str) : str :=
  match s with
  | c :: s' =>
      match s' with
      | d :: s'' => if ((c =? 13) && (d =? 10))%N then 10%N :: sub_crlf s''
                    else c :: sub_crlf s'
      | [] => [c]
      end
  | [] => []
  end.

(** [s.split(sep)] and [sep.join(parts)] for a one-character separator. *)
Fixpoint split_char_go (sep : char) (piece : str) (s : str) : list str :=
  match s with
  | [] => [rev piece]
  | c :: s' => if (c =? sep)%N then rev piece :: split_char_go sep [] s'
               else split_char_go sep (c :: piece) s'
  end.

Definition split_char (sep : char) (s : str) : list str := split_char_go sep [] s.

Fixpoint join (sep : str) (parts : list str) : str :=
  match parts with
  | [] => []
  | [p] => p
  | p :: rest => p ++ sep ++ join sep rest
  end.

End PyStr.

(** ** Exceptions and results *)

Import PyStr.

Inductive text_failure := EmptyText.

Inductive auth_failure :=
| KeyNotLoaded      (* "Данные ключа не загружены" *)
| JwtCreation       (* "Ошибка создания JWT токена: {e}" *)
| IamRequest        (* "Ошибка запроса IAM токена: {e}" *)
| IamResponseParse  (* "Ошибка парсинга ответа IAM API: {e}" *)
| IamToken.         (* "Ошибка получения IAM токена: {e}" *)

Inductive synth_failure :=
| EmptyChunkList                         (* "Пустой список фрагментов для синтеза" *)
| EmptyAfterCleaning (index : Z)         (* "Пустой текст после очистки в фрагменте {index}" *)
| AudioFileNotCreated                    (* "Аудиофайл не был создан" *)
| RetriesExhausted (index retries : Z)   (* "Не удалось синтезировать фрагмент {index} после {retries} попыток: {e}" *)
| NothingSynthesized                     (* "Не удалось синтезировать ни одного фрагмента" *)
| CriticalSynthesis.                     (* "Критическая ошибка синтеза: {e}" *)

(** Every exception of the model is an [Exception] of Python: what
    [except Exception] catches.  [cause] is the exception whose text the
    source formats into the message. *)
#[warnings="-register-all"]
Inductive exn :=
| LibraryError (msg : str)       (* raised by jwt, the SDK or the OS *)
| RequestException (msg : str)   (* requests: connection error, timeout *)
| HTTPError (status : Z)         (* requests: [raise_for_status] *)
| JSONDecodeError
| ValueError
| KeyError (key : str)
| TypeError
| ZeroDivisionError
| TextProcessorError (why : text_failure)
| YandexAuthError (why : auth_failure) (cause : option exn)
| SynthesizerError (why : synth_failure) (cause : option exn).

Inductive result (A : Type) :=
| Ok (a : A)
| Err (e : exn).

Arguments Ok {A} a.
Arguments Err {A} e.

Definition bind_result {A B} (r : result A) (k : A -> result B) : result B :=
  match r with
  | Ok a => k a
  | Err e => Err e
  end.

Declare Scope result_scope.
Delimit Scope result_scope with result.
Notation "x <- r ;; k" := (bind_result r (fun x => k))
  (at level 61, r at next level, right associativity) : result_scope.

(** ** [text_processor.py] *)

Module TextChunk.

Record t := {
  text : str;
  index : Z;
  length : Z;
  original_length : option Z;
  processed : bool;
  audio_file : option str
}.

(** [TextChunk.__init__]. *)
Definition init (text : str) (index : Z) (original_length : option Z) : t :=
  {| text := strip text;
     index := index;
     length := len (strip text);
     original_length := original_length;
     processed := false;
     audio_file := None |}.

End TextChunk.

Module TextSplitter.

Definition newline : char := 10%N.
Definition space : char := 32%N.

Definition is_terminator (c : char) : bool :=
  ((c =? 46) || (c =? 33) || (c =? 63))%N.

(** [sentence_endings = re.compile(r'[.!?]+\s+')]: both runs are taken
    whole, the two classes being disjoint. *)
Definition sentence_endings : matcher := fun s =>
  let a := run_length is_terminator s in
  let b := run_length is_space (skipn a s) in
  if ((0 <? a) && (0 <? b))%nat then Some (a + b)%nat else None.

(** [paragraph_breaks = re.compile(r'\n\s*\n')]: a newline, then the
    whitespace that follows it up to its last newline. *)
Definition paragraph_breaks : matcher := fun s =>
  match s with
  | c :: rest =>
      if (c =? newline)%N then
        match last_index (N.eqb newline) (firstn (run_length is_space rest) rest) with
        | Some p => Some (S (S p))
        | None => None
        end
      else None
  | [] => None
  end.

(** [word_boundaries = re.compile(r'\s+')]. *)
Definition word_boundaries : matcher := fun s =>
  let a := run_length is_space s in
  if (0 <? a)%nat then Some a else None.

(** [range(0, stop, step)] for [0 <= stop]. *)
Definition py_range0 (stop step : Z) : result (list Z) :=
  if (step =? 0)%Z then Err ValueError
  else if (step <? 0)%Z then Ok []
  else Ok (map (fun k => (Z.of_nat k * step)%Z)
               (seq 0 (Z.to_nat ((stop + step - 1) / step)))).

(** The hard cut of [_split_by_words]:
    [for i in range(0, len(word), max): chunks.append(word[i:i + max])]. *)
Definition hard_cut (max_chunk_size : Z) (word : str) : result (list str) :=
  (starts <- py_range0 (len word) max_chunk_size ;;
   Ok (map (fun i => slice word i (i + max_chunk_size)) starts))%result.

(** [current_chunk + (sep if current_chunk else "") + unit]. *)
Definition potential (sep : str) (current unit : str) : str :=
  current ++ (if truthy current then sep else []) ++ unit.

(** [if current_chunk: chunks.append(current_chunk)]. *)
Definition seal (chunks : list str) (current : str) : list str :=
  if truthy current then chunks ++ [current] else chunks.

(** The loop of [_split_by_words]; the state is [(chunks, current_chunk)]. *)
Fixpoint words_loop (max_chunk_size : Z) (words : list str)
  (chunks : list str) (current : str) : result (list str * str) :=
  match words with
  | [] => Ok (chunks, current)
  | word :: rest =>
      if negb (truthy (strip word)) then
        words_loop max_chunk_size rest chunks current
      else
        let potential_chunk := potential [space] current word in
        if (len potential_chunk <=? max_chunk_size)%Z then
          words_loop max_chunk_size rest chunks potential_chunk
        else
          let chunks := seal chunks current in
          if (len word >? max_chunk_size)%Z then
            (parts <- hard_cut max_chunk_size word ;;
             words_loop max_chunk_size rest (chunks ++ parts) [])%result
          else
            words_loop max_chunk_size rest chunks word
  end.

Definition _split_by_words (max_chunk_size : Z) (text : str) : result (list str) :=
  (st <- words_loop max_chunk_size (re_split word_boundaries text) [] [] ;;
   Ok (seal (fst st) (snd st)))%result.

(** [sentence_parts] of [_split_by_sentences]: every sentence before the
    last gets its ending back, stripped on the right, unless the
    sentence is blank; [re.split] returns one piece more than
    [re.findall] returns matches, so [endings[i]] is the ending paired
    with [sentences[i]]. *)
Definition sentence_parts (text : str) : list str :=
  let sentences := re_split sentence_endings text in
  let endings := re_findall sentence_endings text in
  let heads :=
    flat_map (fun se : str * str =>
                if truthy (strip (fst se)) then [fst se ++ rstrip (snd se)] else [])
             (combine (removelast sentences) endings) in
  let final := last sentences [] in
  if truthy (strip final) then heads ++ [final] else heads.

(** The [x[:-1]] / [x[-1] if x else ""] idiom that hands the last chunk
    of a sub-split back to the caller as its current chunk. *)
Definition all_but_last (l : list str) : list str := removelast l.
Definition last_or_empty (l : list str) : str := last l [].

(** The loop of [_split_by_sentences]. *)
Fixpoint sentences_loop (max_chunk_size : Z) (sentences : list str)
  (chunks : list str) (current : str) : result (list str * str) :=
  match sentences with
  | [] => Ok (chunks, current)
  | sentence :: rest =>
      let sentence := strip sentence in
      if negb (truthy sentence) then
        sentences_loop max_chunk_size rest chunks current
      else
        let potential_chunk := potential [space] current sentence in
        if (len potential_chunk <=? max_chunk_size)%Z then
          sentences_loop max_chunk_size rest chunks potential_chunk
        else
          let chunks := seal chunks current in
          if (len sentence >? max_chunk_size)%Z then
            (word_chunks <- _split_by_words max_chunk_size sentence ;;
             sentences_loop max_chunk_size rest
               (chunks ++ all_but_last word_chunks) (last_or_empty word_chunks))%result
          else
            sentences_loop max_chunk_size rest chunks sentence
  end.

Definition _split_by_sentences (max_chunk_size : Z) (text : str)
  : result (list str) :=
  (st <- sentences_loop max_chunk_size (sentence_parts text) [] [] ;;
   Ok (seal (fst st) (snd st)))%result.

(** The loop of [_split_into_chunks]. *)
Fixpoint paragraphs_loop (max_chunk_size : Z) (paragraphs : list str)
  (chunks : list str) (current : str) : result (list str * str) :=
  match paragraphs with
  | [] => Ok (chunks, current)
  | paragraph :: rest =>
      let paragraph := strip paragraph in
      if negb (truthy paragraph) then
        paragraphs_loop max_chunk_size rest chunks current
      else
        let potential_chunk := potential [newline; newline] current paragraph in
        if (len potential_chunk <=? max_chunk_size)%Z then
          paragraphs_loop max_chunk_size rest chunks potential_chunk
        else
          let chunks := seal chunks current in
          if (len paragraph >? max_chunk_size)%Z then
            (sentence_chunks <- _split_by_sentences max_chunk_size paragraph ;;
             paragraphs_loop max_chunk_size rest
               (chunks ++ all_but_last sentence_chunks)
               (last_or_empty sentence_chunks))%result
          else
            paragraphs_loop max_chunk_size rest chunks paragraph
  end.

Definition _split_into_chunks (max_chunk_size : Z) (text : str)
  : result (list str) :=
  (st <- paragraphs_loop max_chunk_size (re_split paragraph_breaks text) [] [] ;;
   Ok (seal (fst st) (snd st)))%result.

(** [_preprocess_text]. *)
Definition is_blank_or_tab (c : char) : bool := ((c =? 32) || (c =? 9))%N.

Definition _preprocess_text (text : str) : str :=
  let text := sub_crlf text in
  let text := map (fun c => if (c =? 13)%N then newline else c) text in
  let text := sub_runs is_blank_or_tab 1 [space] text in
  let text := sub_runs (N.eqb newline) 3 [newline; newline] text in
  let lines := map strip (split_char newline text) in
  strip (join [newline] lines).

Fixpoint enumerate {A} (i : Z) (l : list A) : list (Z * A) :=
  match l with
  | [] => []
  | a :: l' => (i, a) :: enumerate (i + 1)%Z l'
  end.

(** [split_text]. *)
Definition split_text (max_chunk_size : Z) (text : str)
  : result (list TextChunk.t) :=
  if negb (truthy text) || negb (truthy (strip text)) then
    Err (TextProcessorError EmptyText)
  else
    let processed_text := _preprocess_text text in
    if (len processed_text <=? max_chunk_size)%Z then
      Ok [TextChunk.init processed_text 0 (Some (len text))]
    else
      (chunks <- _split_into_chunks max_chunk_size processed_text ;;
       Ok (map (fun ic : Z * str => TextChunk.init (snd ic) (fst ic) (Some (len text)))
               (filter (fun ic : Z * str => truthy (strip (snd ic)))
                       (enumerate 0 chunks))))%result.

End TextSplitter.

(** ** The outside world and the program state *)

#[warnings="-register-all"]
Inductive json :=
| JNull
| JBool (b : bool)
| JInt (n : Z)
| JStr (s : str)
| JList (l : list json)
| JDict (d : list (str * json)).

(** Truth value of a decoded JSON value. *)
Definition json_truthy (j : json) : bool :=
  match j with
  | JNull => false
  | JBool b => b
  | JInt n => negb (n =? 0)%Z
  | JStr s => truthy s
  | JList l => match l with [] => false | _ :: _ => true end
  | JDict d => match d with [] => false | _ :: _ => true end
  end.

Fixpoint str_eqb (a b : str) : bool :=
  match a, b with
  | [], [] => true
  | x :: a', y :: b' => (x =? y)%N && str_eqb a' b'
  | _, _ => false
  end.

Fixpoint dict_get (d : list (str * json)) (key : str) : option json :=
  match d with
  | [] => None
  | (k, v) :: d' => if str_eqb k key then Some v else dict_get d' key
  end.

(** What [requests.post] gives: an exception of requests, or a response
    with its status and its body decoded as JSON ([None]: not JSON). *)
Inductive http_outcome :=
| RequestFailed (msg : str)
| Response (status : Z) (body : option json).

Record KeyData := {
  id : str;
  service_account_id : str;
  private_key : str;
  public_key : option str;
  key_algorithm : str
}.

Record JwtHeaders := { typ : str; alg : str; kid : str }.
Record JwtPayload := { iss : str; aud : str; iat : Z; exp : Z }.

(** Calls that leave the process, as they are logged in [trace], the
    latest first, each with what the outside answered. *)
Inductive event :=
| EvSleep (seconds : Q)
| EvPost (url : str) (jwt : str) (answer : http_outcome)
| EvConfigure (iam_token : json) (answer : result unit)
| EvSynthesize (text : str) (answer : result unit)
| EvExport (path : str) (answer : result unit)
| EvMkdir (path : str) (answer : result unit).

(** The answers of the outside world.  The first argument of an answer
    is the number of outside calls made before it. *)
Record Env := {
  elapse : nat -> Q;   (* seconds that pass around the call; a real clock never goes back *)
  jwt_encode : nat -> JwtPayload -> str -> JwtHeaders -> result str;
  requests_post : nat -> str -> str -> http_outcome;
  fromisoformat : str -> option Z;
  configure_credentials : nat -> json -> result unit;
  model_synthesize : nat -> str -> result unit;
  result_export : nat -> str -> result unit;
  os_path_exists : nat -> str -> bool;
  mkdir : nat -> str -> result unit;
  is_word : char -> bool   (* the class [\w] of [re]: Unicode alphanumerics and [_] *)
}.

Record TokenManager := {
  key_data : option KeyData;
  iam_token : json;
  token_expires_at : option Z
}.

Record RateLimiter := {
  requests_per_second : Q;
  min_interval : Q;
  last_request_time : Q
}.

(** The counters of [StatisticsCollector] that the synthesizer updates. *)
Record Stats := {
  total_characters : Z;
  total_chunks : Z;
  total_requests : Z;
  successful_requests : Z;
  failed_requests : Z;
  errors : list exn
}.

(** [clock], [ticks] and [trace] are the outside world; the rest are the
    objects the process keeps: the global token manager and the rate
    limiter and statistics of the synthesizer. *)
Record State := {
  clock : Q;
  ticks : nat;
  trace : list event;
  token_manager : TokenManager;
  rate_limiter : RateLimiter;
  stats : Stats
}.

Definition set_token_manager (tm : TokenManager) (s : State) : State :=
  {| clock := clock s; ticks := ticks s; trace := trace s;
     token_manager := tm; rate_limiter := rate_limiter s; stats := stats s |}.

Definition set_rate_limiter (rl : RateLimiter) (s : State) : State :=
  {| clock := clock s; ticks := ticks s; trace := trace s;
     token_manager := token_manager s; rate_limiter := rl; stats := stats s |}.

Definition set_stats (st : Stats) (s : State) : State :=
  {| clock := clock s; ticks := ticks s; trace := trace s;
     token_manager := token_manager s; rate_limiter := rate_limiter s; stats := st |}.

(** One outside call: [seconds] pass for sure, [elapse] more may pass,
    and the call is logged when it is an [event]. *)
Definition outside (env : Env) (seconds : Q) (ev : list event) (s : State) : State :=
  {| clock := (clock s + seconds + elapse env (ticks s))%Q;
     ticks := S (ticks s);
     trace := ev ++ trace s;
     token_manager := token_manager s;
     rate_limiter := rate_limiter s;
     stats := stats s |}.

(** *** The monad of stateful code that may raise *)

Definition M (A : Type) : Type := State -> result A * State.

Definition ret {A} (a : A) : M A := fun s => (Ok a, s).

Definition raise {A} (e : exn) : M A := fun s => (Err e, s).

Definition bind {A B} (m : M A) (k : A -> M B) : M B :=
  fun s =>
    match m s with
    | (Ok a, s') => k a s'
    | (Err e, s') => (Err e, s')
    end.

(** [try: m  except Exception as e: handler e]. *)
Definition try_except {A} (m : M A) (handler : exn -> M A) : M A :=
  fun s =>
    match m s with
    | (Ok a, s') => (Ok a, s')
    | (Err e, s') => handler e s'
    end.

Definition get_state : M State := fun s => (Ok s, s).

Definition modify (f : State -> State) : M unit := fun s => (Ok tt, f s).

Definition lift {A} (r : result A) : M A := fun s => (r, s).

Declare Scope monad_scope.
Delimit Scope monad_scope with monad.
Notation "x <- m ;; k" := (bind m (fun x => k))
  (at level 61, m at next level, right associativity) : monad_scope.
Notation "m ;; k" := (bind m (fun _ => k))
  (at level 61, right associativity) : monad_scope.

(** *** The clock *)

(** [time.time()]. *)
Definition time_time (env : Env) : M Q :=
  fun s => let s' := outside env 0%Q [] s in (Ok (clock s'), s').

(** [time.sleep(seconds)]: suspends for at least [seconds]; a negative
    argument is a [ValueError]. *)
Definition time_sleep (env : Env) (seconds : Q) : M unit :=
  fun s =>
    if Qle_bool 0%Q seconds then (Ok tt, outside env seconds [EvSleep seconds] s)
    else (Err ValueError, s).

Definition microseconds (seconds : Z) : Z := (seconds * 1000000)%Z.

(** [datetime.now()], in microseconds. *)
Definition datetime_now (env : Env) : M Z :=
  fun s => let s' := outside env 0%Q [] s in
           (Ok (Qfloor (clock s' * 1000000)%Q), s').

(** [int(x)] of a float: truncation towards zero. *)
Definition py_int (x : Q) : Z := Z.quot (Qnum x) (Zpos (Qden x)).

(** ** [auth.py] *)

Module Auth.

Definition iam_url : str := of_string "https://iam.api.cloud.yandex.net/iam/v1/tokens".

(** [timedelta(minutes=10)] and [timedelta(hours=12)], in microseconds. *)
Definition buffer_time : Z := microseconds 600.
Definition default_lifetime : Z := microseconds 43200.

Definition set_iam_token (v : json) (tm : TokenManager) : TokenManager :=
  {| key_data := key_data tm; iam_token := v;
     token_expires_at := token_expires_at tm |}.

Definition set_token_expires_at (t : Z) (tm : TokenManager) : TokenManager :=
  {| key_data := key_data tm; iam_token := iam_token tm;
     token_expires_at := Some t |}.

(** [_create_jwt_token]. *)
Definition _create_jwt_token (env : Env) : M str :=
  (s <- get_state ;;
   match key_data (token_manager s) with
   | None => raise (YandexAuthError KeyNotLoaded None)
   | Some key =>
       t <- time_time env ;;
       let now := py_int t in
       let headers := {| typ := of_string "JWT"; alg := of_string "PS256";
                         kid := id key |} in
       let payload := {| iss := service_account_id key; aud := iam_url;
                         iat := now; exp := (now + 3600)%Z |} in
       s <- get_state ;;
       match jwt_encode env (ticks s) payload (private_key key) headers with
       | Ok jwt_token => ret jwt_token
       | Err e => raise (YandexAuthError JwtCreation (Some e))
       end
   end)%monad.

(** [response.raise_for_status()] raises for the statuses 400 to 599. *)
Definition is_error_status (status : Z) : bool :=
  ((400 <=? status) && (status <? 600))%Z.

(** [_exchange_jwt_for_iam]: one POST to the identity endpoint. *)
Definition _exchange_jwt_for_iam (env : Env) (jwt_token : str) : M json :=
  fun s =>
    let answer := requests_post env (ticks s) iam_url jwt_token in
    let s' := outside env 0%Q [EvPost iam_url jwt_token answer] s in
    match answer with
    | RequestFailed msg =>
        (Err (YandexAuthError IamRequest (Some (RequestException msg))), s')
    | Response status body =>
        if is_error_status status then
          (Err (YandexAuthError IamRequest (Some (HTTPError status))), s')
        else
          match body with
          | None => (Err (YandexAuthError IamResponseParse (Some JSONDecodeError)), s')
          | Some result => (Ok result, s')
          end
    end.

(** [_is_token_expired]. *)
Definition _is_token_expired (env : Env) : M bool :=
  (s <- get_state ;;
   match token_expires_at (token_manager s) with
   | None => ret true
   | Some expires_at =>
       now <- datetime_now env ;;
       ret (expires_at <=? now + buffer_time)%Z
   end)%monad.

(** [iam_response['iamToken']]. *)
Definition subscript (v : json) (key : str) : result json :=
  match v with
  | JDict d => match dict_get d key with
               | Some x => Ok x
               | None => Err (KeyError key)
               end
  | _ => Err TypeError
  end.

(** [iam_response.get('expiresAt')]. *)
Definition get (v : json) (key : str) : json :=
  match v with
  | JDict d => match dict_get d key with
               | Some x => x
               | None => JNull
               end
  | _ => JNull
  end.

Definition letter_Z : char := 90%N.
Definition dot : char := 46%N.
Definition zero : char := 48%N.

(** [fraction[:6].ljust(6, '0')]. *)
Definition microsecond_digits (fraction : str) : str :=
  let f := firstn 6 fraction in f ++ repeat zero (6 - length f).

(** The [try] block that parses [expiresAt]: [None] where the source
    catches [ValueError] or [AttributeError]. *)
Definition parse_expires_at (env : Env) (expires_at_str : json) : option Z :=
  match expires_at_str with
  | JStr s =>
      let clean_time := filter (fun c => negb (c =? letter_Z)%N) s in
      if existsb (N.eqb dot) clean_time then
        match split_char dot clean_time with
        | [time_part; fraction] =>
            fromisoformat env (time_part ++ [dot] ++ microsecond_digits fraction)
        | _ => None
        end
      else fromisoformat env clean_time
  | _ => None
  end.

Definition update_token_manager (f : TokenManager -> TokenManager) : M unit :=
  modify (fun s => set_token_manager (f (token_manager s)) s).

(** The body of the [try] of [get_iam_token]. *)
Definition fetch_iam_token (env : Env) : M json :=
  (jwt_token <- _create_jwt_token env ;;
   iam_response <- _exchange_jwt_for_iam env jwt_token ;;
   token <- lift (subscript iam_response (of_string "iamToken")) ;;
   update_token_manager (set_iam_token token) ;;
   let expires_at_str := get iam_response (of_string "expiresAt") in
   (if json_truthy expires_at_str then
      match parse_expires_at env expires_at_str with
      | Some t => update_token_manager (set_token_expires_at t)
      | None =>
          now <- datetime_now env ;;
          update_token_manager (set_token_expires_at (now + default_lifetime))
      end
    else
      now <- datetime_now env ;;
      update_token_manager (set_token_expires_at (now + default_lifetime))) ;;
   s <- get_state ;;
   ret (iam_token (token_manager s)))%monad.

(** The test [not force_refresh and self.iam_token and not self._is_token_expired()]. *)
Definition cached_token_usable (env : Env) (force_refresh : bool) : M bool :=
  (s <- get_state ;;
   if negb force_refresh && json_truthy (iam_token (token_manager s)) then
     expired <- _is_token_expired env ;;
     ret (negb expired)
   else ret false)%monad.

(** [get_iam_token]. *)
Definition get_iam_token (env : Env) (force_refresh : bool) : M json :=
  (usable <- cached_token_usable env force_refresh ;;
   if usable then
     s <- get_state ;;
     ret (iam_token (token_manager s))
   else
     try_except (fetch_iam_token env)
                (fun e => raise (YandexAuthError IamToken (Some e))))%monad.

(** [refresh_token]. *)
Definition refresh_token (env : Env) : M json := get_iam_token env true.

End Auth.

(** ** [clean_text_for_synthesis] of [text_processor.py] *)

Definition is_char (c : char) : char -> bool := N.eqb c.

(** The characters the last substitution keeps:
    [\w \s . , ! ? ; : ( ) - ] the two dashes, the double quote, the
    angle quotes and the apostrophe. *)
Definition is_kept (env : Env) (c : char) : bool :=
  is_word env c || is_space c
  || existsb (N.eqb c)
       [46; 44; 33; 63; 59; 58; 40; 41; 45; 8212; 8211; 34; 171; 187; 39]%N.

Definition clean_text_for_synthesis (env : Env) (text : str) : str :=
  let text := sub_runs is_space 1 [32%N] text in
  let text := sub_runs (is_char 46%N) 2 [46; 46; 46]%N text in
  let text := sub_runs (is_char 33%N) 2 [33%N] text in
  let text := sub_runs (is_char 63%N) 2 [63%N] text in
  let text := filter (is_kept env) text in
  strip text.

(** ** [synthesizer.py] *)

Module Synthesizer.

(** [RateLimiter.__init__], given the resolved [requests_per_second]. *)
Definition RateLimiter_init (requests_per_second : Q) : result RateLimiter :=
  if Qeq_bool requests_per_second 0%Q then Err ZeroDivisionError
  else Ok {| requests_per_second := requests_per_second;
             min_interval := (1 / requests_per_second)%Q;
             last_request_time := 0%Q |}.

Definition set_last_request_time (t : Q) (rl : RateLimiter) : RateLimiter :=
  {| requests_per_second := requests_per_second rl;
     min_interval := min_interval rl;
     last_request_time := t |}.

Definition Qlt_bool (a b : Q) : bool := negb (Qle_bool b a).

(** [RateLimiter.wait_if_needed]. *)
Definition wait_if_needed (env : Env) : M unit :=
  (current_time <- time_time env ;;
   s <- get_state ;;
   let self := rate_limiter s in
   let time_since_last := (current_time - last_request_time self)%Q in
   (if Qlt_bool time_since_last (min_interval self) then
      time_sleep env (min_interval self - time_since_last)%Q
    else ret tt) ;;
   t <- time_time env ;;
   modify (fun s => set_rate_limiter (set_last_request_time t (rate_limiter s)) s))%monad.

(** The settings of a [SpeechSynthesizer]; its rate limiter and its
    statistics are in the [State]. *)
Record SpeechSynthesizer := {
  voice : str;
  role : str;
  temp_dir : str;
  max_retries : Z;
  retry_delay : Q
}.

(** The values [__init__] takes when the environment sets none:
    [MAX_RETRIES], [RETRY_DELAY] and, for the limiter,
    [REQUESTS_PER_SECOND]. *)
Definition default_max_retries : Z := 3.
Definition default_retry_delay : Q := 1.
Definition default_requests_per_second : Q := 35.

(** [StatisticsCollector.add_text_stats]. *)
Definition add_text_stats (characters chunks : Z) : M unit :=
  modify (fun s =>
    let st := stats s in
    set_stats {| total_characters := total_characters st + characters;
                 total_chunks := total_chunks st + chunks;
                 total_requests := total_requests st;
                 successful_requests := successful_requests st;
                 failed_requests := failed_requests st;
                 errors := errors st |} s).

(** [str(e)] is empty only for a library exception raised without text. *)
Definition has_text (e : exn) : bool :=
  match e with
  | LibraryError msg | RequestException msg => truthy msg
  | _ => true
  end.

(** [StatisticsCollector.add_request_stats]. *)
Definition add_request_stats (success : bool) (error : option exn) : M unit :=
  modify (fun s =>
    let st := stats s in
    set_stats {| total_characters := total_characters st;
                 total_chunks := total_chunks st;
                 total_requests := total_requests st + 1;
                 successful_requests :=
                   if success then successful_requests st + 1
                   else successful_requests st;
                 failed_requests :=
                   if success then failed_requests st else failed_requests st + 1;
                 errors :=
                   match success, error with
                   | false, Some e => if has_text e then errors st ++ [e] else errors st
                   | _, _ => errors st
                   end |} s)%Z.

(** An SDK or file-system call: it takes time, is logged, and its
    outcome is the one the outside gives. *)
Definition outside_call {A} (env : Env) (ev : A -> event) (answer : nat -> A) : M A :=
  fun s => let a := answer (ticks s) in (Ok a, outside env 0%Q [ev a] s).

Definition sdk_synthesize (env : Env) (text : str) : M unit :=
  (r <- outside_call env (EvSynthesize text) (fun k => model_synthesize env k text) ;;
   lift r)%monad.

Definition export_wav (env : Env) (path : str) : M unit :=
  (r <- outside_call env (EvExport path) (fun k => result_export env k path) ;;
   lift r)%monad.

Definition path_exists (env : Env) (path : str) : M bool :=
  fun s => (Ok (os_path_exists env (ticks s) path), outside env 0%Q [] s).

(** [ensure_directory]. *)
Definition ensure_directory (env : Env) (path : str) : M unit :=
  (r <- outside_call env (EvMkdir path) (fun k => mkdir env k path) ;;
   lift r)%monad.

Definition sdk_configure (env : Env) (token : json) : M unit :=
  (r <- outside_call env (EvConfigure token)
          (fun k => configure_credentials env k token) ;;
   lift r)%monad.

(** [f"{index:04d}"]. *)
Definition decimal (n : N) : str :=
  of_string (NilEmpty.string_of_uint (N.to_uint n)).

Definition zfill (width : nat) (digits : str) : str :=
  repeat 48%N (width - length digits) ++ digits.

Definition format_04d (index : Z) : str :=
  if (index <? 0)%Z then 45%N :: zfill 3 (decimal (Z.abs_N index))
  else zfill 4 (decimal (Z.abs_N index)).

(** [os.path.join(dir, name)] for a relative [name], POSIX rules. *)
Definition os_path_join (dir name : str) : str :=
  match rev dir with
  | [] => name
  | c :: _ => if (c =? 47)%N then dir ++ name else dir ++ [47%N] ++ name
  end.

Definition chunk_path (self : SpeechSynthesizer) (chunk : TextChunk.t) : str :=
  os_path_join (temp_dir self)
    (of_string "chunk_" ++ format_04d (TextChunk.index chunk) ++ of_string ".wav").

(** [chunk.processed = True; chunk.audio_file = output_path]. *)
Definition mark_processed (chunk : TextChunk.t) (output_path : str) : TextChunk.t :=
  {| TextChunk.text := TextChunk.text chunk;
     TextChunk.index := TextChunk.index chunk;
     TextChunk.length := TextChunk.length chunk;
     TextChunk.original_length := TextChunk.original_length chunk;
     TextChunk.processed := true;
     TextChunk.audio_file := Some output_path |}.

(** [_refresh_credentials]; the handler of the source logs and re-raises. *)
Definition _refresh_credentials (env : Env) : M unit :=
  (iam_token <- Auth.refresh_token env ;;
   sdk_configure env iam_token)%monad.

(** The [try] block of one attempt of [synthesize_chunk].  A chunk is a
    mutable object: the value returned is the chunk as the call leaves
    it, with what the call returns. *)
Definition attempt (env : Env) (chunk : TextChunk.t) (clean_text output_path : str)
  : M (TextChunk.t * option str) :=
  (wait_if_needed env ;;
   sdk_synthesize env clean_text ;;
   export_wav env output_path ;;
   created <- path_exists env output_path ;;
   if negb created then raise (SynthesizerError AudioFileNotCreated None)
   else
     add_request_stats true None ;;
     ret (mark_processed chunk output_path, Some output_path))%monad.

(** [range(n)]. *)
Definition py_range (n : Z) : list Z := map Z.of_nat (seq 0 (Z.to_nat n)).

(** The loop [for attempt in range(self.max_retries)] of
    [synthesize_chunk]; when the range is exhausted the function ends
    without a [return], that is with [None]. *)
Fixpoint attempts_loop (env : Env) (self : SpeechSynthesizer) (chunk : TextChunk.t)
  (clean_text output_path : str) (attempts : list Z)
  : M (TextChunk.t * option str) :=
  match attempts with
  | [] => ret (chunk, None)
  | attempt_no :: rest =>
      try_except (attempt env chunk clean_text output_path)
        (fun e =>
           add_request_stats false (Some e) ;;
           if (attempt_no <? max_retries self - 1)%Z then
             time_sleep env (retry_delay self * 2 ^ attempt_no)%Q ;;
             try_except (_refresh_credentials env) (fun _ => ret tt) ;;
             attempts_loop env self chunk clean_text output_path rest
           else
             raise (SynthesizerError
                      (RetriesExhausted (TextChunk.index chunk) (max_retries self))
                      (Some e)))%monad
  end.

(** [synthesize_chunk].  When it raises, the chunk is as it was. *)
Definition synthesize_chunk (env : Env) (self : SpeechSynthesizer)
  (chunk : TextChunk.t) (output_path : option str)
  : M (TextChunk.t * option str) :=
  if TextChunk.processed chunk then ret (chunk, TextChunk.audio_file chunk)
  else
    let clean_text := clean_text_for_synthesis env (TextChunk.text chunk) in
    if negb (truthy (strip clean_text)) then
      raise (SynthesizerError (EmptyAfterCleaning (TextChunk.index chunk)) None)
    else
      (output_path <-
         match output_path with
         | None => ensure_directory env (temp_dir self) ;;
                   ret (chunk_path self chunk)
         | Some p => ret p
         end ;;
       attempts_loop env self chunk clean_text output_path
         (py_range (max_retries self)))%monad.

(** What the loop of [synthesize_chunks] has built so far: the chunks
    visited, as the loop leaves them, [audio_files] and
    [successful_chunks]. *)
Record Progress := {
  visited : list TextChunk.t;
  audio_files : list (option str);
  successful_chunks : Z
}.

(** The loop [for chunk in chunks] of [synthesize_chunks]: an exception
    of [synthesize_chunk] is caught and leaves [None] in the chunk's
    place. *)
Fixpoint chunks_loop (env : Env) (self : SpeechSynthesizer)
  (chunks : list TextChunk.t) (p : Progress) : M Progress :=
  match chunks with
  | [] => ret p
  | chunk :: rest =>
      (p' <- try_except
               (r <- synthesize_chunk env self chunk None ;;
                ret {| visited := visited p ++ [fst r];
                       audio_files := audio_files p ++ [snd r];
                       successful_chunks := (successful_chunks p + 1)%Z |})
               (fun _ =>
                  ret {| visited := visited p ++ [chunk];
                         audio_files := audio_files p ++ [None];
                         successful_chunks := successful_chunks p |}) ;;
       chunks_loop env self rest p')%monad
  end.

(** [[f for f in audio_files if f is not None]]. *)
Fixpoint valid_audio_files (audio_files : list (option str)) : list str :=
  match audio_files with
  | [] => []
  | Some f :: rest => f :: valid_audio_files rest
  | None :: rest => valid_audio_files rest
  end.

Definition sum_lengths (chunks : list TextChunk.t) : Z :=
  fold_right (fun c acc => (TextChunk.length c + acc)%Z) 0%Z chunks.

(** [synthesize_chunks]: returns the list of audio files; the chunks as
    the call leaves them come with it. *)
Definition synthesize_chunks (env : Env) (self : SpeechSynthesizer)
  (chunks : list TextChunk.t) : M (list TextChunk.t * list str) :=
  match chunks with
  | [] => raise (SynthesizerError EmptyChunkList None)
  | _ :: _ =>
      (add_text_stats (sum_lengths chunks) (Z.of_nat (length chunks)) ;;
       try_except
         (p <- chunks_loop env self chunks
                 {| visited := []; audio_files := []; successful_chunks := 0%Z |} ;;
          match valid_audio_files (audio_files p) with
          | [] => raise (SynthesizerError NothingSynthesized None)
          | files => ret (visited p, files)
          end)
         (fun e => raise (SynthesizerError CriticalSynthesis (Some e))))%monad
  end.

End Synthesizer.

(** ** Predicates and examples of the properties *)

Module TextSpec.

(** A string that fits in a chunk. *)
Definition fits (max_chunk_size : Z) (s : str) : Prop := (len s <= max_chunk_size)%Z.

(** A string with a character that is not whitespace. *)
Definition has_ink (s : str) : bool := existsb (fun c => negb (is_space c)) s.

(** A string without whitespace. *)
Definition no_space (s : str) : bool := forallb (fun c => negb (is_space c)) s.

(** What every chunk of the splitter is: it fits and it is not blank. *)
Definition good (max_chunk_size : Z) (s : str) : Prop :=
  fits max_chunk_size s /\ has_ink s = true.

(** The current chunk of a packing loop is empty or satisfies [P]. *)
Definition empty_or (P : str -> Prop) (current : str) : Prop := current = [] \/ P current.

(** The text of the chunks one after the other, whitespace apart. *)
Definition content (chunks : list TextChunk.t) : str :=
  flat_map (fun c => non_space (TextChunk.text c)) chunks.

(** An input on which the sentence level drops an ending, and the
    chunks [split_text] makes of it with 20 characters a chunk. *)
Definition ellipsis_text : str := of_string "Wait. ... what is going on here?".

Definition ellipsis_chunks : list TextChunk.t :=
  [TextChunk.init (of_string "Wait.") 0 (Some 32%Z);
   TextChunk.init (of_string "what is going on") 1 (Some 32%Z);
   TextChunk.init (of_string "here?") 2 (Some 32%Z)].

End TextSpec.

Module AuthSpec.

Definition is_post (ev : event) : bool :=
  match ev with EvPost _ _ _ => true | _ => false end.

(** Number of exchanges with the identity endpoint in a trace. *)
Definition posts (tr : list event) : nat := length (filter is_post tr).

(** What [datetime.now()] gives when it is called in state [s]. *)
Definition datetime_read (env : Env) (s : State) : Z :=
  Qfloor (clock (outside env 0%Q [] s) * 1000000)%Q.

(** An exchange that fails for the code: no answer, a status from 400
    to 599, a body that is not JSON, or JSON without the key of the
    token. *)
Definition exchange_fails (answer : http_outcome) : bool :=
  match answer with
  | RequestFailed _ => true
  | Response status body =>
      Auth.is_error_status status
      || match body with
         | None => true
         | Some j => match Auth.subscript j (of_string "iamToken") with
                     | Ok _ => false
                     | Err _ => true
                     end
         end
  end.

(** The key signs every assertion. *)
Definition signing_works (env : Env) : Prop :=
  forall k payload key headers, exists jwt, jwt_encode env k payload key headers = Ok jwt.

End AuthSpec.

(** A small world to run the code in. *)

Module Demo.

Definition ok_unit : result unit := Ok tt.

(** Latin and Cyrillic letters, digits and the underscore. *)
Definition word_char (c : char) : bool :=
  in_range 48 57 c || in_range 65 90 c || in_range 97 122 c || (c =? 95)%N
  || in_range 1024 1279 c.

Definition token_body (token : string) : json :=
  JDict [(of_string "iamToken", JStr (of_string token))].

(** A world where the clock does not drift, every call takes [seconds],
    the identity endpoint answers [post] and the SDK answers [synth]. *)
Definition world (seconds : Q) (post : http_outcome) (synth : nat -> str -> result unit)
  : Env :=
  {| elapse := fun _ => seconds;
     jwt_encode := fun _ _ _ _ => Ok (of_string "jwt");
     requests_post := fun _ _ _ => post;
     fromisoformat := fun _ => None;
     configure_credentials := fun _ _ => ok_unit;
     model_synthesize := synth;
     result_export := fun _ _ => ok_unit;
     os_path_exists := fun _ _ => true;
     mkdir := fun _ _ => ok_unit;
     is_word := word_char |}.

Definition key : KeyData :=
  {| id := of_string "key-id";
     service_account_id := of_string "account-id";
     private_key := of_string "private-key";
     public_key := None;
     key_algorithm := of_string "RSA_2048" |}.

(** A state at second 1000 of the clock, the limiter at 35 requests a
    second and never used, with the given cached token and expiry. *)
Definition state (token : json) (expires_at : option Z) : State :=
  {| clock := 1000%Q;
     ticks := 0;
     trace := [];
     token_manager := {| key_data := Some key; iam_token := token;
                         token_expires_at := expires_at |};
     rate_limiter := {| requests_per_second := Synthesizer.default_requests_per_second;
                        min_interval := (1 # 35)%Q;
                        last_request_time := 0%Q |};
     stats := {| total_characters := 0; total_chunks := 0; total_requests := 0;
                 successful_requests := 0; failed_requests := 0; errors := [] |} |}.

Definition always_ok : nat -> str -> result unit := fun _ _ => ok_unit.

Definition always_fails : nat -> str -> result unit :=
  fun _ _ => Err (LibraryError (of_string "unavailable")).

(** The SDK fails on the text "Bad chunk." and on no other. *)
Definition fails_on_bad : nat -> str -> result unit :=
  fun _ text => if str_eqb text (of_string "Bad chunk.")
                then Err (LibraryError (of_string "unavailable")) else ok_unit.

Definition cached : json := JStr (of_string "cached-token").

End Demo.

Module SynthSpec.

Import Synthesizer.

(** A real clock: no call takes a negative time. *)
Definition clock_never_goes_back (env : Env) : Prop :=
  forall k, (0 <= elapse env k)%Q.

(** What happens between two calls of the limiter keeps the limiter and
    does not set the clock back. *)
Definition keeps_limiter (f : State -> State) : Prop :=
  forall s, rate_limiter (f s) = rate_limiter s /\ (clock s <= clock (f s))%Q.

(** Successive times are at least [gap] apart. *)
Fixpoint spaced (gap : Q) (times : list Q) : Prop :=
  match times with
  | [] => True
  | t1 :: rest =>
      match rest with
      | [] => True
      | t2 :: _ => (t1 + gap <= t2)%Q
      end /\ spaced gap rest
  end.

Definition is_synthesize (ev : event) : bool :=
  match ev with EvSynthesize _ _ => true | _ => false end.

(** Number of calls of the synthesis function in a trace. *)
Definition synth_calls (tr : list event) : nat := length (filter is_synthesize tr).



(** What [synthesize_chunk] gives for each chunk of a run, in order of
    the chunks, each in the state the run has reached. *)
Fixpoint outcomes (env : Env) (self : SpeechSynthesizer) (chunks : list TextChunk.t)
  (s : State) : list (result (TextChunk.t * option str)) :=
  match chunks with
  | [] => []
  | chunk :: rest =>
      let run := synthesize_chunk env self chunk None s in
      fst run :: outcomes env self rest (snd run)
  end.

(** The audio file of an outcome: the chunk succeeded when there is one. *)
Definition artifact (r : result (TextChunk.t * option str)) : option str :=
  match r with
  | Ok (_, Some path) => Some path
  | _ => None
  end.

(** The chunk as its call of [synthesize_chunk] leaves it. *)
Definition chunk_after (chunk : TextChunk.t) (r : result (TextChunk.t * option str))
  : TextChunk.t :=
  match r with
  | Ok (chunk', _) => chunk'
  | Err _ => chunk
  end.

Fixpoint chunks_after (chunks : list TextChunk.t)
  (outs : list (result (TextChunk.t * option str))) : list TextChunk.t :=
  match chunks, outs with
  | chunk :: chunks', r :: outs' => chunk_after chunk r :: chunks_after chunks' outs'
  | _, _ => []
  end.

Definition returned (r : result (TextChunk.t * option str)) : bool :=
  match r with Ok _ => true | Err _ => false end.

(** The state a run of the loop ends in. *)
Fixpoint final_state (env : Env) (self : SpeechSynthesizer) (chunks : list TextChunk.t)
  (s : State) : State :=
  match chunks with
  | [] => s
  | chunk :: rest =>
      final_state env self rest (snd (synthesize_chunk env self chunk None s))
  end.

(** In a chunk that is marked processed the audio file is recorded. *)
Definition well_formed (chunk : TextChunk.t) : Prop :=
  TextChunk.processed chunk = true -> TextChunk.audio_file chunk <> None.

(** The state in which the loop of [synthesize_chunks] starts. *)
Definition loop_start (chunks : list TextChunk.t) (s : State) : State :=
  snd (add_text_stats (sum_lengths chunks) (Z.of_nat (length chunks)) s).

(** The error of a run in which no chunk gave a file. *)
Definition all_chunks_failed : exn :=
  SynthesizerError CriticalSynthesis (Some (SynthesizerError NothingSynthesized None)).

(** Between [s] and [s'] the synthesis function was not called. *)
Definition quiet (s s' : State) : Prop :=
  exists added,
    trace s' = added ++ trace s /\
    forallb (fun ev => negb (is_synthesize ev)) added = true.

(** The synthesizer and the chunks of the examples: three tries, and a
    chunk "Bad chunk." among chunks the SDK accepts. *)
Definition example_synthesizer : SpeechSynthesizer :=
  {| voice := of_string "jane"; role := of_string "good";
     temp_dir := of_string "/tmp";
     max_retries := default_max_retries; retry_delay := default_retry_delay |}.

Definition chunk_of (text : string) (index : Z) : TextChunk.t :=
  TextChunk.init (of_string text) index None.

Definition two_chunks : list TextChunk.t :=
  [chunk_of "Hello world." 0; chunk_of "Bad chunk." 1].

Definition five_chunks : list TextChunk.t :=
  [chunk_of "One." 0; chunk_of "Two." 1; chunk_of "Bad chunk." 2;
   chunk_of "Four." 3; chunk_of "Five." 4].

Definition chunk_file (name : string) : str := of_string name.

(** The world of the examples: calls take no time, the identity endpoint
    hands out a token; and the state the examples start in, with a
    cached token that expires in an hour. *)
Definition example_world (synth : nat -> str -> result unit) : Env :=
  Demo.world 0 (Response 200 (Some (Demo.token_body "fresh-token"))) synth.

Definition example_state : State :=
  Demo.state Demo.cached (Some 4600000000%Z).

(** Nothing happens between two calls of the limiter. *)
Definition no_interlude : State -> State := fun s => s.

(** A chunk synthesized before, as [synthesize_chunk] leaves it. *)
Definition done_chunk : TextChunk.t :=
  mark_processed (chunk_of "Hello world." 0) (chunk_file "/tmp/chunk_0000.wav").

End SynthSpec.

(** ** [TextProcessor] and the helpers of [text_processor.py] *)

Module TextProcessor.

Import TextSplitter.

(** The dictionary [stats] of a [TextProcessor]. *)
Record Counters := {
  total_texts_processed : Z;
  total_chunks_created : Z;
  total_characters_processed : Z
}.

(** [reset_stats], and the counters [__init__] starts with. *)
Definition reset_stats : Counters :=
  {| total_texts_processed := 0;
     total_chunks_created := 0;
     total_characters_processed := 0 |}.

(** What [_validate_chunks] and [process_text] raise on their own; each
    is a [TextProcessorError] in the source. *)
Inductive chunk_failure :=
| NoChunks                 (* "Не удалось создать фрагменты текста" *)
| EmptyChunk (index : Z).  (* "Пустой фрагмент с индексом {index}" *)

Inductive processing_error :=
| BlankText                               (* "Пустой текст для обработки" *)
| SplitterRaised (e : exn)                (* "Ошибка обработки текста: {e}", [e] from [split_text] *)
| ValidationFailed (why : chunk_failure). (* "Ошибка обработки текста: {e}", [e] from [_validate_chunks] *)

(** The loop of [_validate_chunks]: a chunk longer than the size is
    only logged; an empty chunk is an error. *)
Fixpoint first_empty_chunk (chunks : list TextChunk.t) : option Z :=
  match chunks with
  | [] => None
  | chunk :: rest =>
      if (TextChunk.length chunk =? 0)%Z then Some (TextChunk.index chunk)
      else first_empty_chunk rest
  end.

(** [_validate_chunks]: [None] when it returns. *)
Definition _validate_chunks (chunks : list TextChunk.t) : option chunk_failure :=
  match chunks with
  | [] => Some NoChunks
  | _ :: _ =>
      match first_empty_chunk chunks with
      | Some index => Some (EmptyChunk index)
      | None => None
      end
  end.

(** The three [+=] of [process_text]. *)
Definition add_processed (stats : Counters) (chunks : list TextChunk.t) (text : str)
  : Counters :=
  {| total_texts_processed := total_texts_processed stats + 1;
     total_chunks_created := total_chunks_created stats + Z.of_nat (length chunks);
     total_characters_processed := total_characters_processed stats + len text |}%Z.

(** [process_text]: what it returns or raises, and the counters as it
    leaves them.  The counters are updated before the chunks are
    validated. *)
Definition process_text (max_chunk_size : Z) (stats : Counters) (text : str)
  : (list TextChunk.t + processing_error) * Counters :=
  if negb (truthy text) || negb (truthy (strip text)) then (inr BlankText, stats)
  else
    match split_text max_chunk_size text with
    | Err e => (inr (SplitterRaised e), stats)
    | Ok chunks =>
        let stats' := add_processed stats chunks text in
        match _validate_chunks chunks with
        | Some why => (inr (ValidationFailed why), stats')
        | None => (inl chunks, stats')
        end
    end.

(** [validate_text_for_processing] for a [str]; [is_letter] is the class
    [[а-яёa-z]] of [re] under [IGNORECASE]. *)
Definition validate_text_for_processing (is_letter : char -> bool) (text : str) : bool :=
  if negb (truthy text) then false
  else
    let clean_text := strip text in
    if (len clean_text <? 10)%Z then false
    else if negb (existsb is_letter clean_text) then false
    else true.

End TextProcessor.

(** ** Predicates of the further properties of the chunker *)

Module ChunkerSpec.

(** [l1] is [l2] with some elements left out: same elements, same
    order, none twice. *)
Inductive Subseq {A : Type} : list A -> list A -> Prop :=
| Subseq_nil : Subseq [] []
| Subseq_skip (x : A) (l1 l2 : list A) : Subseq l1 l2 -> Subseq l1 (x :: l2)
| Subseq_keep (x : A) (l1 l2 : list A) : Subseq l1 l2 -> Subseq (x :: l1) (x :: l2).

(** The characters of a list of strings that are not whitespace. *)
Definition content_of (l : list str) : str := flat_map non_space l.

(** A string as [strip] leaves it. *)
Definition stripped (s : str) : Prop := strip s = s.

(** Neither a carriage return nor a tab. *)
Definition plain (c : char) : Prop := c <> 13%N /\ c <> 9%N.

(** The pieces and the matches of a text, one after the other. *)
Fixpoint interleave (pieces matches : list str) : str :=
  match pieces, matches with
  | p :: ps, m :: ms => p ++ m ++ interleave ps ms
  | p :: _, [] => p
  | [], _ => []
  end.

(** The content of the state of a packing loop. *)
Definition state_content (chunks : list str) (current : str) : str :=
  content_of chunks ++ non_space current.

(** A pattern that matches whitespace only. *)
Definition matches_whitespace (m : matcher) : Prop :=
  forall s n, m s = Some n -> forallb is_space (firstn n s) = true.

(** What [_split_into_chunks] keeps of a paragraph: all of it when it
    fits, and what [sentence_parts] keeps of it when it does not. *)
Definition paragraph_content (max_chunk_size : Z) (paragraph : str) : str :=
  let paragraph := strip paragraph in
  if (len paragraph >? max_chunk_size)%Z
  then content_of (TextSplitter.sentence_parts paragraph)
  else non_space paragraph.

(** A pattern whose matches end with whitespace. *)
Definition ends_in_space (m : matcher) : Prop :=
  forall s n, m s = Some (S n) ->
  exists c, nth_error s n = Some c /\ is_space c = true.

(** The state of a packing loop holds something. *)
Definition produced (out : list str * str) : Prop := fst out <> [] \/ snd out <> [].

(** A chunk as [split_text] makes it: a text that is not empty and is
    trimmed, its length, and nothing synthesized yet. *)
Definition fresh_chunk (chunk : TextChunk.t) : Prop :=
  TextChunk.text chunk <> [] /\
  stripped (TextChunk.text chunk) /\
  TextChunk.length chunk = len (TextChunk.text chunk) /\
  (1 <= TextChunk.length chunk)%Z /\
  TextChunk.processed chunk = false /\
  TextChunk.audio_file chunk = None.

(** The paragraphs of a text as [_split_into_chunks] takes them. *)
Definition paragraphs_of (text : str) : list str :=
  map strip (re_split TextSplitter.paragraph_breaks text).

(** An input of several paragraphs, and Latin letters as a class. *)
Definition two_paragraphs : str :=
  of_string "First paragraph here.

Second one, a bit longer than the first.".

Definition latin (c : char) : bool := in_range 65 90 c || in_range 97 122 c.

End ChunkerSpec.


(** ** Predicates of the properties of the cleaning *)

Module CleanSpec.

(** A character that is left to be spoken: the cleaning keeps it and it
    is not whitespace. *)
Definition speakable (env : Env) (c : char) : bool :=
  is_kept env c && negb (is_space c).

(** A character as the cleaning leaves it: of the kept class, and, if
    whitespace, the space. *)
Definition clean_char (env : Env) (c : char) : Prop :=
  is_kept env c = true /\ (is_space c = true -> c = 32%N).

(** The error of a chunk that has nothing to say. *)
Definition nothing_to_say (chunk : TextChunk.t) : exn :=
  SynthesizerError (EmptyAfterCleaning (TextChunk.index chunk)) None.

(** A chunk of signs that the cleaning removes. *)
Definition signs : TextChunk.t := TextChunk.init (of_string "#@ $%") 7 None.

End CleanSpec.

(** ** Predicates of the further properties of the limiter *)

Module LimiterSpec.




End LimiterSpec.

(** ** [TokenManager.__init__], [_load_key] and [_validate_key] of [auth.py] *)

Module KeyLoading.

(** What the loading of the key raises; each is a [YandexAuthError],
    wrapped by the handler of [_load_key] in another. *)
Inductive key_failure :=
| MissingVariables                      (* "Не найдены переменные окружения ..." *)
| UnsupportedAlgorithm (algorithm : str).  (* "Неподдерживаемый алгоритм ключа: {algorithm}" *)

Definition backslash : char := 92%N.
Definition letter_n : char := 110%N.

(** [s.replace('\\n', '\n')]: every backslash followed by [n], from the
    left, those made of the characters of no earlier one, becomes a
    newline. *)
Fixpoint restore_newlines (s : str) : str :=
  match s with
  | c :: s' =>
      match s' with
      | d :: s'' =>
          if ((c =? backslash) && (d =? letter_n))%N
          then TextSplitter.newline :: restore_newlines s''
          else c :: restore_newlines s'
      | [] => [c]
      end
  | [] => []
  end.

(** Truth value of what [os.getenv] gives. *)
Definition set_and_not_empty (value : option str) : bool :=
  match value with
  | Some v => truthy v
  | None => false
  end.

Definition rsa_2048 : str := of_string "RSA_2048".

(** [_validate_key] for the dictionary [_load_key] has built: it is not
    empty and has the four required fields, so that the algorithm is
    all that is looked at. *)
Definition _validate_key (key : KeyData) : option key_failure :=
  if str_eqb (key_algorithm key) rsa_2048 then None
  else Some (UnsupportedAlgorithm (key_algorithm key)).

(** [_load_key]; [getenv] is [os.getenv]. *)
Definition _load_key (getenv : str -> option str) : KeyData + key_failure :=
  let key_id := getenv (of_string "YANDEX_KEY_ID") in
  let service_account_id := getenv (of_string "YANDEX_SERVICE_ACCOUNT_ID") in
  let private_key := getenv (of_string "YANDEX_PRIVATE_KEY") in
  let public_key := getenv (of_string "YANDEX_PUBLIC_KEY") in
  let key_algorithm :=
    match getenv (of_string "YANDEX_KEY_ALGORITHM") with
    | Some v => v
    | None => rsa_2048
    end in
  if set_and_not_empty key_id && set_and_not_empty service_account_id
     && set_and_not_empty private_key then
    match key_id, service_account_id, private_key with
    | Some key_id, Some service_account_id, Some private_key =>
        let key_data :=
          {| id := key_id;
             service_account_id := service_account_id;
             private_key := restore_newlines private_key;
             public_key :=
               match public_key with
               | Some p => if truthy p then Some (restore_newlines p) else None
               | None => None
               end;
             key_algorithm := key_algorithm |} in
        match _validate_key key_data with
        | Some why => inr why
        | None => inl key_data
        end
    | _, _, _ => inr MissingVariables
    end
  else inr MissingVariables.

(** [TokenManager.__init__]: no token, no expiry, and the key. *)
Definition TokenManager_init (getenv : str -> option str) : TokenManager + key_failure :=
  match _load_key getenv with
  | inl key => inl {| key_data := Some key; iam_token := JNull; token_expires_at := None |}
  | inr why => inr why
  end.

End KeyLoading.

(** ** Predicates of the further properties of the token manager *)

Module TokenSpec.

Import KeyLoading.

(** Newlines written as a backslash and [n], as a key is put in a
    variable of the environment. *)
Definition escape_newlines (s : str) : str :=
  flat_map (fun c => if (c =? TextSplitter.newline)%N then [backslash; letter_n] else [c]) s.

(** No assertion can be signed: there is no key, or the signature
    fails whenever it is asked. *)
Definition cannot_sign (env : Env) (s : State) : Prop :=
  key_data (token_manager s) = None \/
  forall k payload key headers, exists e, jwt_encode env k payload key headers = Err e.

(** The expiry [get_iam_token] records with the answer [body], the call
    ending in state [s']: the one of the answer when it has one that
    can be read, twelve hours from the last reading of the clock
    otherwise. *)
Definition recorded_expiry (env : Env) (body : json) (s' : State) : Z :=
  let expires_at_str := Auth.get body (of_string "expiresAt") in
  match (if json_truthy expires_at_str then Auth.parse_expires_at env expires_at_str
         else None) with
  | Some t => t
  | None => (Qfloor (clock s' * 1000000)%Q + Auth.default_lifetime)%Z
  end.

(** A character of a time that is neither the dot nor the letter Z. *)
Definition plain_time (c : char) : Prop := c <> Auth.dot /\ c <> Auth.letter_Z.

(** An environment with the three variables of the key, the private key
    written on one line. *)
Definition example_getenv (name : str) : option str :=
  if str_eqb name (of_string "YANDEX_KEY_ID") then Some (of_string "key-id")
  else if str_eqb name (of_string "YANDEX_SERVICE_ACCOUNT_ID") then Some (of_string "account-id")
  else if str_eqb name (of_string "YANDEX_PRIVATE_KEY")
       then Some (of_string "-----BEGIN-----\nMIIE\n-----END-----")
  else None.

Definition example_pem : str :=
  [45; 45; 45; 45; 45; 66; 69; 71; 73; 78; 45; 45; 45; 45; 45; 10;
   77; 73; 73; 69; 10;
   45; 45; 45; 45; 45; 69; 78; 68; 45; 45; 45; 45; 45]%N.

(** The manager made from that environment, and a state that holds it;
    a state whose manager has no key. *)
Definition example_manager : TokenManager :=
  {| key_data := Some {| id := of_string "key-id";
                         service_account_id := of_string "account-id";
                         private_key := example_pem;
                         public_key := None;
                         key_algorithm := rsa_2048 |};
     iam_token := JNull;
     token_expires_at := None |}.

Definition fresh_state : State := set_token_manager example_manager SynthSpec.example_state.

Definition keyless_state : State :=
  set_token_manager {| key_data := None; iam_token := JNull; token_expires_at := None |}
    SynthSpec.example_state.

(** The endpoint hands out a token that expires at a time that cannot
    be read. *)
Definition dated_body : json :=
  JDict [(of_string "iamToken", JStr (of_string "fresh-token"));
         (of_string "expiresAt", JStr (of_string "soon"))].

End TokenSpec.

(** ** Predicates of the further properties of the synthesis loop *)

Module BooksSpec.

Import AuthSpec SynthSpec.

(** Between [s] and [s'] the statistics counted [ok] requests that
    succeeded and [ko] that failed, the synthesis function was called
    once for each, and the identity endpoint was asked [asked] times;
    the counters of the text were not touched. *)
Definition step (ok ko asked : nat) (s s' : State) : Prop :=
  total_requests (stats s') = (total_requests (stats s) + Z.of_nat (ok + ko))%Z /\
  successful_requests (stats s') = (successful_requests (stats s) + Z.of_nat ok)%Z /\
  failed_requests (stats s') = (failed_requests (stats s) + Z.of_nat ko)%Z /\
  total_characters (stats s') = total_characters (stats s) /\
  total_chunks (stats s') = total_chunks (stats s) /\
  synth_calls (trace s') = synth_calls (trace s) + (ok + ko) /\
  posts (trace s') = posts (trace s) + asked.

(** No chunk has been synthesized yet. *)
Definition all_pending (chunks : list TextChunk.t) : Prop :=
  Forall (fun chunk => TextChunk.processed chunk = false) chunks.

(** Every chunk has been synthesized. *)
Definition all_done (chunks : list TextChunk.t) : Prop :=
  Forall (fun chunk => TextChunk.processed chunk = true /\
                       TextChunk.audio_file chunk <> None) chunks.

(** The files of the chunks that have one. *)
Definition files_of (chunks : list TextChunk.t) : list str :=
  Synthesizer.valid_audio_files (map TextChunk.audio_file chunks).

(** The outside does what it is asked: the SDK synthesizes, the audio
    is exported and found where it was exported, the directory is
    made. *)
Definition obliging (env : Env) : Prop :=
  (forall k text, model_synthesize env k text = Ok tt) /\
  (forall k path, result_export env k path = Ok tt) /\
  (forall k path, os_path_exists env k path = true) /\
  (forall k path, mkdir env k path = Ok tt).

(** The chunk as a successful synthesis leaves it. *)
Definition synthesized (self : Synthesizer.SpeechSynthesizer) (chunk : TextChunk.t)
  : TextChunk.t :=
  Synthesizer.mark_processed chunk (Synthesizer.chunk_path self chunk).

(** A chunk that waits for its synthesis and has something to say. *)
Definition ready (env : Env) (chunk : TextChunk.t) : Prop :=
  TextChunk.processed chunk = false /\
  existsb (CleanSpec.speakable env) (TextChunk.text chunk) = true.

End BooksSpec.

(** ** Predicates of the properties of the file names *)

Module PathSpec.

(** A text of ASCII as a [string], and the number a text of digits
    writes. *)
Definition to_string (s : str) : string :=
  string_of_list_ascii (map ascii_of_N s).

Definition read_decimal (s : str) : option N :=
  option_map N.of_uint (NilEmpty.uint_of_string (to_string s)).

(** The name of the file of the chunk of a given index. *)
Definition file_name (index : Z) : str :=
  of_string "chunk_" ++ Synthesizer.format_04d index ++ of_string ".wav".

End PathSpec.

(** ** [merge_wav_files] of [audio_merger.py]

    The audio that [pydub] holds is left abstract: a merged audio is
    the list of the segments that were added, in the order they were
    added.  The file system and [pydub] answer through the variables
    of the section. *)

Module AudioMerger.

Inductive merge_cause :=
| Raised (e : exn)          (* an exception of [pydub] or of the file system *)
| MergedFileNotCreated.     (* "Объединенный файл не был создан" *)

Inductive merger_failure :=
| EmptyFileList                     (* "Пустой список аудиофайлов для объединения" *)
| NoExistingFile                    (* "Не найдено ни одного существующего аудиофайла" *)
| MergeFailed (cause : merge_cause). (* "Ошибка объединения аудиофайлов: {e}" *)

Section Merge.

Variable AudioSegment : Type.
Variable os_path_exists : str -> bool.                (* before the export *)
Variable from_wav : str -> result AudioSegment.       (* [AudioSegment.from_wav] *)
Variable dirname : str -> str.                        (* [os.path.dirname] *)
Variable make_directory : str -> result unit.         (* [ensure_directory] *)
Variable export : list AudioSegment -> str -> result unit.  (* [combined_audio.export] *)
Variable exported : str -> bool.                      (* [os.path.exists] after the export *)
Variable getsize : str -> result Z.                   (* [os.path.getsize] *)

(** [[f for f in audio_files if f and os.path.exists(f)]]. *)
Definition existing_files (audio_files : list str) : list str :=
  filter (fun f => truthy f && os_path_exists f) audio_files.

(** The loop [for i, audio_file in enumerate(existing_files[1:], 1)]: a
    file that cannot be loaded is logged and passed over. *)
Fixpoint add_segments (combined_audio : list AudioSegment) (files : list str)
  : list AudioSegment :=
  match files with
  | [] => combined_audio
  | audio_file :: rest =>
      match from_wav audio_file with
      | Ok audio_segment => add_segments (combined_audio ++ [audio_segment]) rest
      | Err _ => add_segments combined_audio rest
      end
  end.

(** [merge_wav_files]: the path it returns, with the audio it has
    exported there. *)
Definition merge_wav_files (audio_files : list str) (output_path : str)
  : (str * list AudioSegment) + merger_failure :=
  match audio_files with
  | [] => inr EmptyFileList
  | _ :: _ =>
      match existing_files audio_files with
      | [] => inr NoExistingFile
      | first :: rest =>
          match from_wav first with
          | Err e => inr (MergeFailed (Raised e))
          | Ok base =>
              let combined_audio := add_segments [base] rest in
              let output_dir := dirname output_path in
              match (if truthy output_dir then make_directory output_dir else Ok tt) with
              | Err e => inr (MergeFailed (Raised e))
              | Ok _ =>
                  match export combined_audio output_path with
                  | Err e => inr (MergeFailed (Raised e))
                  | Ok _ =>
                      if negb (exported output_path)
                      then inr (MergeFailed MergedFileNotCreated)
                      else
                        match getsize output_path with
                        | Err e => inr (MergeFailed (Raised e))
                        | Ok _ => inl (output_path, combined_audio)
                        end
                  end
              end
          end
      end
  end.

(** The segments of the files that can be loaded, in the order of the
    files. *)
Definition segments_of (files : list str) : list AudioSegment :=
  flat_map (fun f => match from_wav f with
                     | Ok audio_segment => [audio_segment]
                     | Err _ => []
                     end) files.

End Merge.

(** A file system for the examples: every file exists but
    "missing.wav", every file can be loaded but "broken.wav", and the
    audio of a file is written as its name. *)
Definition example_exists (f : str) : bool := negb (str_eqb f (of_string "missing.wav")).

Definition example_from_wav (f : str) : result str :=
  if str_eqb f (of_string "broken.wav") then Err (LibraryError (of_string "not a WAV file"))
  else Ok f.

Definition example_merge (audio_files : list str) : (str * list str) + merger_failure :=
  merge_wav_files str example_exists example_from_wav (fun _ => [])
    (fun _ => Ok tt) (fun _ _ => Ok tt) (fun _ => true) (fun _ => Ok 44%Z)
    audio_files (of_string "out.wav").

End AudioMerger.

(** ** The arithmetic of times

    The source keeps its times in binary64 floats: [time.time()] gives
    a float, and the differences of [wait_if_needed] and the quotient
    of [RateLimiter.__init__] are rounded.  A float is written here as
    the rational it stands for, and an operation of the source as the
    exact operation followed by the rounding of its result. *)

Module Binary64.

(** The binade of a positive rational: the [e] with
    [2 ^ e <= q < 2 ^ (e + 1)]. *)
Definition binade (q : Q) : Z :=
  let e := (Z.log2 (Qnum q) - Z.log2 (Zpos (Qden q)))%Z in
  if Qle_bool (2 ^ e) q then e else (e - 1)%Z.

(** The integer nearest to a rational that is not negative, the even
    one of the two when it is half way. *)
Definition nearest_even (x : Q) : Z :=
  let f := Qfloor x in
  match (x - inject_Z f ?= 1 # 2)%Q with
  | Lt => f
  | Gt => (f + 1)%Z
  | Eq => if Z.even f then f else (f + 1)%Z
  end.

(** The spacing of the floats at a positive rational: 53 bits, and the
    subnormal numbers below [2 ^ -1022]. *)
Definition ulp (q : Q) : Q := (2 ^ Z.max (binade q - 52) (-1074))%Q.

Definition round_positive (q : Q) : Q :=
  (inject_Z (nearest_even (q / ulp q)) * ulp q)%Q.

(** The binary64 number nearest to [q], ties to even.  The overflow to
    an infinity, from [2 ^ 1024] on, is left out: no time comes near. *)
Definition round64 (q : Q) : Q :=
  match Qnum q with
  | Z0 => 0%Q
  | Zpos _ => round_positive q
  | Zneg _ => (- round_positive (- q))%Q
  end.

End Binary64.

(** ** [RateLimiter] in an arithmetic that rounds

    [rnd] is the rounding of the arithmetic: [Binary64.round64] for the
    floats of the source, the identity for an arithmetic that is
    exact; [Synthesizer.wait_if_needed] is the latter. *)

Module Rounded.

Import Synthesizer.

(** [RateLimiter.__init__]: [self.min_interval = 1.0 / self.requests_per_second]. *)
Definition RateLimiter_init (rnd : Q -> Q) (requests_per_second : Q) : result RateLimiter :=
  if Qeq_bool requests_per_second 0%Q then Err ZeroDivisionError
  else Ok {| requests_per_second := requests_per_second;
             min_interval := rnd (1 / requests_per_second)%Q;
             last_request_time := 0%Q |}.

(** [time.time()]: the float that stands for the time of the clock. *)
Definition time_time (rnd : Q -> Q) (env : Env) : M Q :=
  (t <- time_time env ;; ret (rnd t))%monad.

(** [RateLimiter.wait_if_needed]. *)
Definition wait_if_needed (rnd : Q -> Q) (env : Env) : M unit :=
  (current_time <- time_time rnd env ;;
   s <- get_state ;;
   let self := rate_limiter s in
   let time_since_last := rnd (current_time - last_request_time self)%Q in
   (if Qlt_bool time_since_last (min_interval self) then
      let sleep_time := rnd (min_interval self - time_since_last)%Q in
      time_sleep env sleep_time
    else ret tt) ;;
   t <- time_time rnd env ;;
   modify (fun s => set_rate_limiter (set_last_request_time t (rate_limiter s)) s))%monad.

End Rounded.

(** ** Predicates of the pacing *)

Module PacingSpec.

Import Synthesizer SynthSpec.

(** An arithmetic that does not round, and one whose rounding makes
    nothing positive negative. *)
Definition exact (rnd : Q -> Q) : Prop := forall q, rnd q = q.

Definition keeps_sign (rnd : Q -> Q) : Prop := forall q, (0 < q)%Q -> (0 <= rnd q)%Q.

(** The time of the clock when a call started in [s] first reads it;
    the time since the last grant and the sleep, as the call computes
    them. *)
Definition first_time (env : Env) (s : State) : Q := clock (outside env 0%Q [] s).

Definition time_since_last (rnd : Q -> Q) (env : Env) (s : State) : Q :=
  rnd (rnd (first_time env s) - last_request_time (rate_limiter s))%Q.

Definition too_early (rnd : Q -> Q) (env : Env) (s : State) : bool :=
  Qlt_bool (time_since_last rnd env s) (min_interval (rate_limiter s)).

Definition sleep_time (rnd : Q -> Q) (env : Env) (s : State) : Q :=
  rnd (min_interval (rate_limiter s) - time_since_last rnd env s)%Q.

(** What a call of the limiter started in [s] does: it returns, keeps
    the rate, sleeps once when it comes too early and not at all
    otherwise, and records as the grant the float of the time at which
    it returns, the sleep at least after the time it first read. *)
Definition granted (rnd : Q -> Q) (env : Env) (s : State) (run : result unit * State)
  : Prop :=
  fst run = Ok tt /\
  requests_per_second (rate_limiter (snd run)) = requests_per_second (rate_limiter s) /\
  min_interval (rate_limiter (snd run)) = min_interval (rate_limiter s) /\
  last_request_time (rate_limiter (snd run)) = rnd (clock (snd run)) /\
  if too_early rnd env s then
    trace (snd run) = EvSleep (sleep_time rnd env s) :: trace s /\
    (first_time env s + sleep_time rnd env s <= clock (snd run))%Q
  else
    trace (snd run) = trace s /\ (first_time env s <= clock (snd run))%Q.

(** The grant times of a sequence of calls of [wait_if_needed], each
    call coming after one of the [interludes]. *)
Fixpoint grants (rnd : Q -> Q) (env : Env) (interludes : list (State -> State))
  (s : State) : list Q :=
  match interludes with
  | [] => []
  | f :: rest =>
      let s' := snd (Rounded.wait_if_needed rnd env (f s)) in
      last_request_time (rate_limiter s') :: grants rnd env rest s'
  end.

(** A state of the present day: second 1 700 000 000 of the epoch, a
    limiter just made for 35 requests a second with the floats of the
    source. *)
Definition epoch_state : State :=
  {| clock := 1700000000%Q;
     ticks := 0;
     trace := [];
     token_manager := token_manager example_state;
     rate_limiter := {| requests_per_second := 35%Q;
                        min_interval := Binary64.round64 (1 / 35)%Q;
                        last_request_time := 0%Q |};
     stats := stats example_state |}.

End PacingSpec.

(** ** Properties of the chunker *)

Module TextFacts.

Import TextSplitter TextSpec.

Lemma lstrip_length (s : str) : (length (lstrip s) <= length s)%nat.
Proof.
  induction s as [|c s IH]; simpl; [lia|].
  destruct (is_space c); simpl; lia.
Qed.

Lemma strip_length (s : str) : (len (strip s) <= len s)%Z.
Proof.
  unfold len, strip, rstrip.
  rewrite length_rev.
  pose proof (lstrip_length (rev (lstrip s))) as H1.
  rewrite length_rev in H1.
  pose proof (lstrip_length s). lia.
Qed.

Lemma truthy_rev (s : str) : truthy (rev s) = truthy s.
Proof.
  destruct s as [|c s]; [reflexivity|]. simpl.
  destruct (rev s); reflexivity.
Qed.

Lemma truthy_lstrip (s : str) : truthy (lstrip s) = has_ink s.
Proof.
  induction s as [|c s IH]; [reflexivity|]. simpl.
  destruct (is_space c); simpl; [exact IH|reflexivity].
Qed.

Lemma has_ink_app (a b : str) : has_ink (a ++ b) = has_ink a || has_ink b.
Proof. apply existsb_app. Qed.

Lemma has_ink_rev (s : str) : has_ink (rev s) = has_ink s.
Proof.
  induction s as [|c s IH]; [reflexivity|]. simpl.
  rewrite has_ink_app, IH. simpl. rewrite orb_false_r. apply orb_comm.
Qed.

Lemma has_ink_lstrip (s : str) : has_ink (lstrip s) = has_ink s.
Proof.
  induction s as [|c s IH]; [reflexivity|]. simpl.
  destruct (is_space c) eqn:E; simpl; [exact IH|now rewrite E].
Qed.

Lemma has_ink_strip (s : str) : has_ink (strip s) = has_ink s.
Proof.
  unfold strip, rstrip.
  now rewrite has_ink_rev, has_ink_lstrip, has_ink_rev, has_ink_lstrip.
Qed.

(** [s.strip()] is non-empty exactly when [s] has a character that is
    not whitespace. *)
Lemma truthy_strip (s : str) : truthy (strip s) = has_ink s.
Proof.
  unfold strip, rstrip.
  now rewrite truthy_rev, truthy_lstrip, has_ink_rev, has_ink_lstrip.
Qed.

Lemma no_space_has_ink (s : str) : no_space s = true -> s <> [] -> has_ink s = true.
Proof.
  destruct s as [|c s]; [congruence|]. simpl.
  intros H _. apply andb_prop in H. now rewrite (proj1 H).
Qed.

Lemma no_space_app (a b : str) : no_space (a ++ b) = no_space a && no_space b.
Proof. apply forallb_app. Qed.

Lemma no_space_firstn (n : nat) (s : str) : no_space s = true -> no_space (firstn n s) = true.
Proof.
  intros H. rewrite <- (firstn_skipn n s), no_space_app in H.
  now apply andb_prop in H.
Qed.

Lemma no_space_skipn (n : nat) (s : str) : no_space s = true -> no_space (skipn n s) = true.
Proof.
  intros H. rewrite <- (firstn_skipn n s), no_space_app in H.
  now apply andb_prop in H.
Qed.

(** *** [re.split] and [re.findall] *)

(** [re.split] returns one piece more than [re.findall] returns matches:
    in [_split_by_sentences], [endings[i]] exists for every sentence but
    the last. *)
Lemma re_split_findall_length (m : matcher) (s : str) : forall skip piece,
  length (re_split_go m skip piece s) = S (length (re_findall_go m skip s)).
Proof.
  induction s as [|c s IH]; intros skip piece; [reflexivity|].
  cbn [re_split_go re_findall_go]. destruct skip as [|k]; [|apply IH].
  destruct (m (c :: s)) as [[|k]|]; cbn [length]; now rewrite IH.
Qed.

(** *** The pieces of [re.split(r'\s+', text)] hold no whitespace *)

Lemma word_boundaries_none (c : char) (s : str) :
  match word_boundaries (c :: s) with Some (S _) => True | _ => is_space c = false end.
Proof.
  unfold word_boundaries. simpl.
  destruct (is_space c); simpl; auto.
Qed.

Lemma re_split_go_words_no_space (s : str) : forall skip piece,
  no_space piece = true ->
  Forall (fun w => no_space w = true) (re_split_go word_boundaries skip piece s).
Proof.
  assert (Hrev : forall p, no_space p = true -> no_space (rev p) = true).
  { intros p Hp. unfold no_space in *. rewrite forallb_forall in *.
    intros c Hc. apply Hp. now apply in_rev. }
  induction s as [|c s IH]; intros skip piece Hp.
  - simpl. constructor; auto.
  - cbn [re_split_go]. destruct skip as [|k]; [|now apply IH].
    pose proof (word_boundaries_none c s) as Hm.
    destruct (word_boundaries (c :: s)) as [[|k]|].
    + apply IH. simpl. now rewrite Hm.
    + constructor; [now apply Hrev | now apply IH].
    + apply IH. simpl. now rewrite Hm.
Qed.

Lemma re_split_words_no_space (s : str) :
  Forall (fun w => no_space w = true) (re_split word_boundaries s).
Proof. now apply re_split_go_words_no_space. Qed.

(** *** The hard cut *)

Lemma hard_cut_inv (max_chunk_size : Z) (word : str) (parts : list str) :
  hard_cut max_chunk_size word = Ok parts ->
  (max_chunk_size < 0 /\ parts = [])%Z \/
  (0 < max_chunk_size)%Z /\
  parts = map (fun k => firstn (Z.to_nat max_chunk_size)
                               (skipn (k * Z.to_nat max_chunk_size) word))
              (seq 0 (Z.to_nat ((len word + max_chunk_size - 1) / max_chunk_size))).
Proof.
  unfold hard_cut, py_range0. simpl.
  destruct (Z.eqb_spec max_chunk_size 0) as [|Hz]; [discriminate|].
  destruct (Z.ltb_spec max_chunk_size 0) as [Hn|Hp]; simpl; intros [= <-].
  - left. auto.
  - right. split; [lia|].
    rewrite map_map. apply map_ext. intros k. unfold slice.
    f_equal; [f_equal; lia|f_equal; lia].
Qed.

Lemma ceil_div_count (n m : Z) :
  (0 < m)%Z -> (0 <= n)%Z ->
  forall k, (Z.of_nat k < (n + m - 1) / m)%Z -> (Z.of_nat k * m < n)%Z.
Proof.
  intros Hm Hn k Hk.
  assert (H1 : (Z.of_nat k + 1 <= (n + m - 1) / m)%Z) by lia.
  assert (H2 : (m * ((n + m - 1) / m) <= n + m - 1)%Z) by (apply Z.mul_div_le; lia).
  nia.
Qed.

Lemma ceil_div_full (n m : Z) :
  (0 < m)%Z -> (0 <= n)%Z ->
  forall k, (Z.of_nat k + 1 < (n + m - 1) / m)%Z -> ((Z.of_nat k + 1) * m <= n)%Z.
Proof.
  intros Hm Hn k Hk.
  assert (H1 : (Z.of_nat k + 2 <= (n + m - 1) / m)%Z) by lia.
  assert (H2 : (m * ((n + m - 1) / m) <= n + m - 1)%Z) by (apply Z.mul_div_le; lia).
  nia.
Qed.

Lemma hard_cut_fits (max_chunk_size : Z) (word : str) (parts : list str) :
  hard_cut max_chunk_size word = Ok parts -> Forall (fits max_chunk_size) parts.
Proof.
  intros H. apply hard_cut_inv in H as [[_ ->]|[Hp ->]]; [constructor|].
  apply Forall_forall. intros p Hin. apply in_map_iff in Hin as (k & <- & _).
  unfold fits, len. rewrite length_firstn. lia.
Qed.

Lemma removelast_map {A B} (f : A -> B) (l : list A) :
  removelast (map f l) = map f (removelast l).
Proof.
  induction l as [|a l IH]; [reflexivity|].
  simpl. destruct l; [reflexivity|]. simpl in *. now rewrite IH.
Qed.

Lemma removelast_seq (n a : nat) : removelast (seq a n) = seq a (n - 1).
Proof.
  destruct n as [|n]; [reflexivity|].
  rewrite seq_S, removelast_last. f_equal. lia.
Qed.

Lemma hard_cut_exact (max_chunk_size : Z) (word : str) (parts : list str) :
  hard_cut max_chunk_size word = Ok parts ->
  Forall (fun p => len p = max_chunk_size) (removelast parts).
Proof.
  intros H. apply hard_cut_inv in H as [[_ ->]|[Hp ->]]; [constructor|].
  rewrite removelast_map, removelast_seq.
  apply Forall_forall. intros p Hin. apply in_map_iff in Hin as (k & <- & Hk).
  apply in_seq in Hk.
  pose proof (ceil_div_full (len word) max_chunk_size Hp ltac:(unfold len; lia) k) as Hfull.
  assert (Hpos : (0 <= (len word + max_chunk_size - 1) / max_chunk_size)%Z).
  { apply Z.div_pos; unfold len; lia. }
  unfold len in *. rewrite length_firstn, length_skipn. nia.
Qed.

Lemma hard_cut_ink (max_chunk_size : Z) (word : str) (parts : list str) :
  no_space word = true ->
  hard_cut max_chunk_size word = Ok parts ->
  Forall (fun p => has_ink p = true) parts.
Proof.
  intros Hw H. apply hard_cut_inv in H as [[_ ->]|[Hp ->]]; [constructor|].
  apply Forall_forall. intros p Hin. apply in_map_iff in Hin as (k & <- & Hk).
  apply in_seq in Hk.
  pose proof (ceil_div_count (len word) max_chunk_size Hp ltac:(unfold len; lia) k) as Hc.
  apply no_space_has_ink.
  - now apply no_space_firstn, no_space_skipn.
  - intros Hnil. apply (f_equal (@length _)) in Hnil.
    rewrite length_firstn, length_skipn in Hnil. simpl in Hnil.
    unfold len in *. nia.
Qed.

(** *** The packing loops *)

Section Packing.

Variable max_chunk_size : Z.

Lemma seal_good (chunks : list str) (current : str) :
  Forall (good max_chunk_size) chunks -> empty_or (good max_chunk_size) current -> Forall (good max_chunk_size) (seal chunks current).
Proof.
  intros Hc [->|Hg]; unfold seal; [exact Hc|].
  destruct (truthy current); [|exact Hc].
  apply Forall_app. split; [exact Hc|]. now constructor.
Qed.

Lemma all_but_last_good (l : list str) : Forall (good max_chunk_size) l -> Forall (good max_chunk_size) (all_but_last l).
Proof.
  unfold all_but_last. induction 1 as [|a l Ha Hl IH]; [constructor|].
  simpl. destruct l; [constructor|]. now constructor.
Qed.

Lemma last_or_empty_good (l : list str) : Forall (good max_chunk_size) l -> empty_or (good max_chunk_size) (last_or_empty l).
Proof.
  unfold last_or_empty. induction 1 as [|a l Ha Hl IH]; [now left|].
  simpl. destruct l; [now right|exact IH].
Qed.

Lemma potential_good (sep current unit : str) :
  (len (potential sep current unit) <=? max_chunk_size)%Z = true ->
  has_ink unit = true -> (good max_chunk_size) (potential sep current unit).
Proof.
  intros Hlen Hink. split; [now apply Z.leb_le|].
  unfold potential. rewrite !has_ink_app, Hink. now rewrite !orb_true_r.
Qed.

Lemma unit_good (unit : str) :
  (len unit >? max_chunk_size)%Z = false -> has_ink unit = true -> (good max_chunk_size) unit.
Proof.
  intros Hlen Hink. split; [|exact Hink].
  unfold fits. rewrite Z.gtb_ltb in Hlen. now apply Z.ltb_ge in Hlen.
Qed.

Lemma words_loop_good (words : list str) : forall chunks current out,
  Forall (fun w => no_space w = true) words ->
  Forall (good max_chunk_size) chunks -> empty_or (good max_chunk_size) current ->
  words_loop max_chunk_size words chunks current = Ok out ->
  Forall (good max_chunk_size) (fst out) /\ empty_or (good max_chunk_size) (snd out).
Proof.
  induction words as [|word rest IH]; intros chunks current out Hw Hc Hcur H.
  - injection H as <-. auto.
  - inversion Hw as [|? ? Hword Hrest]; subst. cbn [words_loop] in H.
    rewrite truthy_strip in H.
    destruct (has_ink word) eqn:Hink; cbn [negb] in H; [|now apply (IH _ _ _ Hrest Hc Hcur H)].
    destruct (len (potential [space] current word) <=? max_chunk_size)%Z eqn:Hfit.
    { refine (IH _ _ _ Hrest Hc _ H). right. now apply potential_good. }
    pose proof (seal_good chunks current Hc Hcur) as Hseal.
    destruct (len word >? max_chunk_size)%Z eqn:Hlong.
    + destruct (hard_cut max_chunk_size word) as [parts|e] eqn:Hcut; [|discriminate].
      cbn [bind_result] in H. refine (IH _ _ _ Hrest _ _ H); [|now left].
      apply Forall_app. split; [exact Hseal|].
      pose proof (hard_cut_fits _ _ _ Hcut) as Hf.
      pose proof (hard_cut_ink _ _ _ Hword Hcut) as Hi.
      rewrite Forall_forall in *. intros p Hp. split; auto.
    + refine (IH _ _ _ Hrest Hseal _ H). right. now apply unit_good.
Qed.

Lemma _split_by_words_good (text : str) (chunks : list str) :
  _split_by_words max_chunk_size text = Ok chunks -> Forall (good max_chunk_size) chunks.
Proof.
  unfold _split_by_words. intros H.
  destruct (words_loop max_chunk_size (re_split word_boundaries text) [] [])
    as [out|e] eqn:Hloop; [|discriminate].
  injection H as <-.
  apply words_loop_good in Hloop as [H1 H2];
    [now apply seal_good|apply re_split_words_no_space|constructor|now left].
Qed.

Lemma sentences_loop_good (sentences : list str) : forall chunks current out,
  Forall (good max_chunk_size) chunks -> empty_or (good max_chunk_size) current ->
  sentences_loop max_chunk_size sentences chunks current = Ok out ->
  Forall (good max_chunk_size) (fst out) /\ empty_or (good max_chunk_size) (snd out).
Proof.
  induction sentences as [|sentence rest IH]; intros chunks current out Hc Hcur H.
  - injection H as <-. auto.
  - cbn [sentences_loop] in H. cbv zeta in H.
    destruct (truthy (strip sentence)) eqn:Hink; cbn [negb] in H;
      [|now apply (IH _ _ _ Hc Hcur H)].
    rewrite truthy_strip in Hink. rewrite <- (has_ink_strip sentence) in Hink.
    destruct (len (potential [space] current (strip sentence)) <=? max_chunk_size)%Z eqn:Hfit.
    { refine (IH _ _ _ Hc _ H). right. now apply potential_good. }
    pose proof (seal_good chunks current Hc Hcur) as Hseal.
    destruct (len (strip sentence) >? max_chunk_size)%Z eqn:Hlong.
    + destruct (_split_by_words max_chunk_size (strip sentence)) as [parts|e] eqn:Hsub;
        [|discriminate].
      cbn [bind_result] in H. apply _split_by_words_good in Hsub.
      refine (IH _ _ _ _ _ H); [|now apply last_or_empty_good].
      apply Forall_app. split; [exact Hseal|now apply all_but_last_good].
    + refine (IH _ _ _ Hseal _ H). right. now apply unit_good.
Qed.

Lemma _split_by_sentences_good (text : str) (chunks : list str) :
  _split_by_sentences max_chunk_size text = Ok chunks -> Forall (good max_chunk_size) chunks.
Proof.
  unfold _split_by_sentences. intros H.
  destruct (sentences_loop max_chunk_size (sentence_parts text) [] [])
    as [out|e] eqn:Hloop; [|discriminate].
  injection H as <-.
  apply sentences_loop_good in Hloop as [H1 H2];
    [now apply seal_good|constructor|now left].
Qed.

Lemma paragraphs_loop_good (paragraphs : list str) : forall chunks current out,
  Forall (good max_chunk_size) chunks -> empty_or (good max_chunk_size) current ->
  paragraphs_loop max_chunk_size paragraphs chunks current = Ok out ->
  Forall (good max_chunk_size) (fst out) /\ empty_or (good max_chunk_size) (snd out).
Proof.
  induction paragraphs as [|paragraph rest IH]; intros chunks current out Hc Hcur H.
  - injection H as <-. auto.
  - cbn [paragraphs_loop] in H. cbv zeta in H.
    destruct (truthy (strip paragraph)) eqn:Hink; cbn [negb] in H;
      [|now apply (IH _ _ _ Hc Hcur H)].
    rewrite truthy_strip in Hink. rewrite <- (has_ink_strip paragraph) in Hink.
    destruct (len (potential [newline; newline] current (strip paragraph))
              <=? max_chunk_size)%Z eqn:Hfit.
    { refine (IH _ _ _ Hc _ H). right. now apply potential_good. }
    pose proof (seal_good chunks current Hc Hcur) as Hseal.
    destruct (len (strip paragraph) >? max_chunk_size)%Z eqn:Hlong.
    + destruct (_split_by_sentences max_chunk_size (strip paragraph)) as [parts|e] eqn:Hsub;
        [|discriminate].
      cbn [bind_result] in H. apply _split_by_sentences_good in Hsub.
      refine (IH _ _ _ _ _ H); [|now apply last_or_empty_good].
      apply Forall_app. split; [exact Hseal|now apply all_but_last_good].
    + refine (IH _ _ _ Hseal _ H). right. now apply unit_good.
Qed.

Lemma _split_into_chunks_good (text : str) (chunks : list str) :
  _split_into_chunks max_chunk_size text = Ok chunks -> Forall (good max_chunk_size) chunks.
Proof.
  unfold _split_into_chunks. intros H.
  destruct (paragraphs_loop max_chunk_size (re_split paragraph_breaks text) [] [])
    as [out|e] eqn:Hloop; [|discriminate].
  injection H as <-.
  apply paragraphs_loop_good in Hloop as [H1 H2];
    [now apply seal_good|constructor|now left].
Qed.

End Packing.

(** *** The splitter returns whenever the chunk size is not zero *)

Section Totality.

Variable max_chunk_size : Z.
Hypothesis size_not_zero : max_chunk_size <> 0%Z.

Lemma hard_cut_total (word : str) : exists parts, hard_cut max_chunk_size word = Ok parts.
Proof.
  unfold hard_cut, py_range0.
  destruct (Z.eqb_spec max_chunk_size 0); [contradiction|].
  destruct (max_chunk_size <? 0)%Z; simpl; eauto.
Qed.

Lemma words_loop_total (words : list str) : forall chunks current,
  exists out, words_loop max_chunk_size words chunks current = Ok out.
Proof.
  induction words as [|word rest IH]; intros chunks current; [simpl; eauto|].
  cbn [words_loop]. cbv zeta.
  destruct (negb (truthy (strip word))); [apply IH|].
  destruct (len (potential [space] current word) <=? max_chunk_size)%Z; [apply IH|].
  destruct (len word >? max_chunk_size)%Z; [|apply IH].
  destruct (hard_cut_total word) as [parts ->]. apply IH.
Qed.

Lemma _split_by_words_total (text : str) :
  exists chunks, _split_by_words max_chunk_size text = Ok chunks.
Proof.
  unfold _split_by_words.
  destruct (words_loop_total (re_split word_boundaries text) [] []) as [out ->].
  simpl. eauto.
Qed.

Lemma sentences_loop_total (sentences : list str) : forall chunks current,
  exists out, sentences_loop max_chunk_size sentences chunks current = Ok out.
Proof.
  induction sentences as [|sentence rest IH]; intros chunks current; [simpl; eauto|].
  cbn [sentences_loop]. cbv zeta.
  destruct (negb (truthy (strip sentence))); [apply IH|].
  destruct (len (potential [space] current (strip sentence)) <=? max_chunk_size)%Z;
    [apply IH|].
  destruct (len (strip sentence) >? max_chunk_size)%Z; [|apply IH].
  destruct (_split_by_words_total (strip sentence)) as [parts ->]. apply IH.
Qed.

Lemma _split_by_sentences_total (text : str) :
  exists chunks, _split_by_sentences max_chunk_size text = Ok chunks.
Proof.
  unfold _split_by_sentences.
  destruct (sentences_loop_total (sentence_parts text) [] []) as [out ->].
  simpl. eauto.
Qed.

Lemma paragraphs_loop_total (paragraphs : list str) : forall chunks current,
  exists out, paragraphs_loop max_chunk_size paragraphs chunks current = Ok out.
Proof.
  induction paragraphs as [|paragraph rest IH]; intros chunks current; [simpl; eauto|].
  cbn [paragraphs_loop]. cbv zeta.
  destruct (negb (truthy (strip paragraph))); [apply IH|].
  destruct (len (potential [newline; newline] current (strip paragraph))
            <=? max_chunk_size)%Z; [apply IH|].
  destruct (len (strip paragraph) >? max_chunk_size)%Z; [|apply IH].
  destruct (_split_by_sentences_total (strip paragraph)) as [parts ->]. apply IH.
Qed.

(** [split_text] returns chunks for every text that is not blank. *)
Lemma split_text_total (text : str) :
  has_ink text = true -> exists chunks, split_text max_chunk_size text = Ok chunks.
Proof.
  intros Hink. unfold split_text.
  rewrite truthy_strip, Hink.
  destruct text as [|c text]; [discriminate|]. cbn [truthy negb orb].
  destruct (len (_preprocess_text (c :: text)) <=? max_chunk_size)%Z; [eauto|].
  unfold _split_into_chunks.
  destruct (paragraphs_loop_total
              (re_split paragraph_breaks (_preprocess_text (c :: text))) [] [])
    as [out ->].
  simpl. eauto.
Qed.

End Totality.

(** *** The chunks of [split_text] *)

Lemma enumerate_fst {A} (l : list A) : forall i,
  map fst (enumerate i l) = map (fun k => (i + Z.of_nat k)%Z) (seq 0 (length l)).
Proof.
  induction l as [|a l IH]; intros i; [reflexivity|].
  cbn [enumerate map length seq fst]. f_equal; [lia|].
  rewrite IH, <- seq_shift, map_map. apply map_ext. intros k. lia.
Qed.

Lemma filter_all {A} (f : A -> bool) (l : list A) :
  Forall (fun a => f a = true) l -> filter f l = l.
Proof.
  induction 1 as [|a l Ha Hl IH]; [reflexivity|].
  simpl. now rewrite Ha, IH.
Qed.

Lemma enumerate_snd {A} (P : A -> Prop) (l : list A) : forall i,
  Forall P l -> Forall (fun ia => P (snd ia)) (enumerate i l).
Proof.
  induction l as [|a l IH]; intros i H; [constructor|].
  inversion H; subst. constructor; auto.
Qed.

(** What [split_text] returns, read off its two exits: the pieces, none
    dropped, numbered from zero. *)
Lemma split_text_inv (max_chunk_size : Z) (text : str) (chunks : list TextChunk.t) :
  split_text max_chunk_size text = Ok chunks ->
  exists pieces : list str,
    Forall (fits max_chunk_size) pieces /\
    chunks = map (fun ic : Z * str => TextChunk.init (snd ic) (fst ic) (Some (len text)))
                 (enumerate 0 pieces).
Proof.
  unfold split_text. intros H.
  destruct (negb (truthy text) || negb (truthy (strip text))); [discriminate|].
  destruct (len (_preprocess_text text) <=? max_chunk_size)%Z eqn:Hfit.
  - injection H as <-. exists [_preprocess_text text]. split; [|reflexivity].
    constructor; [|constructor]. now apply Z.leb_le.
  - destruct (_split_into_chunks max_chunk_size (_preprocess_text text))
      as [pieces|e] eqn:Hsplit; [|discriminate].
    injection H as <-. apply _split_into_chunks_good in Hsplit.
    exists pieces. split.
    + eapply Forall_impl; [|exact Hsplit]. now intros p [Hp _].
    + rewrite filter_all; [reflexivity|].
      apply (enumerate_snd (fun p => truthy (strip p) = true)).
      eapply Forall_impl; [|exact Hsplit]. intros p [_ Hp]. now rewrite truthy_strip.
Qed.

(** C3. Chunking bound: every chunk that [split_text] returns, at the
    paragraph, sentence or word level or from the hard cut, has a text
    of at most [max_chunk_size] characters (and its [length] field is
    the length of its text); the slices of the hard cut are at most
    [max_chunk_size] long and all but the last are exactly
    [max_chunk_size] long. *)
Theorem chunking_bound (max_chunk_size : Z) (text : str) (chunks : list TextChunk.t) :
  split_text max_chunk_size text = Ok chunks ->
  Forall (fun c => (len (TextChunk.text c) <= max_chunk_size)%Z /\
                   TextChunk.length c = len (TextChunk.text c)) chunks /\
  (forall word parts,
      hard_cut max_chunk_size word = Ok parts ->
      Forall (fun p => (len p <= max_chunk_size)%Z) parts /\
      Forall (fun p => len p = max_chunk_size) (removelast parts)).
Proof.
  intros H. split.
  - apply split_text_inv in H as (pieces & Hfit & ->).
    apply Forall_forall. intros c Hc.
    apply in_map_iff in Hc as ([i p] & <- & Hin). simpl. split; [|reflexivity].
    assert (Hp : fits max_chunk_size p).
    { rewrite Forall_forall in Hfit. apply Hfit.
      clear -Hin. revert Hin. generalize 0%Z.
      induction pieces as [|q pieces IH]; simpl; intros z Hin; [contradiction|].
      destruct Hin as [[= _ ->]|Hin]; eauto. }
    pose proof (strip_length p). unfold fits in Hp. lia.
  - intros word parts Hcut. split.
    + exact (hard_cut_fits _ _ _ Hcut).
    + exact (hard_cut_exact _ _ _ Hcut).
Qed.

Lemma chunking_bound_witness :
  split_text 20 ellipsis_text = Ok ellipsis_chunks /\
  Forall (fun c => (len (TextChunk.text c) <= 20)%Z /\
                   TextChunk.length c = len (TextChunk.text c)) ellipsis_chunks.
Proof.
  split; [vm_compute; reflexivity|].
  apply (chunking_bound 20 ellipsis_text ellipsis_chunks). vm_compute. reflexivity.
Defined.

(** C4. Index contiguity: the indices of the chunks that [split_text]
    returns are 0, 1, ..., n-1 in this order, n being the number of
    chunks returned. *)
Theorem index_contiguity (max_chunk_size : Z) (text : str) (chunks : list TextChunk.t) :
  split_text max_chunk_size text = Ok chunks ->
  map TextChunk.index chunks = map Z.of_nat (seq 0 (length chunks)).
Proof.
  intros H. apply split_text_inv in H as (pieces & _ & ->).
  rewrite map_map, length_map. cbn [TextChunk.index TextChunk.init].
  change (fun x : Z * str => fst x) with (@fst Z str).
  rewrite enumerate_fst.
  assert (Hlen : forall (l : list str) i, length (enumerate i l) = length l).
  { induction l as [|a l IH]; intros i; simpl; auto. }
  rewrite Hlen. apply map_ext. intros k. lia.
Qed.

Lemma index_contiguity_witness :
  split_text 20 ellipsis_text = Ok ellipsis_chunks /\
  map TextChunk.index ellipsis_chunks = map Z.of_nat (seq 0 (length ellipsis_chunks)).
Proof.
  split; [vm_compute; reflexivity|].
  apply (index_contiguity 20 ellipsis_text ellipsis_chunks). vm_compute. reflexivity.
Defined.

(** C2. Chunking coverage does not hold: with 20 characters a chunk,
    the text "Wait. ... what is going on here?" is its own normal form,
    and the three chunks returned hold "Wait.", "what is going on" and
    "here?": the ending "..." that follows an empty sentence is in no
    chunk. *)
Theorem coverage_loses_ending :
  _preprocess_text ellipsis_text = ellipsis_text /\
  split_text 20 ellipsis_text = Ok ellipsis_chunks /\
  content ellipsis_chunks = of_string "Wait.whatisgoingonhere?" /\
  non_space (_preprocess_text ellipsis_text) = of_string "Wait....whatisgoingonhere?" /\
  content ellipsis_chunks <> non_space (_preprocess_text ellipsis_text).
Proof.
  repeat split; try (vm_compute; reflexivity).
  vm_compute. discriminate.
Qed.

End TextFacts.

(** ** Properties of the token manager *)

Module AuthFacts.

Import Auth AuthSpec.

#[local] Opaque Qplus Qmult Qminus Qdiv Qpower Qfloor Qle_bool Z.mul Z.add of_string.

Ltac run :=
  unfold get_iam_token, fetch_iam_token, cached_token_usable, _is_token_expired,
    _create_jwt_token, _exchange_jwt_for_iam, update_token_manager, datetime_now,
    time_time, bind, ret, raise, try_except, get_state, modify, lift in *.

(** The test of the cache reads the clock at most once and changes
    nothing else. *)
Lemma cached_token_usable_spec (env : Env) (force_refresh : bool) (s : State) :
  exists b s',
    cached_token_usable env force_refresh s = (Ok b, s') /\
    token_manager s' = token_manager s /\ trace s' = trace s /\
    b = negb force_refresh && json_truthy (iam_token (token_manager s))
        && match token_expires_at (token_manager s) with
           | Some expires_at => (datetime_read env s + buffer_time <? expires_at)%Z
           | None => false
           end.
Proof.
  run. unfold datetime_read.
  destruct (negb force_refresh && json_truthy (iam_token (token_manager s))); cbn.
  - destruct (token_expires_at (token_manager s)) as [expires_at|]; cbn.
    + do 2 eexists. repeat split.
      symmetry. apply Z.ltb_antisym.
    + do 2 eexists. repeat split.
  - do 2 eexists. repeat split.
Qed.

(** A fetch makes at most one exchange; when it raises, the token manager
    is as it was; it raises when the exchange fails. *)
Lemma fetch_iam_token_spec (env : Env) (s : State) :
  match fetch_iam_token env s with
  | (Ok _, s') =>
      exists url jwt answer,
        trace s' = EvPost url jwt answer :: trace s /\ exchange_fails answer = false
  | (Err _, s') =>
      token_manager s' = token_manager s /\
      (trace s' = trace s \/
       exists url jwt answer,
         trace s' = EvPost url jwt answer :: trace s /\ exchange_fails answer = true)
  end.
Proof.
  run. unfold exchange_fails.
  destruct (key_data (token_manager s)) as [key|]; cbn; [|auto].
  destruct (jwt_encode env _ _ _ _) as [jwt|e]; cbn; [|auto].
  destruct (requests_post env _ _ _) as [msg|status body] eqn:Hpost; cbn.
  { split; [reflexivity|]. right. do 3 eexists. split; reflexivity. }
  destruct (is_error_status status) eqn:Hstatus; cbn.
  { split; [reflexivity|]. right. do 3 eexists. split; [reflexivity|].
    cbn. now rewrite Hstatus. }
  destruct body as [j|]; cbn.
  2:{ split; [reflexivity|]. right. do 3 eexists. split; [reflexivity|].
      cbn. now rewrite Hstatus. }
  destruct (subscript j (of_string "iamToken")) as [token|e] eqn:Hsub; cbn.
  2:{ split; [reflexivity|]. right. do 3 eexists. split; [reflexivity|].
      cbn. now rewrite Hstatus, Hsub. }
  destruct (json_truthy (get j (of_string "expiresAt"))); cbn;
    [destruct (parse_expires_at env _); cbn|];
    do 3 eexists; (split; [reflexivity|]); cbn; now rewrite Hstatus, Hsub.
Qed.

(** With a key that signs, a fetch makes exactly one exchange. *)
Lemma fetch_iam_token_posts (env : Env) (s : State) :
  key_data (token_manager s) <> None -> signing_works env ->
  posts (trace (snd (fetch_iam_token env s))) = S (posts (trace s)).
Proof.
  intros Hkey Hsign. run.
  destruct (key_data (token_manager s)) as [key|]; [|congruence]. cbn.
  match goal with
  | |- context [jwt_encode env ?k ?p ?pk ?h] => destruct (Hsign k p pk h) as [jwt ->]
  end. cbn.
  destruct (requests_post env _ _ _) as [msg|status body]; cbn; [reflexivity|].
  destruct (is_error_status status); cbn; [reflexivity|].
  destruct body as [j|]; cbn; [|reflexivity].
  destruct (subscript j (of_string "iamToken")) as [token|e]; cbn; [|reflexivity].
  destruct (json_truthy (get j (of_string "expiresAt"))); cbn;
    [destruct (parse_expires_at env _); cbn|]; reflexivity.
Qed.

(** The two ways of [get_iam_token]: the cached token, or a fetch from
    a state that differs from [s] by a clock reading at most. *)
Lemma get_iam_token_cases (env : Env) (force_refresh : bool) (s : State) :
  exists s',
    token_manager s' = token_manager s /\ trace s' = trace s /\
    get_iam_token env force_refresh s =
      if negb force_refresh && json_truthy (iam_token (token_manager s))
         && match token_expires_at (token_manager s) with
            | Some expires_at => (datetime_read env s + buffer_time <? expires_at)%Z
            | None => false
            end
      then (Ok (iam_token (token_manager s)), s')
      else try_except (fetch_iam_token env)
             (fun e => raise (YandexAuthError IamToken (Some e))) s'.
Proof.
  destruct (cached_token_usable_spec env force_refresh s) as (b & s' & Hrun & Htm & Htr & Hb).
  exists s'. repeat split; auto.
  unfold get_iam_token, bind at 1. rewrite Hrun, <- Hb.
  destruct b; [|reflexivity].
  unfold bind, get_state, ret. now rewrite Htm.
Qed.

Lemma trace_grows_not (ev : event) (tr : list event) : tr <> ev :: tr.
Proof.
  intros H. apply (f_equal (@length _)) in H. simpl in H. lia.
Qed.

(** C7. Token reuse: with a cached token, a call of [get_iam_token]
    without [force_refresh] made while now + 10 minutes is before the
    expiry returns the cached token, keeps the token manager and makes
    no exchange; a second call made in the same conditions returns the
    same value, again without exchange.  A call made when now + 10
    minutes has reached the expiry makes exactly one exchange (the key
    being one that signs). *)
Theorem token_reuse (env : Env) (s : State) (expires_at : Z) :
  json_truthy (iam_token (token_manager s)) = true ->
  token_expires_at (token_manager s) = Some expires_at ->
  key_data (token_manager s) <> None ->
  signing_works env ->
  let first := get_iam_token env false s in
  let second := get_iam_token env false (snd first) in
  if (datetime_read env s + buffer_time <? expires_at)%Z then
    fst first = Ok (iam_token (token_manager s)) /\
    token_manager (snd first) = token_manager s /\
    posts (trace (snd first)) = posts (trace s) /\
    (if (datetime_read env (snd first) + buffer_time <? expires_at)%Z then
       fst second = fst first /\
       token_manager (snd second) = token_manager s /\
       posts (trace (snd second)) = posts (trace s)
     else posts (trace (snd second)) = S (posts (trace (snd first))))
  else posts (trace (snd first)) = S (posts (trace s)).
Proof.
  intros Htoken Hexp Hkey Hsign first second.
  assert (Hcall : forall s0,
    token_manager s0 = token_manager s ->
    let r := get_iam_token env false s0 in
    if (datetime_read env s0 + buffer_time <? expires_at)%Z then
      fst r = Ok (iam_token (token_manager s)) /\
      token_manager (snd r) = token_manager s /\
      posts (trace (snd r)) = posts (trace s0)
    else posts (trace (snd r)) = S (posts (trace s0))).
  { intros s0 Hs0 r. subst r.
    destruct (get_iam_token_cases env false s0) as (s' & Htm & Htr & ->).
    rewrite Hs0, Htoken, Hexp. cbn [negb andb].
    destruct (datetime_read env s0 + buffer_time <? expires_at)%Z; cbn [fst snd].
    - rewrite Htm, Htr. auto.
    - unfold try_except, raise.
      pose proof (fetch_iam_token_posts env s') as Hposts.
      rewrite Htm, Hs0, Htr in Hposts. specialize (Hposts Hkey Hsign).
      destruct (fetch_iam_token env s') as [[v|e] s'']; exact Hposts. }
  pose proof (Hcall s eq_refl) as H1. cbv zeta in H1. fold first in H1.
  destruct (datetime_read env s + buffer_time <? expires_at)%Z; [|exact H1].
  destruct H1 as (Hr1 & Htm1 & Hp1). repeat split; auto.
  pose proof (Hcall (snd first) Htm1) as H2. cbv zeta in H2. fold second in H2.
  destruct (datetime_read env (snd first) + buffer_time <? expires_at)%Z; [|exact H2].
  destruct H2 as (Hr2 & Htm2 & Hp2). repeat split; congruence.
Qed.

(** An instance: a token that expires an hour from now is returned
    twice without exchange; one that expires in five minutes is fetched
    anew, with one exchange. *)
Lemma token_reuse_witness :
  (let s := Demo.state Demo.cached (Some 4600000000%Z) in
   let env := Demo.world 1 (Response 200 (Some (Demo.token_body "fresh-token")))
                Demo.always_ok in
   let first := get_iam_token env false s in
   let second := get_iam_token env false (snd first) in
   fst first = Ok Demo.cached /\ fst second = Ok Demo.cached /\
   posts (trace (snd second)) = 0) /\
  (let s := Demo.state Demo.cached (Some 1300000000%Z) in
   let env := Demo.world 1 (Response 200 (Some (Demo.token_body "fresh-token")))
                Demo.always_ok in
   posts (trace (snd (get_iam_token env false s))) = 1).
Proof.
  assert (Hsign : forall seconds post synth,
             signing_works (Demo.world seconds post synth)).
  { intros seconds post synth k payload key headers. eexists. reflexivity. }
  split.
  - pose proof (token_reuse
                  (Demo.world 1 (Response 200 (Some (Demo.token_body "fresh-token")))
                     Demo.always_ok)
                  (Demo.state Demo.cached (Some 4600000000%Z)) 4600000000%Z
                  eq_refl eq_refl ltac:(discriminate) (Hsign _ _ _)) as H.
    vm_compute in H. vm_compute. intuition congruence.
  - pose proof (token_reuse
                  (Demo.world 1 (Response 200 (Some (Demo.token_body "fresh-token")))
                     Demo.always_ok)
                  (Demo.state Demo.cached (Some 1300000000%Z)) 1300000000%Z
                  eq_refl eq_refl ltac:(discriminate) (Hsign _ _ _)) as H.
    vm_compute in H. vm_compute. exact H.
Defined.

(** C8, as the code has it.  An exchange that raises keeps the cache:
    when the exchange that a call of [get_iam_token] makes fails for
    the code (no answer, a status from 400 to 599, a body that is not
    JSON or that has no key [iamToken]), the call raises
    [YandexAuthError] and the token manager, cached token and expiry,
    is as it was before the call. *)
Theorem failed_exchange_keeps_token (env : Env) (force_refresh : bool) (s : State)
  (url jwt : str) (answer : http_outcome) :
  trace (snd (get_iam_token env force_refresh s)) = EvPost url jwt answer :: trace s ->
  exchange_fails answer = true ->
  (exists cause,
     fst (get_iam_token env force_refresh s) = Err (YandexAuthError IamToken (Some cause))) /\
  token_manager (snd (get_iam_token env force_refresh s)) = token_manager s.
Proof.
  destruct (get_iam_token_cases env force_refresh s) as (s' & Htm & Htr & ->).
  destruct (_ && _ && _); cbn [fst snd].
  - rewrite Htr. intros H. exfalso. exact (trace_grows_not _ _ H).
  - unfold try_except, raise.
    pose proof (fetch_iam_token_spec env s') as Hspec.
    destruct (fetch_iam_token env s') as [[v|e] s'']; cbn [fst snd].
    + destruct Hspec as (url' & jwt' & answer' & Htrace & Hok).
      rewrite Htrace, Htr. intros [= _ _ <-]. congruence.
    + destruct Hspec as [Htm' _]. intros _ _. split; [eauto|congruence].
Qed.

(** An instance: the endpoint answers 503 to a forced refresh. *)
Lemma failed_exchange_keeps_token_witness :
  let s := Demo.state Demo.cached (Some 4600000000%Z) in
  let env := Demo.world 1 (Response 503 None) Demo.always_ok in
  (exists cause,
     fst (get_iam_token env true s) = Err (YandexAuthError IamToken (Some cause))) /\
  token_manager (snd (get_iam_token env true s)) = token_manager s.
Proof.
  exact (failed_exchange_keeps_token
           (Demo.world 1 (Response 503 None) Demo.always_ok) true
           (Demo.state Demo.cached (Some 4600000000%Z))
           iam_url (of_string "jwt") (Response 503 None) eq_refl eq_refl).
Defined.

(** What the code does not take for a failure.  An answer with a
    status that is not of the 2xx, a redirect here, is taken for a
    success when its body holds a token, and so is an answer that is
    malformed, its token being null: the call returns the value of the
    answer, and the cached token and its expiry are overwritten. *)
Lemma failed_exchange_keeps_token_counterexample :
  let s := Demo.state Demo.cached (Some 4600000000%Z) in
  (let env := Demo.world 1 (Response 302 (Some (Demo.token_body "other-token")))
                Demo.always_ok in
   fst (get_iam_token env true s) = Ok (JStr (of_string "other-token")) /\
   iam_token (token_manager (snd (get_iam_token env true s)))
   = JStr (of_string "other-token") /\
   token_expires_at (token_manager (snd (get_iam_token env true s)))
   <> token_expires_at (token_manager s)) /\
  (let env := Demo.world 1 (Response 200 (Some (JDict [(of_string "iamToken", JNull)])))
                Demo.always_ok in
   fst (get_iam_token env true s) = Ok JNull /\
   iam_token (token_manager (snd (get_iam_token env true s))) = JNull /\
   token_expires_at (token_manager (snd (get_iam_token env true s)))
   <> token_expires_at (token_manager s)).
Proof. vm_compute. repeat split; reflexivity || discriminate. Qed.

End AuthFacts.

(** ** Properties of the rate limiter *)

Module LimiterFacts.

Import Synthesizer SynthSpec PacingSpec.

Lemma Qlt_bool_iff (a b : Q) : Qlt_bool a b = true <-> (a < b)%Q.
Proof.
  unfold Qlt_bool. rewrite negb_true_iff.
  split.
  - intros H. apply Qnot_le_lt. intros Hle. apply Qle_bool_iff in Hle. congruence.
  - intros H. destruct (Qle_bool b a) eqn:E; [|reflexivity].
    apply Qle_bool_iff in E. exfalso. apply (Qlt_not_le _ _ H E).
Qed.

(** [RateLimiter.__init__] sets the interval to 1 / requests_per_second,
    and no grant is recorded yet. *)
Lemma RateLimiter_init_spec (rps : Q) (self : RateLimiter) :
  RateLimiter_init rps = Ok self ->
  requests_per_second self = rps /\
  min_interval self = (1 / rps)%Q /\
  last_request_time self = 0%Q.
Proof.
  unfold RateLimiter_init. destruct (Qeq_bool rps 0); [discriminate|].
  intros [= <-]. repeat split.
Qed.

(** In an arithmetic that is exact the limiter is the one the
    synthesizer runs. *)
Lemma wait_if_needed_exact (env : Env) :
  Rounded.wait_if_needed (fun q => q) env = wait_if_needed env.
Proof. reflexivity. Qed.

(** The rounding of the floats makes nothing positive negative. *)
Lemma nearest_even_nonneg (x : Q) : (0 <= x)%Q -> (0 <= Binary64.nearest_even x)%Z.
Proof.
  intros Hx. unfold Binary64.nearest_even. cbv zeta.
  assert (Hf : (0 <= Qfloor x)%Z) by (apply (Qfloor_resp_le 0 x Hx)).
  destruct (_ ?= _)%Q; [destruct (Z.even _)| |]; lia.
Qed.

Lemma round_positive_nonneg (q : Q) : (0 < q)%Q -> (0 <= Binary64.round_positive q)%Q.
Proof.
  intros Hq. unfold Binary64.round_positive.
  assert (Hulp : (0 < Binary64.ulp q)%Q) by (apply Qpower_0_lt; reflexivity).
  apply Qmult_le_0_compat; [|now apply Qlt_le_weak].
  change 0%Q with (inject_Z 0). rewrite <- Zle_Qle. apply nearest_even_nonneg.
  apply Qmult_le_0_compat; [now apply Qlt_le_weak|].
  apply Qinv_le_0_compat. now apply Qlt_le_weak.
Qed.

Lemma round64_keeps_sign : keeps_sign Binary64.round64.
Proof.
  intros q Hq. unfold Binary64.round64.
  destruct q as [n d]. unfold Qlt in Hq. cbn in Hq. cbn [Qnum].
  destruct n as [|n|n]; try lia.
  apply round_positive_nonneg. unfold Qlt. cbn. lia.
Qed.

(** One call of the limiter, in any arithmetic. *)
Lemma wait_if_needed_granted (rnd : Q -> Q) (env : Env) (s : State) :
  clock_never_goes_back env -> keeps_sign rnd ->
  granted rnd env s (Rounded.wait_if_needed rnd env s).
Proof.
  intros Hclock Hsign.
  unfold granted, too_early, sleep_time, time_since_last, first_time.
  unfold Rounded.wait_if_needed, Rounded.time_time, time_time, time_sleep, bind, ret,
    get_state, modify.
  cbn [outside clock ticks trace rate_limiter fst snd].
  pose proof (Hclock (ticks s)) as H0.
  destruct (Qlt_bool _ _) eqn:Hlt.
  - apply Qlt_bool_iff in Hlt.
    match goal with |- context [Qle_bool 0 (rnd ?d)] =>
      assert (Hd : Qle_bool 0 (rnd d) = true)
        by (apply Qle_bool_iff, Hsign; lra);
      rewrite Hd; apply Qle_bool_iff in Hd
    end.
    cbn [outside clock ticks trace rate_limiter fst snd set_rate_limiter
         set_last_request_time last_request_time min_interval requests_per_second].
    pose proof (Hclock (S (ticks s))) as H1.
    pose proof (Hclock (S (S (ticks s)))) as H2.
    repeat split; try reflexivity. lra.
  - cbn [outside clock ticks trace rate_limiter fst snd set_rate_limiter
         set_last_request_time last_request_time min_interval requests_per_second].
    pose proof (Hclock (S (ticks s))) as H1.
    repeat split; try reflexivity. lra.
Qed.

(** C6, as the code has it.  Pacing: a call of [wait_if_needed] returns,
    sleeps once when the time since the last grant, as it computes it,
    is below [min_interval], for [min_interval] less that time, and
    not at all otherwise; the grant it records is the reading of the
    clock made when it returns, the sleep at least after the time it
    first read; this in every arithmetic, that of the floats of the
    source among them, on a clock that never goes back.  When the
    arithmetic is exact, in every sequence of calls, whatever happens
    between the calls, two successive grants, and the grant before the
    first call and the first grant, are at least
    1 / requests_per_second apart. *)
Theorem pacing (rnd : Q -> Q) (env : Env) :
  clock_never_goes_back env ->
  keeps_sign rnd ->
  (forall s, granted rnd env s (Rounded.wait_if_needed rnd env s)) /\
  (exact rnd ->
   forall interludes s,
     Forall keeps_limiter interludes ->
     (min_interval (rate_limiter s) == 1 / requests_per_second (rate_limiter s))%Q ->
     (last_request_time (rate_limiter s) <= clock s)%Q ->
     spaced (1 / requests_per_second (rate_limiter s))
            (last_request_time (rate_limiter s) :: grants rnd env interludes s)).
Proof.
  intros Hclock Hsign.
  split; [intros s; now apply wait_if_needed_granted|].
  intros Hexact interludes s Hkeep. revert s.
  induction Hkeep as [|f rest Hf Hrest IH]; intros s Hmin Hlast.
  - simpl. auto.
  - destruct (Hf s) as [Hrl Hck].
    pose proof (wait_if_needed_granted rnd env (f s) Hclock Hsign)
      as (_ & Hrps & Hmi & Hnow & Hrun).
    cbn [grants]. set (s' := snd (Rounded.wait_if_needed rnd env (f s))) in *.
    rewrite Hexact in Hnow.
    assert (Hgap : (last_request_time (rate_limiter s) + min_interval (rate_limiter s)
                    <= clock s')%Q).
    { pose proof (Hclock (ticks (f s))) as H0.
      unfold too_early, sleep_time, time_since_last, first_time in Hrun.
      rewrite !Hexact, Hrl in Hrun.
      destruct (Qlt_bool _ _) eqn:Hlt.
      - destruct Hrun as [_ Hrun]. lra.
      - destruct Hrun as [_ Hrun].
        assert (Hge : ~ (clock (outside env 0 [] (f s)) - last_request_time (rate_limiter s)
                         < min_interval (rate_limiter s))%Q).
        { intros H. apply Qlt_bool_iff in H. congruence. }
        apply Qnot_lt_le in Hge. lra. }
    specialize (IH s'). rewrite Hrps, Hmi, Hnow, Hrl in IH.
    change (spaced ?g (?a :: ?b :: ?l))
      with ((a + g <= b)%Q /\ spaced g (b :: l)).
    split.
    + rewrite <- Hmin, Hnow. exact Hgap.
    + rewrite Hnow. apply IH; [exact Hmin|apply Qle_refl].
Qed.

(** An instance in the floats of the source: the second of two calls
    in a row sleeps for [min_interval] and records the reading of the
    clock at which it returns; and one in exact arithmetic: three
    calls in a row at 35 requests a second. *)
Lemma pacing_witness :
  (let env := example_world Demo.always_ok in
   let first := snd (Rounded.wait_if_needed Binary64.round64 env epoch_state) in
   granted Binary64.round64 env first (Rounded.wait_if_needed Binary64.round64 env first)) /\
  spaced (1 / 35)
    (0%Q :: grants (fun q => q) (example_world Demo.always_ok)
              [no_interlude; no_interlude; no_interlude] example_state).
Proof.
  assert (Hclock : clock_never_goes_back (example_world Demo.always_ok)).
  { intros k. simpl. apply Qle_refl. }
  split.
  - cbv zeta.
    apply (proj1 (pacing Binary64.round64 (example_world Demo.always_ok) Hclock
                    round64_keeps_sign)).
  - destruct (pacing (fun q => q) (example_world Demo.always_ok) Hclock) as [_ Hspaced].
    + intros q Hq. now apply Qlt_le_weak.
    + apply (Hspaced (fun q => eq_refl)
               [no_interlude; no_interlude; no_interlude] example_state).
      * repeat (constructor; [intros s; split; [reflexivity|apply Qle_refl]|]).
        constructor.
      * vm_compute. reflexivity.
      * vm_compute. discriminate.
Defined.

(** In the floats of the source two grants can be recorded less than
    [min_interval] apart.  At second 1 700 000 000 of the epoch, with
    35 requests a second and calls that take no time, the second of two
    calls in a row sleeps for [min_interval], and the clock is then at
    1 700 000 000 + [min_interval]; the float nearest to that time is
    1 700 000 000 + 119837 / 2 ^ 22, the floats being 2 ^ -22 apart
    there, and this is the grant recorded: it is less than
    [min_interval], and less than 1 / 35, after the grant before. *)
Lemma pacing_counterexample :
  let env := example_world Demo.always_ok in
  let first := snd (Rounded.wait_if_needed Binary64.round64 env epoch_state) in
  let second := snd (Rounded.wait_if_needed Binary64.round64 env first) in
  fst (Rounded.wait_if_needed Binary64.round64 env first) = Ok tt /\
  trace second = [EvSleep (min_interval (rate_limiter epoch_state))] /\
  (last_request_time (rate_limiter first) == 1700000000)%Q /\
  (last_request_time (rate_limiter second) == 1700000000 + (119837 # 4194304))%Q /\
  (last_request_time (rate_limiter second) - last_request_time (rate_limiter first)
   < min_interval (rate_limiter epoch_state))%Q /\
  (last_request_time (rate_limiter second) - last_request_time (rate_limiter first)
   < 1 / requests_per_second (rate_limiter epoch_state))%Q.
Proof. vm_compute. repeat split; reflexivity || discriminate. Qed.

End LimiterFacts.

(** ** Properties of the synthesis loop *)

Module SynthFacts.

Import Synthesizer SynthSpec.

#[local] Opaque Qplus Qmult Qminus Qdiv Qpower Qle_bool of_string.

Lemma quiet_refl (s : State) : quiet s s.
Proof. exists []. auto. Qed.

Lemma quiet_trans (s1 s2 s3 : State) : quiet s1 s2 -> quiet s2 s3 -> quiet s1 s3.
Proof.
  intros (a & Ha & Hqa) (b & Hb & Hqb). exists (b ++ a). split.
  - now rewrite Hb, Ha, app_assoc.
  - now rewrite forallb_app, Hqa, Hqb.
Qed.

Lemma quiet_same_trace (s s' : State) : trace s' = trace s -> quiet s s'.
Proof. intros H. exists []. auto. Qed.

Lemma quiet_outside (env : Env) (seconds : Q) (evs : list event) (s : State) :
  forallb (fun ev => negb (is_synthesize ev)) evs = true ->
  quiet s (outside env seconds evs s).
Proof. intros H. exists evs. auto. Qed.

Lemma quiet_synth_calls (s s' : State) :
  quiet s s' -> synth_calls (trace s') = synth_calls (trace s).
Proof.
  intros (added & -> & Hq). unfold synth_calls.
  rewrite filter_app, length_app.
  replace (filter is_synthesize added) with (@nil event); [reflexivity|].
  induction added as [|ev added IH]; [reflexivity|].
  simpl in *. apply andb_prop in Hq as [Hev Hq].
  apply negb_true_iff in Hev. rewrite Hev. auto.
Qed.


(** The limiter always returns, and calls nothing but the clock. *)
Lemma wait_if_needed_quiet (env : Env) (s : State) :
  exists s', wait_if_needed env s = (Ok tt, s') /\ quiet s s'.
Proof.
  unfold wait_if_needed, time_time, time_sleep, bind, ret, get_state, modify.
  cbn [outside clock ticks rate_limiter fst snd].
  destruct (Qlt_bool _ _) eqn:Hlt.
  - apply LimiterFacts.Qlt_bool_iff in Hlt.
    match goal with |- context [Qle_bool 0 ?d] =>
      assert (Hd : Qle_bool 0 d = true) by (apply Qle_bool_iff; lra); rewrite Hd
    end.
    eexists. split; [reflexivity|].
    exists [EvSleep (min_interval (rate_limiter s)
                     - (clock s + 0 + elapse env (ticks s)
                        - last_request_time (rate_limiter s)))].
    split; reflexivity.
  - eexists. split; [reflexivity|]. now apply quiet_same_trace.
Qed.

Lemma time_sleep_quiet (env : Env) (seconds : Q) (s : State) :
  (0 <= seconds)%Q ->
  exists s', time_sleep env seconds s = (Ok tt, s') /\ quiet s s'.
Proof.
  intros H. unfold time_sleep. apply Qle_bool_iff in H. rewrite H.
  eexists. split; [reflexivity|]. now apply quiet_outside.
Qed.

(** When a sleep raises, nothing has happened. *)
Lemma time_sleep_any (env : Env) (seconds : Q) (s : State) :
  quiet s (snd (time_sleep env seconds s)).
Proof.
  unfold time_sleep. destruct (Qle_bool 0 seconds); cbn [snd].
  - now apply quiet_outside.
  - apply quiet_refl.
Qed.

Lemma get_iam_token_quiet (env : Env) (force_refresh : bool) (s : State) :
  quiet s (snd (Auth.get_iam_token env force_refresh s)).
Proof.
  destruct (AuthFacts.get_iam_token_cases env force_refresh s) as (s' & _ & Htr & ->).
  destruct (_ && _ && _); cbn [snd]; [now apply quiet_same_trace|].
  apply (quiet_trans _ s'); [now apply quiet_same_trace|].
  unfold try_except, raise.
  pose proof (AuthFacts.fetch_iam_token_spec env s') as Hspec.
  destruct (Auth.fetch_iam_token env s') as [[v|e] s'']; cbn [snd].
  - destruct Hspec as (url & jwt & answer & Htrace & _).
    exists [EvPost url jwt answer]. auto.
  - destruct Hspec as [_ [Htrace|(url & jwt & answer & Htrace & _)]].
    + now apply quiet_same_trace.
    + exists [EvPost url jwt answer]. auto.
Qed.

(** The refresh between two attempts, whose failure is swallowed. *)
Lemma refresh_quiet (env : Env) (s : State) :
  exists s', try_except (_refresh_credentials env) (fun _ => ret tt) s = (Ok tt, s') /\
             quiet s s'.
Proof.
  unfold try_except, _refresh_credentials, Auth.refresh_token, bind at 1.
  pose proof (get_iam_token_quiet env true s) as Hq.
  destruct (Auth.get_iam_token env true s) as [[token|e] s1]; cbn [snd] in Hq.
  - unfold sdk_configure, outside_call, bind, lift, ret.
    destruct (configure_credentials env (ticks s1) token) as [[]|e];
      (eexists; split; [reflexivity|]);
      (eapply quiet_trans; [exact Hq|now apply quiet_outside]).
  - unfold ret. eexists. split; [reflexivity|exact Hq].
Qed.

Lemma add_request_stats_run (success : bool) (error : option exn) (s : State) :
  exists s', add_request_stats success error s = (Ok tt, s') /\ trace s' = trace s.
Proof. unfold add_request_stats, modify. eexists. split; reflexivity. Qed.

(** One attempt calls the synthesis function once, whatever comes of it;
    when it succeeds the chunk is marked with the path it returns. *)
Lemma attempt_spec (env : Env) (chunk : TextChunk.t) (clean_text output_path : str)
  (s : State) :
  exists s1 answer,
    quiet s s1 /\
    answer = model_synthesize env (ticks s1) clean_text /\
    let s2 := outside env 0%Q [EvSynthesize clean_text answer] s1 in
    match attempt env chunk clean_text output_path s with
    | (Ok r, s') =>
        answer = Ok tt /\
        r = (mark_processed chunk output_path, Some output_path) /\ quiet s2 s'
    | (Err e, s') =>
        quiet s2 s' /\ (forall e', answer = Err e' -> e = e')
    end.
Proof.
  unfold attempt. unfold bind at 1.
  destruct (wait_if_needed_quiet env s) as (s1 & -> & Hq1).
  exists s1, (model_synthesize env (ticks s1) clean_text).
  split; [exact Hq1|]. split; [reflexivity|]. cbv zeta.
  unfold sdk_synthesize, export_wav, path_exists, outside_call, bind, lift, ret, raise.
  destruct (model_synthesize env (ticks s1) clean_text) as [[]|e].
  2:{ split; [apply quiet_refl|]. now intros e' [= ->]. }
  set (s2 := outside env 0 [EvSynthesize clean_text (Ok tt)] s1).
  destruct (result_export env (ticks s2) output_path) as [[]|e].
  2:{ split; [now apply quiet_outside|]. discriminate. }
  set (s3 := outside env 0 [EvExport output_path (Ok tt)] s2).
  assert (Hq3 : quiet s2 (outside env 0 [] s3)).
  { apply (quiet_trans _ s3); now apply quiet_outside. }
  destruct (os_path_exists env (ticks s3) output_path); cbn [negb].
  - unfold add_request_stats, modify. split; [reflexivity|]. split; [reflexivity|].
    eapply quiet_trans; [exact Hq3|]. now apply quiet_same_trace.
  - split; [exact Hq3|]. discriminate.
Qed.



(** One turn of the retry loop: the attempt, then what the handler does
    with its exception. *)
Lemma attempts_loop_step (env : Env) (self : SpeechSynthesizer) (chunk : TextChunk.t)
  (clean_text output_path : str) (attempt_no : Z) (rest : list Z) (s : State) :
  let run := attempt env chunk clean_text output_path s in
  let loop := attempts_loop env self chunk clean_text output_path in
  match fst run with
  | Ok r => loop (attempt_no :: rest) s = (Ok r, snd run)
  | Err e =>
      exists s', quiet (snd run) s' /\
        loop (attempt_no :: rest) s =
          if (attempt_no <? max_retries self - 1)%Z then
            if Qle_bool 0 (retry_delay self * 2 ^ attempt_no) then loop rest s'
            else (Err ValueError, s')
          else (Err (SynthesizerError
                       (RetriesExhausted (TextChunk.index chunk) (max_retries self))
                       (Some e)), s')
  end.
Proof.
  cbv zeta.
  destruct (attempt env chunk clean_text output_path s) as [[r|e] s1] eqn:Hrun;
    cbn [fst snd attempts_loop]; unfold try_except at 1; rewrite Hrun; [reflexivity|].
  unfold bind at 1.
  destruct (add_request_stats_run false (Some e) s1) as (s2 & -> & Htr).
  destruct (attempt_no <? max_retries self - 1)%Z.
  - unfold bind at 1. unfold time_sleep at 1.
    destruct (Qle_bool 0 (retry_delay self * 2 ^ attempt_no)).
    + unfold bind at 1.
      destruct (refresh_quiet env (outside env (retry_delay self * 2 ^ attempt_no)
                  [EvSleep (retry_delay self * 2 ^ attempt_no)] s2)) as (s4 & -> & Hq).
      exists s4. split; [|reflexivity].
      apply (quiet_trans _ s2); [now apply quiet_same_trace|].
      eapply quiet_trans; [|exact Hq]. now apply quiet_outside.
    + exists s2. split; [now apply quiet_same_trace|reflexivity].
  - exists s2. split; [now apply quiet_same_trace|reflexivity].
Qed.


(** What the loop returns when it returns: the chunk marked with the
    path, or, the range exhausted, the chunk as it was and [None]. *)
Lemma attempts_loop_ok (env : Env) (self : SpeechSynthesizer) (chunk : TextChunk.t)
  (clean_text output_path : str) (attempts : list Z) : forall s r s',
  attempts_loop env self chunk clean_text output_path attempts s = (Ok r, s') ->
  r = (mark_processed chunk output_path, Some output_path) \/ r = (chunk, None).
Proof.
  induction attempts as [|attempt_no rest IH]; intros s r s' H.
  - injection H as <- _. now right.
  - pose proof (attempts_loop_step env self chunk clean_text output_path attempt_no rest s)
      as Hstep.
    pose proof (attempt_spec env chunk clean_text output_path s)
      as (s1 & answer & _ & _ & Hspec).
    cbv zeta in Hstep, Hspec.
    destruct (attempt env chunk clean_text output_path s) as [[r0|e] s0]; cbn [fst snd] in *.
    + rewrite Hstep in H. injection H as <- _. left. tauto.
    + destruct Hstep as (s2 & _ & Hloop). rewrite Hloop in H.
      destruct (attempt_no <? max_retries self - 1)%Z;
        [destruct (Qle_bool 0 (retry_delay self * 2 ^ attempt_no))|];
        try discriminate.
      eapply IH; eauto.
Qed.

(** The last attempt of the range [range(max_retries)] raises when it
    fails: the loop does not fall through. *)
Lemma attempts_loop_range (env : Env) (self : SpeechSynthesizer) (chunk : TextChunk.t)
  (clean_text output_path : str) (m : nat) : forall a s r s',
  (0 < m)%nat -> Z.of_nat (a + m) = max_retries self ->
  attempts_loop env self chunk clean_text output_path (map Z.of_nat (seq a m)) s
    = (Ok r, s') ->
  r = (mark_processed chunk output_path, Some output_path).
Proof.
  induction m as [|m IH]; intros a s r s' Hm Hmax H; [lia|].
  cbn [seq map] in H.
  pose proof (attempts_loop_step env self chunk clean_text output_path
                (Z.of_nat a) (map Z.of_nat (seq (S a) m)) s) as Hstep.
  pose proof (attempt_spec env chunk clean_text output_path s)
    as (s1 & answer & _ & _ & Hspec).
  cbv zeta in Hstep, Hspec.
  destruct (attempt env chunk clean_text output_path s) as [[r0|e] s0]; cbn [fst snd] in *.
  - rewrite Hstep in H. injection H as <- _. tauto.
  - destruct Hstep as (s2 & _ & Hloop). rewrite Hloop in H.
    destruct (Z.ltb_spec (Z.of_nat a) (max_retries self - 1)) as [Hlt|Hge];
      [|discriminate].
    destruct (Qle_bool 0 (retry_delay self * 2 ^ Z.of_nat a)); [|discriminate].
    eapply (IH (S a)); eauto; lia.
Qed.


(** [range(n)] as the loop lemmas take it. *)
Lemma py_range_seq (n : Z) : py_range n = map Z.of_nat (seq 0 (Z.to_nat n)).
Proof. reflexivity. Qed.

(** What [synthesize_chunk] is for a chunk that reaches the retry loop. *)
Lemma synthesize_chunk_pending (env : Env) (self : SpeechSynthesizer)
  (chunk : TextChunk.t) (output_path : option str) (s : State) :
  TextChunk.processed chunk = false ->
  truthy (strip (clean_text_for_synthesis env (TextChunk.text chunk))) = true ->
  synthesize_chunk env self chunk output_path s =
    match output_path with
    | Some p =>
        attempts_loop env self chunk
          (clean_text_for_synthesis env (TextChunk.text chunk)) p
          (py_range (max_retries self)) s
    | None =>
        let answer := mkdir env (ticks s) (temp_dir self) in
        let s1 := outside env 0%Q [EvMkdir (temp_dir self) answer] s in
        match answer with
        | Ok _ =>
            attempts_loop env self chunk
              (clean_text_for_synthesis env (TextChunk.text chunk))
              (chunk_path self chunk) (py_range (max_retries self)) s1
        | Err e => (Err e, s1)
        end
    end.
Proof.
  intros Hp Hclean. unfold synthesize_chunk. rewrite Hp, Hclean. cbn [negb].
  destruct output_path as [p|].
  - reflexivity.
  - cbv [bind ensure_directory outside_call lift ret].
    destruct (mkdir env (ticks s) (temp_dir self)) as [[]|e]; reflexivity.
Qed.




(** C10. Re-synthesis is a no-op: for a chunk whose [processed] flag is
    set, [synthesize_chunk] returns the audio file recorded in the chunk
    and leaves the chunk and the whole state as they are: the rate
    limiter grants no slot and the synthesis function is not called. *)
Theorem resynthesis_is_noop (env : Env) (self : SpeechSynthesizer) (chunk : TextChunk.t)
  (output_path : option str) (s : State) :
  TextChunk.processed chunk = true ->
  synthesize_chunk env self chunk output_path s
    = (Ok (chunk, TextChunk.audio_file chunk), s) /\
  rate_limiter (snd (synthesize_chunk env self chunk output_path s)) = rate_limiter s /\
  trace (snd (synthesize_chunk env self chunk output_path s)) = trace s.
Proof.
  intros Hp. unfold synthesize_chunk. rewrite Hp. repeat split.
Qed.

Lemma resynthesis_is_noop_witness :
  synthesize_chunk (example_world Demo.always_fails) example_synthesizer
    done_chunk None example_state
  = (Ok (done_chunk, Some (chunk_file "/tmp/chunk_0000.wav")), example_state).
Proof.
  exact (proj1 (resynthesis_is_noop (example_world Demo.always_fails)
                  example_synthesizer done_chunk None example_state eq_refl)).
Defined.

(** *** The loop over the chunks *)

(** The slot the loop appends for an outcome is its [artifact]. *)
Lemma artifact_returned (chunk' : TextChunk.t) (slot : option str) :
  artifact (Ok (chunk', slot)) = slot.
Proof. destruct slot; reflexivity. Qed.

(** The loop never raises; it appends, chunk after chunk, the chunk as
    its call leaves it and the artifact of its outcome. *)
Lemma chunks_loop_spec (env : Env) (self : SpeechSynthesizer)
  (chunks : list TextChunk.t) : forall p s,
  let outs := outcomes env self chunks s in
  chunks_loop env self chunks p s =
    (Ok {| visited := visited p ++ chunks_after chunks outs;
           audio_files := audio_files p ++ map artifact outs;
           successful_chunks :=
             (successful_chunks p + Z.of_nat (length (filter returned outs)))%Z |},
     final_state env self chunks s).
Proof.
  induction chunks as [|chunk rest IH]; intros p s; cbv zeta.
  - cbn. rewrite !app_nil_r, Z.add_0_r. now destruct p.
  - cbn [chunks_loop outcomes final_state chunks_after map filter].
    unfold bind at 1, try_except at 1, bind at 1.
    destruct (synthesize_chunk env self chunk None s) as [[[chunk' slot]|e] s1];
      cbn [fst snd ret returned chunk_after]; rewrite IH; cbn [visited audio_files
        successful_chunks length].
    + rewrite artifact_returned, <- !app_assoc. cbn [app].
      do 3 f_equal. lia.
    + rewrite <- !app_assoc. reflexivity.
Qed.

Lemma outcomes_length (env : Env) (self : SpeechSynthesizer)
  (chunks : list TextChunk.t) : forall s,
  length (outcomes env self chunks s) = length chunks.
Proof.
  induction chunks as [|chunk rest IH]; intros s; [reflexivity|].
  cbn [outcomes length]. now rewrite IH.
Qed.

Lemma valid_audio_files_length (slots : list (option str)) :
  length (valid_audio_files slots) <= length slots.
Proof.
  induction slots as [|[f|] slots IH]; simpl; lia.
Qed.

Lemma valid_audio_files_nil (slots : list (option str)) :
  valid_audio_files slots = [] <-> Forall (fun slot => slot = None) slots.
Proof.
  induction slots as [|[f|] slots IH]; simpl.
  - split; auto.
  - split; [discriminate|]. intros H. inversion H. discriminate.
  - rewrite IH. split; [now constructor|]. intros H. now inversion H.
Qed.

(** What [synthesize_chunks] gives for a list that is not empty. *)
Lemma synthesize_chunks_spec (env : Env) (self : SpeechSynthesizer)
  (chunks : list TextChunk.t) (s : State) :
  chunks <> [] ->
  let outs := outcomes env self chunks (loop_start chunks s) in
  synthesize_chunks env self chunks s =
    (match valid_audio_files (map artifact outs) with
     | [] => Err all_chunks_failed
     | _ :: _ => Ok (chunks_after chunks outs, valid_audio_files (map artifact outs))
     end,
     final_state env self chunks (loop_start chunks s)).
Proof.
  intros Hne. cbv zeta. unfold synthesize_chunks.
  destruct chunks as [|chunk rest]; [congruence|].
  set (chunks := chunk :: rest).
  unfold bind at 1. unfold add_text_stats at 1, modify at 1.
  fold (loop_start chunks s). unfold loop_start at 1.
  unfold add_text_stats, modify. cbn [snd]. fold (loop_start chunks s).
  unfold try_except, bind at 1.
  change (snd (add_text_stats (sum_lengths chunks) (Z.of_nat (length chunks)) s))
    with (loop_start chunks s).
  rewrite chunks_loop_spec. cbn [visited audio_files app].
  destruct (valid_audio_files _); reflexivity.
Qed.

(** When [synthesize_chunk] returns a path, the chunk it leaves holds
    that path; the chunk keeps its text and its index in any case. *)
Lemma synthesize_chunk_ok (env : Env) (self : SpeechSynthesizer) (chunk : TextChunk.t)
  (output_path : option str) (s : State) (chunk' : TextChunk.t) (slot : option str)
  (s' : State) :
  synthesize_chunk env self chunk output_path s = (Ok (chunk', slot), s') ->
  TextChunk.text chunk' = TextChunk.text chunk /\
  TextChunk.index chunk' = TextChunk.index chunk /\
  (forall path, slot = Some path ->
     TextChunk.processed chunk' = true /\ TextChunk.audio_file chunk' = Some path).
Proof.
  unfold synthesize_chunk.
  destruct (TextChunk.processed chunk) eqn:Hp.
  { intros [= <- <- _]. repeat split; auto. }
  destruct (negb _); [discriminate|].
  unfold bind at 1.
  match goal with
  | |- (let (_, _) := ?m in _) = _ -> _ => destruct m as [[p|e] s1]; [|discriminate]
  end.
  intros H. apply attempts_loop_ok in H as [[= -> ->]|[= -> ->]].
  - split; [reflexivity|]. split; [reflexivity|]. now intros path [= <-].
  - split; [reflexivity|]. split; [reflexivity|]. discriminate.
Qed.

(** With at least one try, a well-formed chunk for which
    [synthesize_chunk] returns has its audio file: the chunks that
    succeed are those the loop counts in [successful_chunks]. *)
Lemma synthesize_chunk_ok_artifact (env : Env) (self : SpeechSynthesizer)
  (chunk : TextChunk.t) (output_path : option str) (s : State)
  (r : TextChunk.t * option str) (s' : State) :
  (0 < max_retries self)%Z -> well_formed chunk ->
  synthesize_chunk env self chunk output_path s = (Ok r, s') ->
  artifact (Ok r) <> None.
Proof.
  intros Hmax Hwf. unfold synthesize_chunk.
  destruct (TextChunk.processed chunk) eqn:Hp.
  { intros [= <- _]. rewrite artifact_returned. now apply Hwf. }
  destruct (negb _); [discriminate|].
  unfold bind at 1.
  match goal with
  | |- (let (_, _) := ?m in _) = _ -> _ => destruct m as [[p|e] s1]; [|discriminate]
  end.
  rewrite py_range_seq. intros H.
  apply attempts_loop_range in H; [|lia|lia]. subst r. discriminate.
Qed.

Lemma chunks_after_spec (env : Env) (self : SpeechSynthesizer)
  (chunks : list TextChunk.t) : forall s,
  let outs := outcomes env self chunks s in
  length (chunks_after chunks outs) = length chunks /\
  Forall2 (fun chunk chunk' =>
             TextChunk.text chunk' = TextChunk.text chunk /\
             TextChunk.index chunk' = TextChunk.index chunk)
          chunks (chunks_after chunks outs) /\
  Forall2 (fun chunk' r =>
             forall path, artifact r = Some path ->
               TextChunk.processed chunk' = true /\
               TextChunk.audio_file chunk' = Some path)
          (chunks_after chunks outs) outs.
Proof.
  induction chunks as [|chunk rest IH]; intros s; cbv zeta.
  - cbn. repeat split; constructor.
  - cbn [outcomes chunks_after length].
    destruct (IH (snd (synthesize_chunk env self chunk None s))) as (Hlen & Hsame & Hart).
    split; [now rewrite Hlen|]. cbv zeta in *.
    destruct (synthesize_chunk env self chunk None s) as [[[chunk' slot]|e] s1] eqn:Hrun;
      cbn [fst snd chunk_after] in *.
    + apply synthesize_chunk_ok in Hrun as (Ht & Hi & Hp).
      split; constructor; auto. intros path. rewrite artifact_returned. apply Hp.
    + split; constructor; auto. discriminate.
Qed.

(** C1, as the code has it.  Order preservation: for a list of chunks
    that is not empty, the outcomes of the run are as many as the
    chunks, outcome i being that of chunk i.  What [synthesize_chunks]
    returns is the list of the audio files of these outcomes, in the
    order of the chunks, the chunks without audio file left out: it is
    at most as long as the list of chunks.  The chunks the run leaves are
    as many as the chunks given, each with the text and index it had,
    and each chunk that gave a file is marked processed and holds that
    file.  When no chunk gives a file the run raises. *)
Theorem order_preservation (env : Env) (self : SpeechSynthesizer)
  (chunks : list TextChunk.t) (s : State) :
  chunks <> [] ->
  let outs := outcomes env self chunks (loop_start chunks s) in
  length outs = length chunks /\
  match fst (synthesize_chunks env self chunks s) with
  | Ok (chunks', files) =>
      files = valid_audio_files (map artifact outs) /\
      length files <= length chunks /\
      length chunks' = length chunks /\
      Forall2 (fun chunk chunk' =>
                 TextChunk.text chunk' = TextChunk.text chunk /\
                 TextChunk.index chunk' = TextChunk.index chunk)
              chunks chunks' /\
      Forall2 (fun chunk' r =>
                 forall path, artifact r = Some path ->
                   TextChunk.processed chunk' = true /\
                   TextChunk.audio_file chunk' = Some path)
              chunks' outs
  | Err e => e = all_chunks_failed /\ valid_audio_files (map artifact outs) = []
  end.
Proof.
  intros Hne outs. split; [apply outcomes_length|].
  rewrite (synthesize_chunks_spec env self chunks s Hne). cbn [fst]. fold outs.
  destruct (valid_audio_files (map artifact outs)) as [|f files] eqn:Hvalid.
  - auto.
  - destruct (chunks_after_spec env self chunks (loop_start chunks s))
      as (Hlen & Hsame & Hart).
    fold outs in Hlen, Hsame, Hart. repeat split; auto.
    rewrite <- Hvalid.
    etransitivity; [apply valid_audio_files_length|].
    rewrite length_map. unfold outs. now rewrite outcomes_length.
Qed.

Lemma order_preservation_witness :
  two_chunks <> [] /\
  let outs := outcomes (example_world Demo.fails_on_bad) example_synthesizer
                two_chunks (loop_start two_chunks example_state) in
  length outs = length two_chunks /\
  match fst (synthesize_chunks (example_world Demo.fails_on_bad)
               example_synthesizer two_chunks example_state) with
  | Ok (chunks', files) =>
      files = valid_audio_files (map artifact outs) /\
      length files <= length two_chunks /\
      length chunks' = length two_chunks /\
      Forall2 (fun chunk chunk' =>
                 TextChunk.text chunk' = TextChunk.text chunk /\
                 TextChunk.index chunk' = TextChunk.index chunk)
              two_chunks chunks' /\
      Forall2 (fun chunk' r =>
                 forall path, artifact r = Some path ->
                   TextChunk.processed chunk' = true /\
                   TextChunk.audio_file chunk' = Some path)
              chunks' outs
  | Err e => e = all_chunks_failed /\ valid_audio_files (map artifact outs) = []
  end.
Proof.
  split; [discriminate|].
  apply (order_preservation (example_world Demo.fails_on_bad) example_synthesizer
           two_chunks example_state).
  discriminate.
Defined.

(** C1 as the specification states it does not hold: of two chunks of
    which the second fails at each of its three tries, the run returns
    one audio file, that of the first chunk, not a sequence of two. *)
Lemma order_preservation_counterexample :
  exists chunks',
    fst (synthesize_chunks (example_world Demo.fails_on_bad) example_synthesizer
           two_chunks example_state)
    = Ok (chunks', [chunk_file "/tmp/chunk_0000.wav"]) /\
    length [chunk_file "/tmp/chunk_0000.wav"] <> length two_chunks.
Proof.
  eexists. split; [vm_compute; reflexivity|]. discriminate.
Qed.

(** C9. Whole-run failure: for a list of chunks that is not empty, the
    run raises exactly when no chunk gives an audio file, and the error
    is then the one that says that nothing was synthesized; when at
    least one chunk gives a file, the run returns the files of the
    chunks that gave one, whatever chunks failed. *)
Theorem whole_run_failure (env : Env) (self : SpeechSynthesizer)
  (chunks : list TextChunk.t) (s : State) :
  chunks <> [] ->
  let outs := outcomes env self chunks (loop_start chunks s) in
  let run := fst (synthesize_chunks env self chunks s) in
  ((exists e, run = Err e) <-> Forall (fun r => artifact r = None) outs) /\
  (forall e, run = Err e -> e = all_chunks_failed) /\
  (Exists (fun r => artifact r <> None) outs ->
   exists chunks' files,
     run = Ok (chunks', files) /\
     files = valid_audio_files (map artifact outs) /\ files <> []).
Proof.
  intros Hne outs run. subst run.
  rewrite (synthesize_chunks_spec env self chunks s Hne). cbn [fst]. fold outs.
  pose proof (valid_audio_files_nil (map artifact outs)) as Hnil.
  rewrite Forall_map in Hnil.
  destruct (valid_audio_files (map artifact outs)) as [|f files].
  - split; [|split].
    + split; [intros _; now apply Hnil|eauto].
    + now intros e [= <-].
    + intros Hex. exfalso. apply Exists_exists in Hex as (r & Hin & Hr).
      assert (Hall : Forall (fun r => artifact r = None) outs) by now apply Hnil.
      rewrite Forall_forall in Hall. auto.
  - split; [|split].
    + split; [intros [e He]; discriminate|].
      intros Hall. apply Hnil in Hall. discriminate.
    + discriminate.
    + intros _. do 2 eexists. repeat split. discriminate.
Qed.

(** An instance, the scenario of the specification: five chunks, the
    third fails at each of its three tries, the run returns the four
    files of the others. *)
Lemma whole_run_failure_witness :
  five_chunks <> [] /\
  exists chunks',
    fst (synthesize_chunks (example_world Demo.fails_on_bad) example_synthesizer
           five_chunks example_state)
    = Ok (chunks',
          [chunk_file "/tmp/chunk_0000.wav"; chunk_file "/tmp/chunk_0001.wav";
           chunk_file "/tmp/chunk_0003.wav"; chunk_file "/tmp/chunk_0004.wav"]).
Proof.
  split; [discriminate|].
  destruct (whole_run_failure (example_world Demo.fails_on_bad) example_synthesizer
              five_chunks example_state ltac:(discriminate)) as (_ & _ & H).
  destruct H as (chunks' & files & Hrun & Hfiles & _).
  - apply Exists_cons_hd. vm_compute. discriminate.
  - exists chunks'. rewrite Hrun, Hfiles. vm_compute. reflexivity.
Defined.

(** The same scenario, counted: the synthesis function is called seven
    times, once for each of the four chunks that succeed and three times
    for the one that fails, and that one is left unprocessed. *)
Lemma five_chunks_scenario :
  let run := synthesize_chunks (example_world Demo.fails_on_bad) example_synthesizer
               five_chunks example_state in
  synth_calls (trace (snd run)) = 7 /\
  match fst run with
  | Ok (chunks', _) => map TextChunk.processed chunks' = [true; true; false; true; true]
  | Err _ => False
  end.
Proof. vm_compute. split; reflexivity. Qed.

End SynthFacts.


(** ** Further properties of the chunker *)

Module ChunkerFacts.

Import TextSplitter TextSpec ChunkerSpec TextFacts.

(** *** Whitespace and content *)

Lemma non_space_app (a b : str) : non_space (a ++ b) = non_space a ++ non_space b.
Proof. apply filter_app. Qed.

Lemma non_space_cons (c : char) (s : str) :
  non_space (c :: s) = (if is_space c then [] else [c]) ++ non_space s.
Proof. unfold non_space. simpl. now destruct (is_space c). Qed.

Lemma non_space_rev (s : str) : non_space (rev s) = rev (non_space s).
Proof.
  unfold non_space. induction s as [|c s IH]; [reflexivity|].
  simpl. rewrite filter_app, IH. simpl.
  destruct (negb (is_space c)); simpl; [reflexivity|apply app_nil_r].
Qed.

Lemma non_space_lstrip (s : str) : non_space (lstrip s) = non_space s.
Proof.
  induction s as [|c s IH]; [reflexivity|]. simpl.
  destruct (is_space c) eqn:E; simpl; [exact IH|now rewrite E].
Qed.

Lemma non_space_strip (s : str) : non_space (strip s) = non_space s.
Proof.
  unfold strip, rstrip.
  now rewrite non_space_rev, non_space_lstrip, non_space_rev, rev_involutive,
    non_space_lstrip.
Qed.

Lemma has_ink_non_space (s : str) : has_ink s = truthy (non_space s).
Proof.
  induction s as [|c s IH]; [reflexivity|]. simpl.
  destruct (is_space c); simpl; auto.
Qed.

Lemma non_space_blank (s : str) : has_ink s = false -> non_space s = [].
Proof.
  rewrite has_ink_non_space. now destruct (non_space s).
Qed.

Lemma content_of_app (a b : list str) : content_of (a ++ b) = content_of a ++ content_of b.
Proof. apply flat_map_app. Qed.

Lemma content_of_map_strip (l : list str) : content_of (map strip l) = content_of l.
Proof.
  unfold content_of. induction l as [|s l IH]; [reflexivity|].
  cbn [map flat_map]. now rewrite non_space_strip, IH.
Qed.

Lemma content_of_concat (l : list str) : content_of l = non_space (concat l).
Proof.
  unfold content_of. induction l as [|s l IH]; [reflexivity|].
  cbn [flat_map concat]. now rewrite non_space_app, IH.
Qed.

(** *** [strip] *)

Lemma lstrip_app_ink (s : str) (c : char) :
  is_space c = false -> lstrip (s ++ [c]) = lstrip s ++ [c].
Proof.
  intros Hc. induction s as [|d s IH]; simpl; [now rewrite Hc|].
  destruct (is_space d); [exact IH|reflexivity].
Qed.

Lemma rstrip_cons_ink (c : char) (s : str) :
  is_space c = false -> rstrip (c :: s) = c :: rstrip s.
Proof.
  intros Hc. unfold rstrip. simpl.
  now rewrite lstrip_app_ink, rev_app_distr.
Qed.

Lemma lstrip_head (s : str) :
  lstrip s = [] \/ exists c rest, lstrip s = c :: rest /\ is_space c = false.
Proof.
  induction s as [|c s IH]; [now left|]. simpl.
  destruct (is_space c) eqn:E; [exact IH|]. right. eauto.
Qed.

Lemma lstrip_fixed (c : char) (s : str) : is_space c = false -> lstrip (c :: s) = c :: s.
Proof. intros Hc. simpl. now rewrite Hc. Qed.

Lemma lstrip_idem (s : str) : lstrip (lstrip s) = lstrip s.
Proof.
  destruct (lstrip_head s) as [->|(c & rest & -> & Hc)]; [reflexivity|].
  now apply lstrip_fixed.
Qed.

Lemma rstrip_idem (s : str) : rstrip (rstrip s) = rstrip s.
Proof. unfold rstrip. now rewrite rev_involutive, lstrip_idem. Qed.

(** What [strip] returns is empty or begins and ends with a character
    that is not whitespace; [strip] leaves it as it is. *)
Lemma strip_idem (s : str) : stripped (strip s).
Proof.
  unfold stripped, strip at 1.
  assert (H : lstrip (strip s) = strip s).
  { unfold strip. destruct (lstrip_head s) as [->|(c & rest & -> & Hc)]; [reflexivity|].
    rewrite rstrip_cons_ink by assumption. now apply lstrip_fixed. }
  rewrite H. unfold strip. apply rstrip_idem.
Qed.

(** *** [_preprocess_text] *)

Lemma sub_crlf_step (c d : char) (s : str) :
  sub_crlf (c :: d :: s) =
    if ((c =? 13) && (d =? 10))%N then 10%N :: sub_crlf s else c :: sub_crlf (d :: s).
Proof. reflexivity. Qed.

Lemma sub_crlf_content : forall n s, (length s <= n)%nat -> non_space (sub_crlf s) = non_space s.
Proof.
  induction n as [|n IH]; intros s Hn.
  - destruct s; [reflexivity|simpl in Hn; lia].
  - destruct s as [|c [|d s]]; [reflexivity|reflexivity|].
    rewrite sub_crlf_step.
    destruct ((c =? 13) && (d =? 10))%N eqn:E.
    + apply andb_prop in E as [Ec Ed].
      apply N.eqb_eq in Ec, Ed. subst.
      cbn [length] in Hn. rewrite !non_space_cons. cbn [is_space]. simpl.
      apply IH. lia.
    + rewrite (non_space_cons c (sub_crlf (d :: s))), (non_space_cons c (d :: s)).
      rewrite IH by (cbn [length] in *; lia). reflexivity.
Qed.

Lemma map_cr_content (s : str) :
  non_space (map (fun c => if (c =? 13)%N then newline else c) s) = non_space s.
Proof.
  induction s as [|c s IH]; [reflexivity|]. simpl.
  destruct (N.eqb_spec c 13) as [->|Hc]; simpl; now rewrite IH.
Qed.

(** A substitution of runs of whitespace by whitespace keeps the rest. *)
Lemma sub_runs_go_content (p : char -> bool) (k : nat) (repl : str) :
  (forall c, p c = true -> is_space c = true) -> non_space repl = [] ->
  forall s run, non_space run = [] ->
  non_space (sub_runs_go p k repl run s) = non_space s.
Proof.
  intros Hp Hrepl.
  assert (Hflush : forall run, non_space run = [] -> non_space (flush_run k repl run) = []).
  { intros run Hrun. unfold flush_run. destruct run; [reflexivity|].
    destruct (k <=? _)%nat; [exact Hrepl|].
    now rewrite non_space_rev, Hrun. }
  induction s as [|c s IH]; intros run Hrun; cbn [sub_runs_go].
  - now apply Hflush.
  - destruct (p c) eqn:E.
    + rewrite IH.
      * now rewrite (non_space_cons c s), (Hp c E).
      * now rewrite non_space_cons, (Hp c E).
    + rewrite non_space_app, (Hflush run Hrun). cbn [app].
      rewrite !non_space_cons. now rewrite IH.
Qed.

Lemma split_char_go_content (sep : char) (s : str) : forall piece,
  is_space sep = true ->
  content_of (split_char_go sep piece s) = non_space (rev piece ++ s).
Proof.
  induction s as [|c s IH]; intros piece Hsep; cbn [split_char_go].
  - cbn. now rewrite !app_nil_r.
  - destruct (N.eqb_spec c sep) as [->|Hc].
    + cbn [content_of flat_map]. fold (content_of (split_char_go sep [] s)).
      rewrite IH by assumption. rewrite !non_space_app. cbn [rev app].
      f_equal. now rewrite non_space_cons, Hsep.
    + rewrite IH by assumption. cbn [rev]. now rewrite <- app_assoc.
Qed.

Lemma join_content (sep : str) (parts : list str) :
  non_space sep = [] -> non_space (join sep parts) = content_of parts.
Proof.
  intros Hsep. induction parts as [|p parts IH]; [reflexivity|].
  cbn [join]. destruct parts as [|q parts].
  - cbn. now rewrite app_nil_r.
  - rewrite !non_space_app, Hsep, IH. reflexivity.
Qed.

(** Normalisation touches whitespace only. *)
Lemma preprocess_content (text : str) :
  non_space (_preprocess_text text) = non_space text.
Proof.
  unfold _preprocess_text.
  rewrite non_space_strip, join_content by reflexivity.
  rewrite content_of_map_strip.
  unfold split_char. rewrite split_char_go_content by reflexivity. cbn [rev app].
  unfold sub_runs.
  rewrite sub_runs_go_content; try reflexivity.
  2:{ intros c Hc. apply N.eqb_eq in Hc. now subst. }
  rewrite sub_runs_go_content; try reflexivity.
  2:{ intros c Hc. unfold is_blank_or_tab in Hc. apply orb_prop in Hc as [Hc|Hc];
      apply N.eqb_eq in Hc; now subst. }
  rewrite map_cr_content. now apply (sub_crlf_content (length text)).
Qed.

(** What the steps of [_preprocess_text] keep true of every character. *)
Section Characters.

Variable R : char -> Prop.

Lemma lstrip_all (s : str) : Forall R s -> Forall R (lstrip s).
Proof.
  induction 1 as [|c s Hc Hs IH]; [constructor|]. simpl.
  destruct (is_space c); [exact IH|now constructor].
Qed.

Lemma rev_all (s : str) : Forall R s -> Forall R (rev s).
Proof.
  intros H. apply Forall_forall. intros c Hc. apply in_rev in Hc.
  rewrite Forall_forall in H. auto.
Qed.

Lemma strip_all (s : str) : Forall R s -> Forall R (strip s).
Proof.
  intros H. unfold strip, rstrip. now apply rev_all, lstrip_all, rev_all, lstrip_all.
Qed.

Lemma sub_crlf_all : forall n s, (length s <= n)%nat ->
  R 10%N -> Forall R s -> Forall R (sub_crlf s).
Proof.
  induction n as [|n IH]; intros s Hn Hnl Hs.
  - destruct s; [constructor|simpl in Hn; lia].
  - destruct s as [|c [|d s]]; [constructor|exact Hs|].
    rewrite sub_crlf_step. inversion Hs as [|? ? Hc Hs']; subst.
    inversion Hs' as [|? ? Hd Hs'']; subst. cbn [length] in Hn.
    destruct ((c =? 13) && (d =? 10))%N.
    + constructor; [exact Hnl|]. apply IH; auto. lia.
    + constructor; [exact Hc|]. apply IH; auto. cbn [length]. lia.
Qed.

Lemma flush_run_all (k : nat) (repl run : str) :
  Forall R repl -> Forall R run -> Forall R (flush_run k repl run).
Proof.
  intros Hrepl Hrun. unfold flush_run. destruct run; [constructor|].
  destruct (k <=? _)%nat; [exact Hrepl|now apply rev_all].
Qed.

Lemma sub_runs_go_all (p : char -> bool) (k : nat) (repl : str) :
  Forall R repl -> forall s run, Forall R run -> Forall R s ->
  Forall R (sub_runs_go p k repl run s).
Proof.
  intros Hrepl. induction s as [|c s IH]; intros run Hrun Hs; cbn [sub_runs_go].
  - now apply flush_run_all.
  - inversion Hs; subst. destruct (p c).
    + apply IH; auto.
    + apply Forall_app. split; [now apply flush_run_all|].
      constructor; auto.
Qed.

(** When every run is replaced, only the replacement and the characters
    outside the class are left. *)
Lemma sub_runs_go_every (p : char -> bool) (repl : str) :
  Forall R repl -> forall s run,
  Forall (fun c => p c = false -> R c) s ->
  Forall R (sub_runs_go p 1 repl run s).
Proof.
  intros Hrepl.
  assert (Hflush : forall run, Forall R (flush_run 1 repl run)).
  { intros [|c run]; [constructor|exact Hrepl]. }
  induction s as [|c s IH]; intros run Hs; cbn [sub_runs_go].
  - apply Hflush.
  - inversion Hs; subst. destruct (p c) eqn:E.
    + now apply IH.
    + apply Forall_app. split; [apply Hflush|]. constructor; auto.
Qed.

Lemma split_char_go_all (sep : char) (s : str) : forall piece,
  Forall R piece -> Forall R s -> Forall (Forall R) (split_char_go sep piece s).
Proof.
  induction s as [|c s IH]; intros piece Hp Hs; cbn [split_char_go].
  - constructor; [now apply rev_all|constructor].
  - inversion Hs; subst. destruct (c =? sep)%N.
    + constructor; [now apply rev_all|]. now apply IH.
    + apply IH; auto.
Qed.

Lemma join_all (sep : str) (parts : list str) :
  Forall R sep -> Forall (Forall R) parts -> Forall R (join sep parts).
Proof.
  intros Hsep. induction 1 as [|p parts Hp Hparts IH]; [constructor|].
  cbn [join]. destruct parts; [exact Hp|].
  apply Forall_app. split; [exact Hp|]. apply Forall_app. now split.
Qed.

(** [_preprocess_text] brings in no character but the space and the
    newline. *)
Lemma preprocess_all (text : str) :
  R 10%N -> R 32%N -> Forall R text -> Forall R (_preprocess_text text).
Proof.
  intros Hnl Hsp Htext. unfold _preprocess_text.
  apply strip_all, join_all; [now constructor|].
  apply Forall_map.
  eapply Forall_impl; [intros p Hp; apply strip_all; exact Hp|].
  apply split_char_go_all; [constructor|].
  apply sub_runs_go_all; [now repeat constructor|constructor|].
  apply sub_runs_go_all; [now repeat constructor|constructor|].
  apply Forall_map. eapply Forall_impl; [|apply (sub_crlf_all (length text)); auto].
  intros c Hc. cbv beta. now destruct (c =? 13)%N.
Qed.

End Characters.

(** X1. Normalisation touches whitespace only and gives a normal form:
    the characters of [_preprocess_text text] that are not whitespace
    are those of [text], in the same order; the result holds no
    carriage return and no tab, and neither begins nor ends with
    whitespace. *)
Theorem preprocess_normalises (text : str) :
  non_space (_preprocess_text text) = non_space text /\
  Forall plain (_preprocess_text text) /\
  stripped (_preprocess_text text).
Proof.
  split; [apply preprocess_content|].
  split; [|apply strip_idem].
  unfold _preprocess_text.
  apply strip_all, join_all; [repeat constructor; discriminate|].
  apply Forall_map.
  eapply Forall_impl; [intros p Hp; apply strip_all; exact Hp|].
  apply split_char_go_all; [constructor|].
  apply sub_runs_go_all; [repeat constructor; discriminate|constructor|].
  apply sub_runs_go_every; [repeat constructor; discriminate|].
  apply Forall_map.
  apply Forall_forall. intros c _.
  destruct (N.eqb_spec c 13) as [->|H13]; intros Hc.
  - split; discriminate.
  - split; [exact H13|]. intros ->. discriminate.
Qed.

(** *** Subsequences *)

Lemma Subseq_refl {A} (l : list A) : Subseq l l.
Proof. induction l; [apply Subseq_nil|now apply Subseq_keep]. Qed.

Lemma Subseq_nil_l {A} (l : list A) : Subseq [] l.
Proof. induction l; [apply Subseq_nil|now apply Subseq_skip]. Qed.

Lemma Subseq_app {A} (a a' b b' : list A) :
  Subseq a a' -> Subseq b b' -> Subseq (a ++ b) (a' ++ b').
Proof.
  intros Ha Hb. induction Ha; simpl;
    [exact Hb|now apply Subseq_skip|now apply Subseq_keep].
Qed.

Lemma Subseq_trans {A} (l2 : list A) : forall l1 l3,
  Subseq l1 l2 -> Subseq l2 l3 -> Subseq l1 l3.
Proof.
  intros l1 l3 H12 H23. revert l1 H12.
  induction H23 as [|x l2 l3 H IH|x l2 l3 H IH]; intros l1 H12.
  - exact H12.
  - apply Subseq_skip. auto.
  - inversion H12; subst; [apply Subseq_skip|apply Subseq_keep]; auto.
Qed.

Lemma Subseq_length {A} (l1 l2 : list A) : Subseq l1 l2 -> (length l1 <= length l2)%nat.
Proof. induction 1; simpl; lia. Qed.

(** *** What [re.split] keeps *)

Lemma run_length_firstn (p : char -> bool) (s : str) : forall n,
  (n <= run_length p s)%nat -> forallb p (firstn n s) = true.
Proof.
  induction s as [|c s IH]; intros n Hn.
  - now destruct n.
  - destruct n as [|n]; [reflexivity|]. cbn [run_length] in Hn.
    destruct (p c) eqn:E; [|lia]. cbn. rewrite E. apply IH. lia.
Qed.

Lemma last_index_lt (p : char -> bool) (s : str) (i : nat) :
  last_index p s = Some i -> (i < length s)%nat.
Proof.
  revert i. induction s as [|c s IH]; intros i; [discriminate|]. cbn.
  destruct (last_index p s) as [j|].
  - intros [= <-]. specialize (IH j eq_refl). lia.
  - destruct (p c); [|discriminate]. intros [= <-]. lia.
Qed.

Lemma word_boundaries_whitespace : matches_whitespace word_boundaries.
Proof.
  intros s n. unfold word_boundaries.
  destruct (0 <? run_length is_space s)%nat; [|discriminate].
  intros [= <-]. now apply run_length_firstn.
Qed.

Lemma paragraph_breaks_whitespace : matches_whitespace paragraph_breaks.
Proof.
  intros s n. unfold paragraph_breaks.
  destruct s as [|c rest]; [discriminate|].
  destruct (N.eqb_spec c newline) as [->|]; [|discriminate].
  destruct (last_index _ _) as [i|] eqn:Hi; [|discriminate].
  intros [= <-]. apply last_index_lt in Hi. rewrite length_firstn in Hi.
  change (firstn (S (S i)) (newline :: rest)) with (newline :: firstn (S i) rest).
  cbn [forallb]. change (is_space newline) with true. cbn [andb].
  apply run_length_firstn. lia.
Qed.

(** The pieces of a split on a pattern that matches whitespace only
    hold all the content of the text. *)
Lemma re_split_go_content (m : matcher) (Hm : matches_whitespace m) (s : str) :
  forall skip piece,
  forallb is_space (firstn skip s) = true ->
  content_of (re_split_go m skip piece s) = non_space (rev piece ++ s).
Proof.
  induction s as [|c s IH]; intros skip piece Hskip; cbn [re_split_go].
  - cbn. now rewrite !app_nil_r.
  - destruct skip as [|k].
    + destruct (m (c :: s)) as [[|k]|] eqn:Hmatch.
      * rewrite IH by reflexivity. cbn [rev]. now rewrite <- app_assoc.
      * apply Hm in Hmatch. cbn [firstn forallb] in Hmatch.
        apply andb_prop in Hmatch as [Hc Hk].
        cbn [content_of flat_map]. fold (content_of (re_split_go m k [] s)).
        rewrite IH by assumption. cbn [rev app].
        rewrite (non_space_app (rev piece) (c :: s)), non_space_cons, Hc. reflexivity.
      * rewrite IH by reflexivity. cbn [rev]. now rewrite <- app_assoc.
    + cbn [firstn forallb] in Hskip. apply andb_prop in Hskip as [Hc Hk].
      rewrite IH by assumption.
      rewrite !non_space_app, (non_space_cons c s), Hc. reflexivity.
Qed.

Lemma re_split_content (m : matcher) (s : str) :
  matches_whitespace m -> content_of (re_split m s) = non_space s.
Proof. intros Hm. now apply (re_split_go_content m Hm s 0 []). Qed.

(** The pieces and the matches of a text make up the text. *)
Lemma re_split_interleave (m : matcher) (s : str) : forall skip piece,
  interleave (re_split_go m skip piece s) (re_findall_go m skip s)
  = rev piece ++ skipn skip s.
Proof.
  induction s as [|c s IH]; intros skip piece; cbn [re_split_go re_findall_go].
  - cbn [interleave]. now rewrite skipn_nil, app_nil_r.
  - destruct skip as [|k].
    + destruct (m (c :: s)) as [[|k]|] eqn:Hmatch.
      * rewrite IH. cbn [rev skipn]. now rewrite <- app_assoc.
      * cbn [interleave]. rewrite IH. cbn [rev app].
        change (firstn (S k) (c :: s)) with (c :: firstn k s).
        cbn [app]. now rewrite firstn_skipn.
      * rewrite IH. cbn [rev skipn]. now rewrite <- app_assoc.
    + rewrite IH. reflexivity.
Qed.

(** *** What [sentence_parts] keeps *)

Lemma non_space_rstrip (s : str) : non_space (rstrip s) = non_space s.
Proof.
  unfold rstrip. now rewrite non_space_rev, non_space_lstrip, non_space_rev, rev_involutive.
Qed.

(** The parts built from pieces and endings are the pieces and endings
    with some left out: a blank piece goes with its ending. *)
Lemma parts_subseq (endings : list str) : forall pieces,
  length pieces = S (length endings) ->
  let heads :=
    flat_map (fun se : str * str =>
                if truthy (strip (fst se)) then [fst se ++ rstrip (snd se)] else [])
             (combine (removelast pieces) endings) in
  let final := last pieces [] in
  Subseq (content_of (if truthy (strip final) then heads ++ [final] else heads))
         (non_space (interleave pieces endings)) /\
  (Forall (fun p => has_ink p = true) (removelast pieces) ->
   content_of (if truthy (strip final) then heads ++ [final] else heads)
   = non_space (interleave pieces endings)).
Proof.
  induction endings as [|e endings IH]; intros pieces Hlen; cbv zeta.
  - destruct pieces as [|p [|q pieces]]; try discriminate.
    cbn [removelast combine flat_map last interleave app].
    rewrite truthy_strip. destruct (has_ink p) eqn:Hp.
    + cbn. rewrite app_nil_r. split; [apply Subseq_refl|reflexivity].
    + rewrite (non_space_blank p Hp). cbn. split; [apply Subseq_nil|reflexivity].
  - destruct pieces as [|p [|q pieces]]; try discriminate.
    specialize (IH (q :: pieces) ltac:(simpl in *; lia)). cbv zeta in IH.
    destruct IH as [IHsub IHeq].
    change (removelast (p :: q :: pieces)) with (p :: removelast (q :: pieces)).
    change (last (p :: q :: pieces) []) with (last (q :: pieces) []).
    cbn [combine flat_map interleave fst snd].
    set (heads := flat_map _ (combine (removelast (q :: pieces)) endings)) in *.
    set (final := last (q :: pieces) []) in *.
    assert (Hsplit : forall first : list str,
      content_of (if truthy (strip final) then (first ++ heads) ++ [final]
                  else first ++ heads)
      = content_of first
        ++ content_of (if truthy (strip final) then heads ++ [final] else heads)).
    { intros first. destruct (truthy (strip final));
        rewrite ?content_of_app; now rewrite <- ?app_assoc. }
    rewrite Hsplit, !non_space_app.
    rewrite truthy_strip. destruct (has_ink p) eqn:Hp.
    + unfold content_of at 1 3. cbn [flat_map]. rewrite app_nil_r.
      rewrite non_space_app, non_space_rstrip, <- app_assoc.
      split.
      * apply Subseq_app; [apply Subseq_refl|]. apply Subseq_app; [apply Subseq_refl|].
        exact IHsub.
      * intros Hall. inversion Hall; subst. now rewrite IHeq.
    + rewrite (non_space_blank p Hp). cbn [content_of flat_map app].
      split.
      * apply (Subseq_app [] (non_space e)); [apply Subseq_nil_l|exact IHsub].
      * intros Hall. inversion Hall; subst. congruence.
Qed.

(** [sentence_parts] brings nothing in and keeps the order. *)
Lemma sentence_parts_subseq (text : str) :
  Subseq (content_of (sentence_parts text)) (non_space text).
Proof.
  pose proof (parts_subseq (re_findall sentence_endings text)
                (re_split sentence_endings text)
                (re_split_findall_length _ _ _ _)) as [H _].
  cbv zeta in H. unfold re_split, re_findall in H.
  rewrite re_split_interleave in H. exact H.
Qed.

(** *** The hard cut gives the word back *)

Lemma slices_concat (m : nat) : forall n (w : str),
  (length w <= n * m)%nat ->
  concat (map (fun k => firstn m (skipn (k * m) w)) (seq 0 n)) = w.
Proof.
  induction n as [|n IH]; intros w Hlen.
  - destruct w; [reflexivity|simpl in Hlen; lia].
  - cbn [seq map concat]. rewrite <- seq_shift, map_map.
    cbn [Nat.mul skipn].
    assert (Hl : (length (skipn m w) <= n * m)%nat) by (rewrite length_skipn; lia).
    specialize (IH (skipn m w) Hl).
    apply eq_trans with (firstn m w ++ skipn m w); [|apply firstn_skipn].
    f_equal. rewrite <- IH. f_equal. apply map_ext. intros k.
    rewrite skipn_skipn. do 2 f_equal. nia.
Qed.

(** For a positive size, the slices of a word, one after the other,
    are the word. *)
Lemma hard_cut_slices (max_chunk_size : Z) (word : str) (parts : list str) :
  (0 < max_chunk_size)%Z ->
  hard_cut max_chunk_size word = Ok parts ->
  concat parts = word.
Proof.
  intros Hpos H. apply hard_cut_inv in H as [[Hneg _]|[_ ->]]; [lia|].
  apply slices_concat.
  assert (H : (len word <= max_chunk_size * ((len word + max_chunk_size - 1) / max_chunk_size))%Z).
  { pose proof (Z.mul_succ_div_gt (len word + max_chunk_size - 1) max_chunk_size Hpos).
    lia. }
  assert (H0 : (0 <= (len word + max_chunk_size - 1) / max_chunk_size)%Z).
  { apply Z.div_pos; unfold len; lia. }
  unfold len in *. nia.
Qed.

(** X2. The hard cut of a word that is longer than a chunk is a round
    trip: for a positive size, the slices, one after the other, are
    the word; each is a chunk long at most, and each but the last is
    exactly a chunk long. *)
Theorem hard_cut_round_trip (max_chunk_size : Z) (word : str) (parts : list str) :
  (0 < max_chunk_size)%Z ->
  hard_cut max_chunk_size word = Ok parts ->
  concat parts = word /\
  Forall (fits max_chunk_size) parts /\
  Forall (fun p => len p = max_chunk_size) (removelast parts).
Proof.
  intros Hpos H. split; [now apply (hard_cut_slices max_chunk_size)|].
  split; [now apply (hard_cut_fits max_chunk_size word)|].
  now apply (hard_cut_exact max_chunk_size word).
Qed.

Lemma hard_cut_round_trip_witness :
  hard_cut 3 (of_string "abcdefgh")
    = Ok [of_string "abc"; of_string "def"; of_string "gh"] /\
  concat [of_string "abc"; of_string "def"; of_string "gh"] = of_string "abcdefgh".
Proof.
  split; [reflexivity|].
  apply (hard_cut_round_trip 3 (of_string "abcdefgh")); [lia|reflexivity].
Defined.

(** *** The content of the chunks, level by level

    [R] is equality, or [Subseq]: what is proved of the loops holds for
    both. *)

Section Accounting.

Variable max_chunk_size : Z.
Variable R : str -> str -> Prop.
Hypothesis R_refl : forall s, R s s.
Hypothesis R_app : forall a a' b b', R a a' -> R b b' -> R (a ++ b) (a' ++ b').
Hypothesis R_cut : forall word parts,
  hard_cut max_chunk_size word = Ok parts -> R (content_of parts) (non_space word).

Lemma seal_content (chunks : list str) (current : str) :
  content_of (seal chunks current) = state_content chunks current.
Proof.
  unfold seal, state_content. destruct current as [|c current]; cbn [truthy].
  - cbn. now rewrite app_nil_r.
  - rewrite content_of_app. cbn. now rewrite app_nil_r.
Qed.

Lemma potential_content (sep current unit : str) :
  non_space sep = [] ->
  non_space (potential sep current unit) = non_space current ++ non_space unit.
Proof.
  intros Hsep. unfold potential. rewrite !non_space_app.
  destruct (truthy current); [now rewrite Hsep|reflexivity].
Qed.

Lemma handed_back_content (l : list str) :
  state_content (all_but_last l) (last_or_empty l) = content_of l.
Proof.
  unfold state_content, all_but_last, last_or_empty.
  induction l as [|a l IH]; [reflexivity|].
  destruct l as [|b l].
  - cbn. now rewrite app_nil_r.
  - change (removelast (a :: b :: l)) with (a :: removelast (b :: l)).
    change (last (a :: b :: l) []) with (last (b :: l) []).
    change (content_of (a :: removelast (b :: l)))
      with (non_space a ++ content_of (removelast (b :: l))).
    change (content_of (a :: b :: l)) with (non_space a ++ content_of (b :: l)).
    now rewrite <- app_assoc, IH.
Qed.

(** A step of a packing loop that takes a unit in. *)
Lemma step_packed (chunks : list str) (sep current unit target : str) :
  non_space sep = [] ->
  R (state_content chunks current) target ->
  R (state_content chunks (potential sep current unit)) (target ++ non_space unit).
Proof.
  intros Hsep H. unfold state_content in *.
  rewrite potential_content, app_assoc by assumption. now apply R_app.
Qed.

Lemma step_sealed (chunks more : list str) (current next target added : str) :
  R (state_content chunks current) target ->
  R (state_content more next) added ->
  R (state_content (seal chunks current ++ more) next) (target ++ added).
Proof.
  intros H Hadd. unfold state_content in *.
  rewrite content_of_app, seal_content, <- app_assoc. now apply R_app.
Qed.

Lemma words_loop_content (words : list str) : forall chunks current target out,
  R (state_content chunks current) target ->
  words_loop max_chunk_size words chunks current = Ok out ->
  R (state_content (fst out) (snd out)) (target ++ content_of words).
Proof.
  induction words as [|word rest IH]; intros chunks current target out Hst H.
  - injection H as <-. cbn. now rewrite app_nil_r.
  - cbn [words_loop] in H. cbv zeta in H.
    change (content_of (word :: rest)) with (non_space word ++ content_of rest).
    rewrite app_assoc. rewrite truthy_strip in H.
    destruct (has_ink word) eqn:Hink; cbn [negb] in H.
    2:{ rewrite (non_space_blank word Hink), app_nil_r. now apply (IH _ _ _ _ Hst H). }
    destruct (len (potential [space] current word) <=? max_chunk_size)%Z.
    { refine (IH _ _ _ _ _ H). now apply step_packed. }
    destruct (len word >? max_chunk_size)%Z.
    + destruct (hard_cut max_chunk_size word) as [parts|e] eqn:Hcut; [|discriminate].
      cbn [bind_result] in H. refine (IH _ _ _ _ _ H).
      apply step_sealed; [exact Hst|]. unfold state_content. cbn [non_space filter].
      rewrite app_nil_r. now apply R_cut.
    + refine (IH _ _ _ _ _ H).
      rewrite <- (app_nil_r (seal chunks current)).
      apply step_sealed; [exact Hst|]. apply R_refl.
Qed.

Lemma _split_by_words_content (text : str) (chunks : list str) :
  _split_by_words max_chunk_size text = Ok chunks ->
  R (content_of chunks) (non_space text).
Proof.
  unfold _split_by_words. intros H.
  destruct (words_loop max_chunk_size (re_split word_boundaries text) [] [])
    as [out|e] eqn:Hloop; [|discriminate].
  injection H as <-. rewrite seal_content.
  apply (words_loop_content _ [] [] [] _ (R_refl [])) in Hloop.
  now rewrite (re_split_content _ _ word_boundaries_whitespace) in Hloop.
Qed.

Lemma sentences_loop_content (sentences : list str) : forall chunks current target out,
  R (state_content chunks current) target ->
  sentences_loop max_chunk_size sentences chunks current = Ok out ->
  R (state_content (fst out) (snd out)) (target ++ content_of sentences).
Proof.
  induction sentences as [|sentence rest IH]; intros chunks current target out Hst H.
  - injection H as <-. cbn. now rewrite app_nil_r.
  - cbn [sentences_loop] in H. cbv zeta in H.
    change (content_of (sentence :: rest)) with (non_space sentence ++ content_of rest).
    rewrite app_assoc, <- (non_space_strip sentence).
    destruct (truthy (strip sentence)) eqn:Hink; cbn [negb] in H.
    2:{ destruct (strip sentence); [|discriminate].
        cbn [non_space filter]. rewrite app_nil_r. now apply (IH _ _ _ _ Hst H). }
    destruct (len (potential [space] current (strip sentence)) <=? max_chunk_size)%Z.
    { refine (IH _ _ _ _ _ H). now apply step_packed. }
    destruct (len (strip sentence) >? max_chunk_size)%Z.
    + destruct (_split_by_words max_chunk_size (strip sentence)) as [parts|e] eqn:Hsub;
        [|discriminate].
      cbn [bind_result] in H. refine (IH _ _ _ _ _ H).
      apply step_sealed; [exact Hst|]. rewrite handed_back_content.
      now apply _split_by_words_content.
    + refine (IH _ _ _ _ _ H).
      rewrite <- (app_nil_r (seal chunks current)).
      apply step_sealed; [exact Hst|]. apply R_refl.
Qed.

Lemma _split_by_sentences_content (text : str) (chunks : list str) :
  _split_by_sentences max_chunk_size text = Ok chunks ->
  R (content_of chunks) (content_of (sentence_parts text)).
Proof.
  unfold _split_by_sentences. intros H.
  destruct (sentences_loop max_chunk_size (sentence_parts text) [] [])
    as [out|e] eqn:Hloop; [|discriminate].
  injection H as <-. rewrite seal_content.
  now apply (sentences_loop_content _ [] [] [] _ (R_refl [])) in Hloop.
Qed.

Lemma potential_length (sep current unit : str) :
  (len unit <= len (potential sep current unit))%Z.
Proof.
  unfold potential, len. rewrite !length_app. lia.
Qed.

Lemma paragraphs_loop_content (paragraphs : list str) :
  forall chunks current target out,
  R (state_content chunks current) target ->
  paragraphs_loop max_chunk_size paragraphs chunks current = Ok out ->
  R (state_content (fst out) (snd out))
    (target ++ flat_map (paragraph_content max_chunk_size) paragraphs).
Proof.
  induction paragraphs as [|paragraph rest IH]; intros chunks current target out Hst H.
  - injection H as <-. cbn. now rewrite app_nil_r.
  - cbn [paragraphs_loop] in H. cbv zeta in H.
    cbn [flat_map]. rewrite app_assoc. unfold paragraph_content at 1. cbv zeta.
    destruct (truthy (strip paragraph)) eqn:Hink; cbn [negb] in H.
    2:{ destruct (strip paragraph); [|discriminate].
        replace (if (len [] >? max_chunk_size)%Z
                 then content_of (sentence_parts []) else non_space [])
          with (@nil char) by now destruct (len [] >? max_chunk_size)%Z.
        rewrite app_nil_r. now apply (IH _ _ _ _ Hst H). }
    destruct (Z.leb_spec (len (potential [newline; newline] current (strip paragraph)))
                max_chunk_size) as [Hfit|Hnofit].
    { pose proof (potential_length [newline; newline] current (strip paragraph)).
      replace (len (strip paragraph) >? max_chunk_size)%Z with false
        by (symmetry; rewrite Z.gtb_ltb; apply Z.ltb_ge; lia).
      refine (IH _ _ _ _ _ H). now apply step_packed. }
    destruct (len (strip paragraph) >? max_chunk_size)%Z.
    + destruct (_split_by_sentences max_chunk_size (strip paragraph)) as [parts|e] eqn:Hsub;
        [|discriminate].
      cbn [bind_result] in H. refine (IH _ _ _ _ _ H).
      apply step_sealed; [exact Hst|]. rewrite handed_back_content.
      now apply _split_by_sentences_content.
    + refine (IH _ _ _ _ _ H).
      rewrite <- (app_nil_r (seal chunks current)).
      apply step_sealed; [exact Hst|]. apply R_refl.
Qed.

Lemma _split_into_chunks_content (text : str) (chunks : list str) :
  _split_into_chunks max_chunk_size text = Ok chunks ->
  R (content_of chunks)
    (flat_map (paragraph_content max_chunk_size) (re_split paragraph_breaks text)).
Proof.
  unfold _split_into_chunks. intros H.
  destruct (paragraphs_loop max_chunk_size (re_split paragraph_breaks text) [] [])
    as [out|e] eqn:Hloop; [|discriminate].
  injection H as <-. rewrite seal_content.
  now apply (paragraphs_loop_content _ [] [] [] _ (R_refl [])) in Hloop.
Qed.

End Accounting.

(** *** The chunks of [split_text] and the text *)

Lemma Subseq_flat_map {A B} (f g : A -> list B) (l : list A) :
  (forall a, Subseq (f a) (g a)) -> Subseq (flat_map f l) (flat_map g l).
Proof.
  intros H. induction l as [|a l IH]; [apply Subseq_nil|].
  cbn [flat_map]. now apply Subseq_app.
Qed.

Lemma hard_cut_subseq (max_chunk_size : Z) (word : str) (parts : list str) :
  hard_cut max_chunk_size word = Ok parts -> Subseq (content_of parts) (non_space word).
Proof.
  intros H. destruct (Z.ltb_spec 0 max_chunk_size) as [Hpos|Hneg].
  - rewrite content_of_concat, (hard_cut_slices _ _ _ Hpos H). apply Subseq_refl.
  - apply hard_cut_inv in H as [[_ ->]|[Hpos _]]; [apply Subseq_nil_l|lia].
Qed.

Lemma hard_cut_content (max_chunk_size : Z) (word : str) (parts : list str) :
  (0 < max_chunk_size)%Z ->
  hard_cut max_chunk_size word = Ok parts -> content_of parts = non_space word.
Proof.
  intros Hpos H. now rewrite content_of_concat, (hard_cut_slices _ _ _ Hpos H).
Qed.

Lemma eq_app (a a' b b' : str) : a = a' -> b = b' -> a ++ b = a' ++ b'.
Proof. now intros -> ->. Qed.

Lemma paragraph_content_subseq (max_chunk_size : Z) (paragraph : str) :
  Subseq (paragraph_content max_chunk_size paragraph) (non_space paragraph).
Proof.
  unfold paragraph_content. cbv zeta. rewrite <- (non_space_strip paragraph).
  destruct (len (strip paragraph) >? max_chunk_size)%Z;
    [apply sentence_parts_subseq|apply Subseq_refl].
Qed.

Lemma enumerate_map_snd {A} (l : list A) : forall i, map snd (enumerate i l) = l.
Proof.
  induction l as [|a l IH]; intros i; [reflexivity|].
  cbn [enumerate map snd]. now rewrite IH.
Qed.

(** The two exits of [split_text], with the pieces the chunks are made
    of. *)
Lemma split_text_cases (max_chunk_size : Z) (text : str) (chunks : list TextChunk.t) :
  split_text max_chunk_size text = Ok chunks ->
  has_ink text = true /\
  exists pieces : list str,
    map TextChunk.text chunks = map strip pieces /\
    length chunks = length pieces /\
    Forall (fun p => has_ink p = true) pieces /\
    ((len (_preprocess_text text) <= max_chunk_size)%Z /\
     pieces = [_preprocess_text text] \/
     (max_chunk_size < len (_preprocess_text text))%Z /\
     _split_into_chunks max_chunk_size (_preprocess_text text) = Ok pieces).
Proof.
  unfold split_text. intros H.
  destruct (negb (truthy text) || negb (truthy (strip text))) eqn:Hblank; [discriminate|].
  apply orb_false_elim in Hblank as [_ Hink].
  apply negb_false_iff in Hink. rewrite truthy_strip in Hink.
  split; [exact Hink|].
  destruct (Z.leb_spec (len (_preprocess_text text)) max_chunk_size) as [Hfit|Hnofit].
  - injection H as <-. exists [_preprocess_text text].
    repeat split; [|now left].
    constructor; [|constructor].
    now rewrite has_ink_non_space, preprocess_content, <- has_ink_non_space.
  - destruct (_split_into_chunks max_chunk_size (_preprocess_text text))
      as [pieces|e] eqn:Hsplit; [|discriminate].
    injection H as <-. pose proof (_split_into_chunks_good _ _ _ Hsplit) as Hgood.
    assert (Hink' : Forall (fun p => has_ink p = true) pieces).
    { eapply Forall_impl; [|exact Hgood]. now intros p [_ Hp]. }
    exists pieces. rewrite filter_all.
    + rewrite map_map, length_map. cbn [TextChunk.text TextChunk.init].
      repeat split; [| |exact Hink'|now right].
      * rewrite <- (enumerate_map_snd pieces 0) at 2. now rewrite map_map.
      * clear. generalize 0%Z. induction pieces; intros z; simpl; auto.
    + apply (enumerate_snd (fun p => truthy (strip p) = true)).
      eapply Forall_impl; [|exact Hink']. intros p Hp. now rewrite truthy_strip.
Qed.

Lemma content_chunks (chunks : list TextChunk.t) (pieces : list str) :
  map TextChunk.text chunks = map strip pieces -> content chunks = content_of pieces.
Proof.
  intros H. rewrite <- (content_of_map_strip pieces), <- H.
  unfold content, content_of. now rewrite flat_map_concat_map, flat_map_concat_map, map_map.
Qed.

(** X3. Nothing is brought in, nothing comes twice: the characters of
    the chunks of [split_text] that are not whitespace are characters
    of the text, in the order of the text, each at most once. *)
Theorem chunks_are_subsequence (max_chunk_size : Z) (text : str)
  (chunks : list TextChunk.t) :
  split_text max_chunk_size text = Ok chunks ->
  Subseq (content chunks) (non_space text).
Proof.
  intros H. apply split_text_cases in H as (_ & pieces & Htext & _ & _ & Hcase).
  rewrite (content_chunks _ _ Htext), <- (preprocess_content text).
  destruct Hcase as [[_ ->]|[_ Hsplit]].
  - cbn. rewrite app_nil_r. apply Subseq_refl.
  - pose proof (_split_into_chunks_content max_chunk_size Subseq Subseq_refl
                  (@Subseq_app char) (hard_cut_subseq max_chunk_size)
                  _ _ Hsplit) as Hsub.
    eapply Subseq_trans; [exact Hsub|].
    rewrite <- (re_split_content paragraph_breaks (_preprocess_text text)
                  paragraph_breaks_whitespace).
    apply Subseq_flat_map. apply paragraph_content_subseq.
Qed.

Lemma chunks_are_subsequence_witness :
  split_text 20 ellipsis_text = Ok ellipsis_chunks /\
  Subseq (content ellipsis_chunks) (non_space ellipsis_text).
Proof.
  split; [vm_compute; reflexivity|].
  apply (chunks_are_subsequence 20 ellipsis_text ellipsis_chunks). vm_compute. reflexivity.
Defined.

(** X4. The word level loses nothing: for a positive size, the chunks
    of [_split_by_words] hold, whitespace apart, the characters of the
    text, all of them and in order. *)
Theorem words_keep_content (max_chunk_size : Z) (text : str) (chunks : list str) :
  (0 < max_chunk_size)%Z ->
  _split_by_words max_chunk_size text = Ok chunks ->
  content_of chunks = non_space text.
Proof.
  intros Hpos H.
  exact (_split_by_words_content max_chunk_size eq (fun s => eq_refl) eq_app
           (fun word parts Hcut => hard_cut_content _ word parts Hpos Hcut)
           text chunks H).
Qed.

Lemma words_keep_content_witness :
  _split_by_words 5 (of_string "ab cdefghijkl  mn o")
    = Ok [of_string "ab"; of_string "cdefg"; of_string "hijkl"; of_string "mn o"] /\
  content_of [of_string "ab"; of_string "cdefg"; of_string "hijkl"; of_string "mn o"]
    = non_space (of_string "ab cdefghijkl  mn o").
Proof.
  split; [vm_compute; reflexivity|].
  apply (words_keep_content 5 (of_string "ab cdefghijkl  mn o")); [lia|].
  vm_compute. reflexivity.
Defined.

(** X5. When every paragraph of the normalised text fits in a chunk, no
    character is lost: the chunks of [split_text] hold, whitespace
    apart, exactly the characters of the text. *)
Theorem fitting_paragraphs_keep_content (max_chunk_size : Z) (text : str)
  (chunks : list TextChunk.t) :
  Forall (fun p => (len p <= max_chunk_size)%Z) (paragraphs_of (_preprocess_text text)) ->
  split_text max_chunk_size text = Ok chunks ->
  content chunks = non_space text.
Proof.
  intros Hfit H. apply split_text_cases in H as (Hink & pieces & Htext & _ & _ & Hcase).
  rewrite (content_chunks _ _ Htext), <- (preprocess_content text).
  destruct Hcase as [[_ ->]|[_ Hsplit]].
  - cbn. now rewrite app_nil_r.
  - destruct (Z.ltb_spec 0 max_chunk_size) as [Hpos|Hneg].
    + rewrite (_split_into_chunks_content max_chunk_size eq (fun s => eq_refl) eq_app
                 (fun word parts Hcut => hard_cut_content _ word parts Hpos Hcut)
                 _ _ Hsplit).
      rewrite <- (re_split_content paragraph_breaks (_preprocess_text text)
                    paragraph_breaks_whitespace).
      unfold content_of, paragraphs_of in *. rewrite Forall_map in Hfit.
      induction Hfit as [|p ps Hp Hps IH]; [reflexivity|].
      cbn [flat_map]. rewrite IH. f_equal.
      unfold paragraph_content. cbv zeta.
      replace (len (strip p) >? max_chunk_size)%Z with false
        by (symmetry; rewrite Z.gtb_ltb; apply Z.ltb_ge; lia).
      apply non_space_strip.
    + (* a size that is not positive fits blank paragraphs only *)
      exfalso.
      assert (Hall : Forall (fun p => has_ink p = false)
                       (re_split paragraph_breaks (_preprocess_text text))).
      { unfold paragraphs_of in Hfit. rewrite Forall_map in Hfit.
        eapply Forall_impl; [|exact Hfit]. intros p Hp. cbv beta in Hp.
        rewrite <- has_ink_strip. destruct (strip p); [reflexivity|].
        unfold len in Hp. simpl in Hp. lia. }
      rewrite has_ink_non_space, <- preprocess_content in Hink.
      rewrite <- (re_split_content paragraph_breaks (_preprocess_text text)
                    paragraph_breaks_whitespace) in Hink.
      replace (content_of (re_split paragraph_breaks (_preprocess_text text)))
        with (@nil char) in Hink; [discriminate|].
      symmetry. unfold content_of. revert Hall.
      generalize (re_split paragraph_breaks (_preprocess_text text)).
      induction 1 as [|p ps Hp Hps IH]; [reflexivity|].
      cbn [flat_map]. now rewrite (non_space_blank p Hp), IH.
Qed.

Lemma fitting_paragraphs_keep_content_witness :
  Forall (fun p => (len p <= 45)%Z) (paragraphs_of (_preprocess_text two_paragraphs)) /\
  exists chunks,
    split_text 45 two_paragraphs = Ok chunks /\ length chunks = 2%nat /\
    content chunks = non_space two_paragraphs.
Proof.
  assert (Hfit : Forall (fun p => (len p <= 45)%Z)
                   (paragraphs_of (_preprocess_text two_paragraphs))).
  { vm_compute. repeat constructor; discriminate. }
  split; [exact Hfit|].
  destruct (split_text 45 two_paragraphs) as [chunks|e] eqn:Hrun;
    [|vm_compute in Hrun; discriminate].
  exists chunks. split; [reflexivity|]. split.
  - vm_compute in Hrun. injection Hrun as <-. reflexivity.
  - exact (fitting_paragraphs_keep_content 45 two_paragraphs chunks Hfit Hrun).
Defined.

(** *** The errors of [split_text] *)

Section Errors.

Variable max_chunk_size : Z.

Lemma hard_cut_error (word : str) (e : exn) :
  hard_cut max_chunk_size word = Err e -> e = ValueError /\ max_chunk_size = 0%Z.
Proof.
  unfold hard_cut, py_range0.
  destruct (Z.eqb_spec max_chunk_size 0) as [->|]; cbn.
  - now intros [= <-].
  - destruct (max_chunk_size <? 0)%Z; discriminate.
Qed.

Lemma words_loop_error (words : list str) : forall chunks current e,
  words_loop max_chunk_size words chunks current = Err e ->
  e = ValueError /\ max_chunk_size = 0%Z.
Proof.
  induction words as [|word rest IH]; intros chunks current e H; [discriminate|].
  cbn [words_loop] in H. cbv zeta in H.
  destruct (negb (truthy (strip word))); [now apply IH in H|].
  destruct (len (potential [space] current word) <=? max_chunk_size)%Z;
    [now apply IH in H|].
  destruct (len word >? max_chunk_size)%Z; [|now apply IH in H].
  destruct (hard_cut max_chunk_size word) as [parts|e'] eqn:Hcut.
  - now apply IH in H.
  - injection H as <-. now apply hard_cut_error in Hcut.
Qed.

Lemma _split_by_words_error (text : str) (e : exn) :
  _split_by_words max_chunk_size text = Err e -> e = ValueError /\ max_chunk_size = 0%Z.
Proof.
  unfold _split_by_words.
  destruct (words_loop _ _ _ _) as [out|e'] eqn:H; [discriminate|].
  intros [= <-]. now apply words_loop_error in H.
Qed.

Lemma sentences_loop_error (sentences : list str) : forall chunks current e,
  sentences_loop max_chunk_size sentences chunks current = Err e ->
  e = ValueError /\ max_chunk_size = 0%Z.
Proof.
  induction sentences as [|sentence rest IH]; intros chunks current e H; [discriminate|].
  cbn [sentences_loop] in H. cbv zeta in H.
  destruct (negb (truthy (strip sentence))); [now apply IH in H|].
  destruct (len (potential [space] current (strip sentence)) <=? max_chunk_size)%Z;
    [now apply IH in H|].
  destruct (len (strip sentence) >? max_chunk_size)%Z; [|now apply IH in H].
  destruct (_split_by_words max_chunk_size (strip sentence)) as [parts|e'] eqn:Hsub.
  - now apply IH in H.
  - injection H as <-. now apply _split_by_words_error in Hsub.
Qed.

Lemma _split_by_sentences_error (text : str) (e : exn) :
  _split_by_sentences max_chunk_size text = Err e ->
  e = ValueError /\ max_chunk_size = 0%Z.
Proof.
  unfold _split_by_sentences.
  destruct (sentences_loop _ _ _ _) as [out|e'] eqn:H; [discriminate|].
  intros [= <-]. now apply sentences_loop_error in H.
Qed.

Lemma paragraphs_loop_error (paragraphs : list str) : forall chunks current e,
  paragraphs_loop max_chunk_size paragraphs chunks current = Err e ->
  e = ValueError /\ max_chunk_size = 0%Z.
Proof.
  induction paragraphs as [|paragraph rest IH]; intros chunks current e H; [discriminate|].
  cbn [paragraphs_loop] in H. cbv zeta in H.
  destruct (negb (truthy (strip paragraph))); [now apply IH in H|].
  destruct (len (potential [newline; newline] current (strip paragraph))
            <=? max_chunk_size)%Z; [now apply IH in H|].
  destruct (len (strip paragraph) >? max_chunk_size)%Z; [|now apply IH in H].
  destruct (_split_by_sentences max_chunk_size (strip paragraph)) as [parts|e'] eqn:Hsub.
  - now apply IH in H.
  - injection H as <-. now apply _split_by_sentences_error in Hsub.
Qed.

Lemma split_text_error_cases (text : str) (e : exn) :
  split_text max_chunk_size text = Err e ->
  e = TextProcessorError EmptyText /\ has_ink text = false \/
  (e = ValueError /\ max_chunk_size = 0%Z) /\ has_ink text = true.
Proof.
  unfold split_text. rewrite truthy_strip.
  destruct (has_ink text) eqn:Hink.
  - destruct text as [|c text]; [discriminate|]. cbn [truthy negb orb].
    destruct (len _ <=? max_chunk_size)%Z; [discriminate|].
    unfold _split_into_chunks.
    destruct (paragraphs_loop _ _ _ _) as [out|e'] eqn:H; [discriminate|].
    cbn [bind_result]. intros [= <-]. right. split; [|reflexivity].
    now apply paragraphs_loop_error in H.
  - rewrite orb_true_r. intros [= <-]. now left.
Qed.

End Errors.

(** *** The chunks are fresh and there is one at least *)

Lemma split_text_fresh (max_chunk_size : Z) (text : str) (chunks : list TextChunk.t) :
  split_text max_chunk_size text = Ok chunks -> Forall fresh_chunk chunks.
Proof.
  intros H. pose proof (split_text_cases _ _ _ H) as (_ & pieces & Htext & _ & Hink & _).
  apply split_text_inv in H as (pieces' & _ & ->).
  rewrite map_map in Htext. cbn [TextChunk.text TextChunk.init] in Htext.
  apply Forall_forall. intros chunk Hin.
  apply in_map_iff in Hin as ([i p] & <- & Hin).
  assert (Hp : has_ink p = true).
  { assert (Hs : In (strip p) (map strip pieces)).
    { rewrite <- Htext. apply in_map_iff. exists (i, p). auto. }
    apply in_map_iff in Hs as (q & Hq & Hq').
    rewrite Forall_forall in Hink. specialize (Hink q Hq').
    rewrite <- (has_ink_strip p), <- Hq, has_ink_strip. exact Hink. }
  unfold fresh_chunk. cbn [TextChunk.text TextChunk.init TextChunk.length
    TextChunk.processed TextChunk.audio_file fst snd].
  assert (Hne : strip p <> []).
  { intros Hnil. rewrite <- truthy_strip, Hnil in Hp. discriminate. }
  repeat split; auto.
  - apply strip_idem.
  - destruct (strip p); [congruence|]. unfold len. simpl. lia.
Qed.

(** X6. Every chunk of [split_text] has a text that is not empty and
    neither begins nor ends with whitespace, a [length] of one at
    least, equal to the length of its text, and is pending: not
    processed, without audio file. *)
Theorem chunks_are_fresh (max_chunk_size : Z) (text : str) (chunks : list TextChunk.t) :
  split_text max_chunk_size text = Ok chunks -> Forall fresh_chunk chunks.
Proof. apply split_text_fresh. Qed.

Lemma chunks_are_fresh_witness :
  split_text 20 ellipsis_text = Ok ellipsis_chunks /\ Forall fresh_chunk ellipsis_chunks.
Proof.
  split; [vm_compute; reflexivity|].
  apply (chunks_are_fresh 20 ellipsis_text ellipsis_chunks). vm_compute. reflexivity.
Defined.

(** *** There is a chunk at least *)

Lemma content_exists (l : list str) :
  content_of l <> [] -> Exists (fun s => has_ink s = true) l.
Proof.
  unfold content_of. induction l as [|s l IH]; cbn [flat_map]; [congruence|].
  intros H. destruct (has_ink s) eqn:E; [now left|].
  right. apply IH. now rewrite (non_space_blank s E) in H.
Qed.

Lemma ink_content (s : str) : has_ink s = true -> non_space s <> [].
Proof. rewrite has_ink_non_space. now destruct (non_space s). Qed.

Lemma ink_nonempty (s : str) : has_ink s = true -> s <> [].
Proof. now destruct s. Qed.

Lemma seal_produced (out : list str * str) :
  produced out -> seal (fst out) (snd out) <> [].
Proof.
  destruct out as [chunks current]. unfold produced, seal. cbn [fst snd].
  intros [H|H].
  - destruct (truthy current); [|exact H]. destruct chunks; [congruence|discriminate].
  - destruct current; [congruence|]. cbn [truthy]. destruct chunks; discriminate.
Qed.

Lemma hard_cut_nonempty (max_chunk_size : Z) (word : str) (parts : list str) :
  (0 < max_chunk_size)%Z -> word <> [] ->
  hard_cut max_chunk_size word = Ok parts -> parts <> [].
Proof.
  intros Hpos Hw H. apply hard_cut_inv in H as [[Hneg _]|[_ ->]]; [lia|].
  assert (Hlen : (1 <= len word)%Z).
  { destruct word; [congruence|]. unfold len. cbn [length]. lia. }
  assert (Hn : (1 <= (len word + max_chunk_size - 1) / max_chunk_size)%Z).
  { apply Z.div_le_lower_bound; lia. }
  destruct (Z.to_nat ((len word + max_chunk_size - 1) / max_chunk_size)) eqn:E; [lia|].
  discriminate.
Qed.

Lemma handed_back_produced (max_chunk_size : Z) (chunks sub : list str) :
  sub <> [] -> Forall (good max_chunk_size) sub ->
  produced (chunks ++ all_but_last sub, last_or_empty sub).
Proof.
  intros Hne Hgood. right. cbn [snd]. unfold last_or_empty.
  destruct (exists_last Hne) as (l & a & ->). rewrite last_last.
  apply Forall_app in Hgood as [_ Hgood]. inversion Hgood as [|? ? [_ Hink] _]; subst.
  now apply ink_nonempty.
Qed.

Lemma run_length_nth (p : char -> bool) (s : str) : forall n,
  (n < run_length p s)%nat -> exists c, nth_error s n = Some c /\ p c = true.
Proof.
  induction s as [|a s IH]; intros n Hn; cbn [run_length] in Hn; [lia|].
  destruct (p a) eqn:E; [|lia].
  destruct n as [|n]; [exists a; auto|]. cbn [nth_error]. apply IH. lia.
Qed.

Lemma sentence_endings_ends_in_space : ends_in_space sentence_endings.
Proof.
  intros s n. unfold sentence_endings. cbv zeta.
  set (a := run_length is_terminator s). set (b := run_length is_space (skipn a s)).
  destruct (Nat.ltb_spec 0 a); destruct (Nat.ltb_spec 0 b); cbn [andb]; try discriminate.
  intros [= E].
  destruct (run_length_nth is_space (skipn a s) (b - 1)) as (c & Hc & Hsp); [fold b; lia|].
  exists c. split; [|exact Hsp]. rewrite nth_error_skipn in Hc.
  replace n with (a + (b - 1))%nat by lia. exact Hc.
Qed.

Lemma re_split_go_nonempty (m : matcher) (s : str) (skip : nat) (piece : str) :
  re_split_go m skip piece s <> [].
Proof.
  intros E. apply (f_equal (@length _)) in E.
  rewrite re_split_findall_length in E. discriminate.
Qed.

Lemma last_cons_nonempty {A} (x : A) (l : list A) (d : A) :
  l <> [] -> last (x :: l) d = last l d.
Proof. destruct l; [congruence|reflexivity]. Qed.

Lemma nth_error_one (c sp : char) (k : nat) :
  nth_error [c] k = Some sp -> is_space sp = true -> is_space c = false -> False.
Proof.
  destruct k as [|[|k]]; cbn; try discriminate. intros [= ->]. congruence.
Qed.

(** When the text ends with a character that is not whitespace and the
    matches of the pattern end with whitespace, no match reaches the
    end of the text: the last piece holds the last character. *)
Lemma re_split_go_last (m : matcher) (Hm : ends_in_space m) (s : str) :
  forall skip piece,
  is_space (last s space) = false ->
  (forall k, skip = S k -> exists c, nth_error s k = Some c /\ is_space c = true) ->
  has_ink (last (re_split_go m skip piece s) []) = true.
Proof.
  induction s as [|c s IH]; intros skip piece Hlast Hskip; [discriminate|].
  destruct s as [|d s].
  - cbn [last] in Hlast. cbn [re_split_go].
    destruct skip as [|k].
    + destruct (m [c]) as [[|k]|] eqn:Hmatch.
      * cbn [last]. rewrite has_ink_rev. cbn. now rewrite Hlast.
      * apply Hm in Hmatch as (sp & Hsp & Hspace). exfalso. eapply nth_error_one; eauto.
      * cbn [last]. rewrite has_ink_rev. cbn. now rewrite Hlast.
    + destruct (Hskip k eq_refl) as (sp & Hsp & Hspace). exfalso.
      eapply nth_error_one; eauto.
  - change (last (c :: d :: s) space) with (last (d :: s) space) in Hlast.
    change (re_split_go m skip piece (c :: d :: s)) with
      (match skip with
       | S k => re_split_go m k piece (d :: s)
       | O => match m (c :: d :: s) with
              | Some (S k) => rev piece :: re_split_go m k [] (d :: s)
              | _ => re_split_go m O (c :: piece) (d :: s)
              end
       end).
    destruct skip as [|k].
    + destruct (m (c :: d :: s)) as [[|k]|] eqn:Hmatch.
      * apply IH; [exact Hlast|discriminate].
      * rewrite last_cons_nonempty by apply re_split_go_nonempty.
        apply IH; [exact Hlast|]. intros k' ->.
        apply Hm in Hmatch as (sp & Hsp & Hspace). exists sp. split; [exact Hsp|exact Hspace].
      * apply IH; [exact Hlast|discriminate].
    + apply IH; [exact Hlast|]. intros k' ->.
      destruct (Hskip _ eq_refl) as (sp & Hsp & Hspace). exists sp. split; [exact Hsp|exact Hspace].
Qed.

Lemma strip_last (s : str) : has_ink s = true -> is_space (last (strip s) space) = false.
Proof.
  intros Hink. unfold strip, rstrip.
  destruct (lstrip_head (rev (lstrip s))) as [E|(c & rest & E & Hc)].
  - assert (H : has_ink (lstrip (rev (lstrip s))) = true)
      by now rewrite has_ink_lstrip, has_ink_rev, has_ink_lstrip.
    rewrite E in H. discriminate.
  - rewrite E. cbn [rev]. now rewrite last_last.
Qed.

Lemma stripped_last (s : str) :
  stripped s -> has_ink s = true -> is_space (last s space) = false.
Proof. intros Hs Hink. rewrite <- Hs. now apply strip_last. Qed.

(** The sentence level has something to pack: the last sentence of a
    trimmed text is not blank. *)
Lemma sentence_parts_ink (text : str) :
  stripped text -> has_ink text = true ->
  Exists (fun s => has_ink s = true) (sentence_parts text).
Proof.
  intros Hs Hink. unfold sentence_parts. cbv zeta.
  assert (H : has_ink (last (re_split sentence_endings text) []) = true).
  { apply (re_split_go_last _ sentence_endings_ends_in_space);
      [now apply stripped_last|discriminate]. }
  rewrite truthy_strip, H. apply Exists_app. right. now left.
Qed.

Section AtLeastOne.

Variable max_chunk_size : Z.
Hypothesis size_positive : (0 < max_chunk_size)%Z.

Lemma potential_nonempty (sep current unit : str) :
  unit <> [] -> potential sep current unit <> [].
Proof.
  intros Hne E. unfold potential in E.
  apply app_eq_nil in E as [_ E]. apply app_eq_nil in E as [_ E]. contradiction.
Qed.

Lemma skip_blank (unit : str) (rest : list str) (st : list str * str) :
  has_ink unit = false ->
  produced st \/ Exists (fun w => has_ink w = true) (unit :: rest) ->
  produced st \/ Exists (fun w => has_ink w = true) rest.
Proof.
  intros Hblank [H|H]; [now left|].
  inversion H; subst; [congruence|now right].
Qed.

Lemma words_loop_produced (words : list str) : forall chunks current out,
  words_loop max_chunk_size words chunks current = Ok out ->
  produced (chunks, current) \/ Exists (fun w => has_ink w = true) words ->
  produced out.
Proof.
  induction words as [|word rest IH]; intros chunks current out H Hst.
  - injection H as <-. destruct Hst as [Hst|Hst]; [exact Hst|inversion Hst].
  - cbn [words_loop] in H. cbv zeta in H. rewrite truthy_strip in H.
    destruct (has_ink word) eqn:Hink; cbn [negb] in H.
    + pose proof (ink_nonempty _ Hink) as Hne.
      destruct (len (potential [space] current word) <=? max_chunk_size)%Z.
      * refine (IH _ _ _ H _). left. right. now apply potential_nonempty.
      * destruct (len word >? max_chunk_size)%Z.
        -- destruct (hard_cut max_chunk_size word) as [parts|e] eqn:Hcut; [|discriminate].
           refine (IH _ _ _ H _). left. left. cbn [fst]. intros E.
           apply app_eq_nil in E as [_ E].
           now apply (hard_cut_nonempty _ _ _ size_positive Hne Hcut).
        -- refine (IH _ _ _ H _). left. right. exact Hne.
    + refine (IH _ _ _ H _). now apply (skip_blank word).
Qed.

Lemma _split_by_words_nonempty (text : str) (chunks : list str) :
  has_ink text = true ->
  _split_by_words max_chunk_size text = Ok chunks -> chunks <> [].
Proof.
  intros Hink. unfold _split_by_words.
  destruct (words_loop _ _ _ _) as [out|e] eqn:Hloop; [|discriminate].
  intros [= <-]. apply seal_produced.
  apply words_loop_produced in Hloop; [exact Hloop|].
  right. apply content_exists.
  rewrite re_split_content by apply word_boundaries_whitespace.
  now apply ink_content.
Qed.

Lemma sentences_loop_produced (sentences : list str) : forall chunks current out,
  sentences_loop max_chunk_size sentences chunks current = Ok out ->
  produced (chunks, current) \/ Exists (fun w => has_ink w = true) sentences ->
  produced out.
Proof.
  induction sentences as [|sentence rest IH]; intros chunks current out H Hst.
  - injection H as <-. destruct Hst as [Hst|Hst]; [exact Hst|inversion Hst].
  - cbn [sentences_loop] in H. cbv zeta in H. rewrite truthy_strip in H.
    destruct (has_ink sentence) eqn:Hink; cbn [negb] in H.
    + assert (Hink' : has_ink (strip sentence) = true) by now rewrite has_ink_strip.
      pose proof (ink_nonempty _ Hink') as Hne.
      destruct (len (potential [space] current (strip sentence)) <=? max_chunk_size)%Z.
      * refine (IH _ _ _ H _). left. right. now apply potential_nonempty.
      * destruct (len (strip sentence) >? max_chunk_size)%Z.
        -- destruct (_split_by_words max_chunk_size (strip sentence)) as [sub|e] eqn:Hsub;
             [|discriminate].
           refine (IH _ _ _ H _). left.
           apply (handed_back_produced max_chunk_size).
           ++ now apply (_split_by_words_nonempty (strip sentence)).
           ++ now apply (_split_by_words_good max_chunk_size (strip sentence)).
        -- refine (IH _ _ _ H _). left. right. exact Hne.
    + refine (IH _ _ _ H _). now apply (skip_blank sentence).
Qed.

Lemma _split_by_sentences_nonempty (text : str) (chunks : list str) :
  stripped text -> has_ink text = true ->
  _split_by_sentences max_chunk_size text = Ok chunks -> chunks <> [].
Proof.
  intros Hs Hink. unfold _split_by_sentences.
  destruct (sentences_loop _ _ _ _) as [out|e] eqn:Hloop; [|discriminate].
  intros [= <-]. apply seal_produced.
  apply sentences_loop_produced in Hloop; [exact Hloop|].
  right. now apply sentence_parts_ink.
Qed.

Lemma paragraphs_loop_produced (paragraphs : list str) : forall chunks current out,
  paragraphs_loop max_chunk_size paragraphs chunks current = Ok out ->
  produced (chunks, current) \/ Exists (fun w => has_ink w = true) paragraphs ->
  produced out.
Proof.
  induction paragraphs as [|paragraph rest IH]; intros chunks current out H Hst.
  - injection H as <-. destruct Hst as [Hst|Hst]; [exact Hst|inversion Hst].
  - cbn [paragraphs_loop] in H. cbv zeta in H. rewrite truthy_strip in H.
    destruct (has_ink paragraph) eqn:Hink; cbn [negb] in H.
    + assert (Hink' : has_ink (strip paragraph) = true) by now rewrite has_ink_strip.
      pose proof (ink_nonempty _ Hink') as Hne.
      destruct (len (potential [newline; newline] current (strip paragraph))
                <=? max_chunk_size)%Z.
      * refine (IH _ _ _ H _). left. right. now apply potential_nonempty.
      * destruct (len (strip paragraph) >? max_chunk_size)%Z.
        -- destruct (_split_by_sentences max_chunk_size (strip paragraph))
             as [sub|e] eqn:Hsub; [|discriminate].
           refine (IH _ _ _ H _). left.
           apply (handed_back_produced max_chunk_size).
           ++ apply (_split_by_sentences_nonempty (strip paragraph));
                [apply strip_idem|exact Hink'|exact Hsub].
           ++ now apply (_split_by_sentences_good max_chunk_size (strip paragraph)).
        -- refine (IH _ _ _ H _). left. right. exact Hne.
    + refine (IH _ _ _ H _). now apply (skip_blank paragraph).
Qed.

Lemma _split_into_chunks_nonempty (text : str) (chunks : list str) :
  has_ink text = true ->
  _split_into_chunks max_chunk_size text = Ok chunks -> chunks <> [].
Proof.
  intros Hink. unfold _split_into_chunks.
  destruct (paragraphs_loop _ _ _ _) as [out|e] eqn:Hloop; [|discriminate].
  intros [= <-]. apply seal_produced.
  apply paragraphs_loop_produced in Hloop; [exact Hloop|].
  right. apply content_exists.
  rewrite re_split_content by apply paragraph_breaks_whitespace.
  now apply ink_content.
Qed.

Lemma preprocess_ink (text : str) : has_ink (_preprocess_text text) = has_ink text.
Proof. now rewrite !has_ink_non_space, preprocess_content. Qed.

(** A text that is not blank gives chunks, and one at least. *)
Lemma split_text_chunks (text : str) :
  has_ink text = true ->
  exists chunks, split_text max_chunk_size text = Ok chunks /\ chunks <> [].
Proof.
  intros Hink.
  destruct (split_text_total max_chunk_size ltac:(lia) text Hink) as [chunks H].
  exists chunks. split; [exact H|].
  apply split_text_cases in H as (_ & pieces & _ & Hlen & _ & [[_ ->]|[_ Hsplit]]).
  - now destruct chunks.
  - apply _split_into_chunks_nonempty in Hsplit; [|now rewrite preprocess_ink].
    destruct chunks; [|discriminate]. destruct pieces; [congruence|discriminate].
Qed.

End AtLeastOne.

(** *** A chunk size of zero *)

Lemma len_le_zero (s : str) : s <> [] -> (len s <=? 0)%Z = false.
Proof.
  intros Hne. destruct s; [congruence|]. apply Z.leb_gt. unfold len. cbn [length]. lia.
Qed.

Lemma len_gt_zero (s : str) : s <> [] -> (len s >? 0)%Z = true.
Proof.
  intros Hne. destruct s; [congruence|]. apply Z.gtb_lt. unfold len. cbn [length]. lia.
Qed.

Lemma words_loop_zero (words : list str) : forall chunks current,
  Exists (fun w => has_ink w = true) words ->
  words_loop 0 words chunks current = Err ValueError.
Proof.
  induction words as [|word rest IH]; intros chunks current Hex; [inversion Hex|].
  cbn [words_loop]. cbv zeta. rewrite truthy_strip.
  destruct (has_ink word) eqn:Hink; cbn [negb].
  - pose proof (ink_nonempty _ Hink) as Hne.
    now rewrite (len_le_zero _ (potential_nonempty _ _ _ Hne)), (len_gt_zero _ Hne).
  - apply IH. inversion Hex; subst; [congruence|assumption].
Qed.

Lemma _split_by_words_zero (text : str) :
  has_ink text = true -> _split_by_words 0 text = Err ValueError.
Proof.
  intros Hink. unfold _split_by_words. rewrite words_loop_zero; [reflexivity|].
  apply content_exists.
  rewrite re_split_content by apply word_boundaries_whitespace.
  now apply ink_content.
Qed.

Lemma sentences_loop_zero (sentences : list str) : forall chunks current,
  Exists (fun w => has_ink w = true) sentences ->
  sentences_loop 0 sentences chunks current = Err ValueError.
Proof.
  induction sentences as [|sentence rest IH]; intros chunks current Hex; [inversion Hex|].
  cbn [sentences_loop]. cbv zeta. rewrite truthy_strip.
  destruct (has_ink sentence) eqn:Hink; cbn [negb].
  - assert (Hink' : has_ink (strip sentence) = true) by now rewrite has_ink_strip.
    pose proof (ink_nonempty _ Hink') as Hne.
    rewrite (len_le_zero _ (potential_nonempty _ _ _ Hne)), (len_gt_zero _ Hne).
    now rewrite _split_by_words_zero.
  - apply IH. inversion Hex; subst; [congruence|assumption].
Qed.

Lemma _split_by_sentences_zero (text : str) :
  stripped text -> has_ink text = true -> _split_by_sentences 0 text = Err ValueError.
Proof.
  intros Hs Hink. unfold _split_by_sentences. rewrite sentences_loop_zero; [reflexivity|].
  now apply sentence_parts_ink.
Qed.

Lemma paragraphs_loop_zero (paragraphs : list str) : forall chunks current,
  Exists (fun w => has_ink w = true) paragraphs ->
  paragraphs_loop 0 paragraphs chunks current = Err ValueError.
Proof.
  induction paragraphs as [|paragraph rest IH]; intros chunks current Hex; [inversion Hex|].
  cbn [paragraphs_loop]. cbv zeta. rewrite truthy_strip.
  destruct (has_ink paragraph) eqn:Hink; cbn [negb].
  - assert (Hink' : has_ink (strip paragraph) = true) by now rewrite has_ink_strip.
    pose proof (ink_nonempty _ Hink') as Hne.
    rewrite (len_le_zero _ (potential_nonempty _ _ _ Hne)), (len_gt_zero _ Hne).
    now rewrite _split_by_sentences_zero by (apply strip_idem || exact Hink').
  - apply IH. inversion Hex; subst; [congruence|assumption].
Qed.

Lemma split_text_zero (text : str) :
  has_ink text = true -> split_text 0 text = Err ValueError.
Proof.
  intros Hink. unfold split_text. rewrite truthy_strip, Hink.
  destruct text as [|c text]; [discriminate|]. cbn [truthy negb orb].
  assert (Hink' : has_ink (_preprocess_text (c :: text)) = true)
    by now rewrite preprocess_ink.
  rewrite (len_le_zero _ (ink_nonempty _ Hink')).
  unfold _split_into_chunks. rewrite paragraphs_loop_zero; [reflexivity|].
  apply content_exists.
  rewrite re_split_content by apply paragraph_breaks_whitespace.
  now apply ink_content.
Qed.

(** X7. The errors of [split_text]: it raises [TextProcessorError]
    exactly when the text has no character that is not whitespace, it
    raises [ValueError] exactly when the text is not blank and the
    chunk size is zero, and it raises nothing else. *)
Theorem split_text_errors (max_chunk_size : Z) (text : str) :
  (split_text max_chunk_size text = Err (TextProcessorError EmptyText)
   <-> has_ink text = false) /\
  (split_text max_chunk_size text = Err ValueError
   <-> has_ink text = true /\ max_chunk_size = 0%Z) /\
  (forall e, split_text max_chunk_size text = Err e ->
     e = TextProcessorError EmptyText \/ e = ValueError).
Proof.
  split; [split|split; [split|]].
  - intros H. apply split_text_error_cases in H as [[_ H]|[[H _] _]];
      [exact H|discriminate].
  - intros Hink. unfold split_text. now rewrite truthy_strip, Hink, orb_true_r.
  - intros H. apply split_text_error_cases in H as [[H _]|[[_ H] Hink]];
      [discriminate|auto].
  - intros [Hink ->]. now apply split_text_zero.
  - intros e H. apply split_text_error_cases in H as [[H _]|[[H _] _]]; auto.
Qed.

(** X8. A text that is not blank is always chunked: for a positive
    chunk size and a text with a character that is not whitespace,
    [split_text] returns, and returns one chunk at least. *)
Theorem split_text_returns_chunks (max_chunk_size : Z) (text : str) :
  (0 < max_chunk_size)%Z -> has_ink text = true ->
  exists chunks, split_text max_chunk_size text = Ok chunks /\ chunks <> [].
Proof. intros Hpos Hink. now apply split_text_chunks. Qed.

Lemma split_text_returns_chunks_witness :
  exists chunks, split_text 20 ellipsis_text = Ok chunks /\ chunks <> [].
Proof.
  apply (split_text_returns_chunks 20 ellipsis_text); [lia|vm_compute; reflexivity].
Defined.

End ChunkerFacts.

(** ** Properties of [TextProcessor] *)

Module ProcessorFacts.

Import TextSplitter TextSpec ChunkerSpec TextFacts ChunkerFacts TextProcessor.

Lemma first_empty_fresh (chunks : list TextChunk.t) :
  Forall fresh_chunk chunks -> first_empty_chunk chunks = None.
Proof.
  induction 1 as [|chunk rest (_ & _ & _ & Hlen & _) _ IH]; [reflexivity|].
  cbn [first_empty_chunk].
  destruct (Z.eqb_spec (TextChunk.length chunk) 0) as [E|_]; [lia|exact IH].
Qed.

Lemma fresh_validates (chunks : list TextChunk.t) :
  chunks <> [] -> Forall fresh_chunk chunks -> _validate_chunks chunks = None.
Proof.
  intros Hne Hfresh. unfold _validate_chunks.
  destruct chunks; [congruence|]. now rewrite first_empty_fresh.
Qed.

Lemma blank_test (text : str) :
  negb (truthy text) || negb (truthy (strip text)) = negb (has_ink text).
Proof.
  rewrite truthy_strip. destruct text as [|c text]; [reflexivity|].
  reflexivity.
Qed.

Lemma process_text_ok (max_chunk_size : Z) (stats : Counters) (text : str) :
  (0 < max_chunk_size)%Z -> has_ink text = true ->
  exists chunks,
    split_text max_chunk_size text = Ok chunks /\ chunks <> [] /\
    process_text max_chunk_size stats text
    = (inl chunks, add_processed stats chunks text).
Proof.
  intros Hpos Hink.
  destruct (split_text_chunks max_chunk_size Hpos text Hink) as (chunks & Hrun & Hne).
  exists chunks. split; [exact Hrun|]. split; [exact Hne|].
  unfold process_text. rewrite blank_test, Hink, Hrun. cbn [negb]. cbv zeta.
  now rewrite (fresh_validates chunks Hne (split_text_fresh _ _ _ Hrun)).
Qed.

(** X9. A text that is not blank is processed: for a positive chunk
    size, [process_text] returns the chunks of [split_text], one at
    least, the validation of the chunks never fails, and the counters
    grow by one text, by the number of chunks and by the length of the
    text as it was passed. *)
Theorem process_text_succeeds (max_chunk_size : Z) (stats : Counters) (text : str) :
  (0 < max_chunk_size)%Z -> has_ink text = true ->
  exists chunks,
    split_text max_chunk_size text = Ok chunks /\ chunks <> [] /\
    process_text max_chunk_size stats text
    = (inl chunks, add_processed stats chunks text).
Proof. apply process_text_ok. Qed.

Lemma process_text_succeeds_witness :
  exists chunks,
    split_text 20 ellipsis_text = Ok chunks /\ chunks <> [] /\
    process_text 20 reset_stats ellipsis_text
    = (inl chunks, add_processed reset_stats chunks ellipsis_text).
Proof.
  apply (process_text_succeeds 20 reset_stats ellipsis_text);
    [lia|vm_compute; reflexivity].
Defined.

(** X10. The failures of [process_text].  A blank text is refused before
    anything is counted; a chunk size of zero makes the splitter raise
    [ValueError], and nothing is counted; the validation fails only
    for want of chunks, only with a chunk size that is not positive,
    and then the text has been counted already.  No chunk is ever
    found empty. *)
Theorem process_text_failures (max_chunk_size : Z) (stats stats' : Counters)
  (text : str) (err : processing_error) :
  process_text max_chunk_size stats text = (inr err, stats') ->
  err = BlankText /\ has_ink text = false /\ stats' = stats \/
  err = SplitterRaised ValueError /\ max_chunk_size = 0%Z /\ has_ink text = true /\
    stats' = stats \/
  err = ValidationFailed NoChunks /\ (max_chunk_size < 0)%Z /\ has_ink text = true /\
    stats' = add_processed stats [] text.
Proof.
  unfold process_text. rewrite blank_test.
  destruct (has_ink text) eqn:Hink; cbn [negb].
  - destruct (split_text max_chunk_size text) as [chunks|e] eqn:Hrun.
    + cbv zeta.
      destruct (Z.ltb_spec 0 max_chunk_size) as [Hpos|Hneg].
      * destruct (split_text_chunks max_chunk_size Hpos text Hink) as (chunks' & Hrun' & Hne).
        assert (chunks' = chunks) by congruence. subst chunks'.
        now rewrite (fresh_validates chunks Hne (split_text_fresh _ _ _ Hrun)).
      * pose proof (split_text_fresh _ _ _ Hrun) as Hfresh.
        unfold _validate_chunks. destruct chunks as [|chunk rest].
        -- intros [= <- <-]. right. right. repeat split; auto.
           destruct (Z.eq_dec max_chunk_size 0) as [->|]; [|lia].
           rewrite (split_text_zero text Hink) in Hrun. discriminate.
        -- now rewrite first_empty_fresh.
    + intros [= <- <-].
      apply split_text_error_cases in Hrun as [[_ Hblank]|[[-> ->] _]]; [congruence|].
      right. left. auto.
  - intros [= <- <-]. left. auto.
Qed.

Lemma process_text_failures_witness :
  process_text (-1) reset_stats (of_string "hello")
  = (inr (ValidationFailed NoChunks), add_processed reset_stats [] (of_string "hello")) /\
  (-1 < 0)%Z.
Proof.
  split; [vm_compute; reflexivity|].
  destruct (process_text_failures (-1) reset_stats
              (add_processed reset_stats [] (of_string "hello"))
              (of_string "hello") (ValidationFailed NoChunks))
    as [(E & _)|[(E & _)|(_ & H & _)]];
    [vm_compute; reflexivity|discriminate E|discriminate E|exact H].
Defined.

(** X11. Validation is enough: a text that [validate_text_for_processing]
    accepts is never refused by [process_text]; with a positive chunk
    size it comes back as one chunk at least. *)
Theorem validated_text_is_processed (is_letter : char -> bool) (max_chunk_size : Z)
  (stats : Counters) (text : str) :
  (0 < max_chunk_size)%Z ->
  validate_text_for_processing is_letter text = true ->
  exists chunks,
    chunks <> [] /\
    process_text max_chunk_size stats text
    = (inl chunks, add_processed stats chunks text).
Proof.
  intros Hpos Hvalid.
  assert (Hink : has_ink text = true).
  { unfold validate_text_for_processing in Hvalid.
    destruct (negb (truthy text)); [discriminate|]. cbv zeta in Hvalid.
    destruct (Z.ltb_spec (len (strip text)) 10) as [|Hlen]; [discriminate|].
    rewrite <- truthy_strip. destruct (strip text); [|reflexivity].
    unfold len in Hlen. cbn [length] in Hlen. lia. }
  destruct (process_text_ok max_chunk_size stats text Hpos Hink) as (chunks & _ & Hne & H).
  eauto.
Qed.

Lemma validated_text_is_processed_witness :
  exists chunks,
    chunks <> [] /\
    process_text 20 reset_stats ellipsis_text
    = (inl chunks, add_processed reset_stats chunks ellipsis_text).
Proof.
  apply (validated_text_is_processed latin 20 reset_stats ellipsis_text);
    [lia|vm_compute; reflexivity].
Defined.

End ProcessorFacts.

(** ** Properties of [clean_text_for_synthesis] *)

Module CleanFacts.

Import TextSplitter TextSpec ChunkerSpec TextFacts ChunkerFacts Synthesizer CleanSpec.

Lemma existsb_rev_eq (q : char -> bool) (s : str) : existsb q (rev s) = existsb q s.
Proof.
  induction s as [|c s IH]; [reflexivity|]. cbn [rev existsb].
  rewrite existsb_app, IH. cbn [existsb]. rewrite orb_false_r. apply orb_comm.
Qed.

Lemma existsb_class (q p : char -> bool) (b : bool) (run : str) :
  (forall c, p c = true -> q c = b) ->
  Forall (fun c => p c = true) run -> run <> [] -> existsb q run = b.
Proof.
  intros Hq Hrun Hne. induction Hrun as [|c run Hc Hrun IH]; [congruence|].
  cbn [existsb]. rewrite (Hq c Hc). destruct run as [|d run]; [apply orb_false_r|].
  rewrite IH by discriminate. now destruct b.
Qed.

(** A substitution of runs of a class by a text that is to [q] what the
    class is keeps whether some character satisfies [q]. *)
Lemma sub_runs_go_exists (q p : char -> bool) (k : nat) (repl : str) (b : bool) :
  (forall c, p c = true -> q c = b) -> existsb q repl = b ->
  forall s run, Forall (fun c => p c = true) run ->
  existsb q (sub_runs_go p k repl run s) = existsb q run || existsb q s.
Proof.
  intros Hq Hrepl.
  assert (Hflush : forall run, Forall (fun c => p c = true) run ->
            existsb q (flush_run k repl run) = existsb q run).
  { intros run Hrun. unfold flush_run. destruct run as [|c run]; [reflexivity|].
    destruct (k <=? _)%nat; [|apply existsb_rev_eq].
    rewrite Hrepl. symmetry. apply (existsb_class q p); auto. discriminate. }
  induction s as [|c s IH]; intros run Hrun; cbn [sub_runs_go].
  - rewrite (Hflush run Hrun). cbn [existsb]. now rewrite orb_false_r.
  - destruct (p c) eqn:E.
    + rewrite IH by now constructor. cbn [existsb].
      rewrite orb_assoc. f_equal. apply orb_comm.
    + rewrite existsb_app, (Hflush run Hrun). cbn [existsb].
      rewrite IH by constructor. reflexivity.
Qed.

Lemma sub_runs_exists (q p : char -> bool) (k : nat) (repl : str) (b : bool) (s : str) :
  (forall c, p c = true -> q c = b) -> existsb q repl = b ->
  existsb q (sub_runs p k repl s) = existsb q s.
Proof.
  intros Hq Hrepl. unfold sub_runs.
  now rewrite (sub_runs_go_exists q p k repl b Hq Hrepl s [] (Forall_nil _)).
Qed.

Lemma is_char_eq (c d : char) : is_char c d = true -> d = c.
Proof. unfold is_char. intros H. apply N.eqb_eq in H. congruence. Qed.

Lemma has_ink_kept (env : Env) (s : str) :
  has_ink (filter (is_kept env) s) = existsb (speakable env) s.
Proof.
  unfold has_ink. induction s as [|c s IH]; [reflexivity|].
  cbn [filter existsb]. unfold speakable at 1.
  destruct (is_kept env c); cbn [existsb andb orb]; now rewrite IH.
Qed.

(** Whether something is left of a text after the cleaning. *)
Lemma clean_text_truthy (env : Env) (text : str) :
  truthy (clean_text_for_synthesis env text) = existsb (speakable env) text.
Proof.
  unfold clean_text_for_synthesis. cbv zeta.
  rewrite truthy_strip, has_ink_kept.
  rewrite (sub_runs_exists _ _ _ _ (speakable env 63%N));
    [|intros c Hc; now rewrite (is_char_eq _ _ Hc)
     |cbn [existsb]; now rewrite orb_false_r].
  rewrite (sub_runs_exists _ _ _ _ (speakable env 33%N));
    [|intros c Hc; now rewrite (is_char_eq _ _ Hc)
     |cbn [existsb]; now rewrite orb_false_r].
  rewrite (sub_runs_exists _ _ _ _ (speakable env 46%N));
    [|intros c Hc; now rewrite (is_char_eq _ _ Hc)
     |cbn [existsb]; now destruct (speakable env 46%N)].
  apply (sub_runs_exists _ _ _ _ false).
  - intros c Hc. unfold speakable. rewrite Hc. apply andb_false_r.
  - cbn [existsb]. unfold speakable. change (is_space 32%N) with true.
    cbn [negb]. now rewrite andb_false_r.
Qed.

Lemma clean_text_stripped (env : Env) (text : str) :
  stripped (clean_text_for_synthesis env text).
Proof. apply strip_idem. Qed.

Lemma filter_kept_all (R : char -> Prop) (f : char -> bool) (s : str) :
  Forall R s -> Forall (fun c => f c = true /\ R c) (filter f s).
Proof.
  intros H. apply Forall_forall. intros c Hc. apply filter_In in Hc as [Hin Hf].
  rewrite Forall_forall in H. auto.
Qed.

(** X12. What the cleaning leaves: every character of
    [clean_text_for_synthesis text] is of the class the last
    substitution keeps, the only whitespace left is the space, and the
    result neither begins nor ends with whitespace. *)
Theorem clean_text_normal_form (env : Env) (text : str) :
  Forall (clean_char env) (clean_text_for_synthesis env text) /\
  stripped (clean_text_for_synthesis env text).
Proof.
  split; [|apply clean_text_stripped].
  unfold clean_text_for_synthesis. cbv zeta.
  apply strip_all. unfold clean_char.
  apply (filter_kept_all (fun c => is_space c = true -> c = 32%N)).
  assert (Hsign : forall c, is_space c = false ->
            Forall (fun c => is_space c = true -> c = 32%N) [c]).
  { intros c Hc. constructor; [congruence|constructor]. }
  unfold sub_runs.
  apply sub_runs_go_all; [now apply Hsign|constructor|].
  apply sub_runs_go_all; [now apply Hsign|constructor|].
  apply sub_runs_go_all; [repeat constructor; discriminate|constructor|].
  apply sub_runs_go_every; [repeat constructor|].
  apply Forall_forall. intros c _ Hc. congruence.
Qed.

(** X13. The cleaning leaves nothing exactly when the text has no
    character that is both of the kept class and not whitespace. *)
Theorem clean_text_empty (env : Env) (text : str) :
  clean_text_for_synthesis env text = [] <-> existsb (speakable env) text = false.
Proof.
  rewrite <- clean_text_truthy.
  destruct (clean_text_for_synthesis env text); cbn [truthy]; split;
    congruence || discriminate.
Qed.

(** X14. A chunk with nothing to say is refused before anything happens:
    for a pending chunk whose text has no character that is both kept
    and not whitespace, [synthesize_chunk] raises the error of the
    empty chunk, with the index of the chunk, and the state is as it
    was: no directory was made, the limiter was not asked, the SDK was
    not called, nothing was counted. *)
Theorem nothing_to_say_refused (env : Env) (self : SpeechSynthesizer)
  (chunk : TextChunk.t) (output_path : option str) (s : State) :
  TextChunk.processed chunk = false ->
  existsb (speakable env) (TextChunk.text chunk) = false ->
  synthesize_chunk env self chunk output_path s = (Err (nothing_to_say chunk), s).
Proof.
  intros Hp Hmute. unfold synthesize_chunk. rewrite Hp.
  assert (Hclean : truthy (strip (clean_text_for_synthesis env (TextChunk.text chunk)))
                   = false).
  { rewrite (clean_text_stripped env (TextChunk.text chunk)), clean_text_truthy.
    exact Hmute. }
  now rewrite Hclean.
Qed.

Lemma nothing_to_say_refused_witness :
  synthesize_chunk (SynthSpec.example_world Demo.always_ok) SynthSpec.example_synthesizer
    signs None SynthSpec.example_state
  = (Err (nothing_to_say signs), SynthSpec.example_state).
Proof.
  apply (nothing_to_say_refused (SynthSpec.example_world Demo.always_ok)
           SynthSpec.example_synthesizer signs None SynthSpec.example_state);
    vm_compute; reflexivity.
Defined.

End CleanFacts.

(** ** Further properties of the rate limiter *)

Module WaitFacts.

Import Synthesizer SynthSpec LimiterSpec.

#[local] Opaque Qplus Qmult Qminus Qdiv Qpower Qle_bool.



End WaitFacts.

(** ** Further properties of the token manager *)

Module TokenFacts.

Import Auth AuthSpec KeyLoading TokenSpec AuthFacts.

#[local] Opaque Qplus Qmult Qminus Qdiv Qpower Qfloor Qle_bool Z.mul Z.add of_string.

(** *** The key of the environment *)

Lemma restore_newlines_step (c d : char) (s : str) :
  restore_newlines (c :: d :: s)
  = if ((c =? backslash) && (d =? letter_n))%N
    then TextSplitter.newline :: restore_newlines s
    else c :: restore_newlines (d :: s).
Proof. reflexivity. Qed.

Lemma restore_newlines_plain (c : char) (s : str) :
  c <> backslash -> restore_newlines (c :: s) = c :: restore_newlines s.
Proof.
  intros Hc. destruct s as [|d s]; [reflexivity|].
  rewrite restore_newlines_step.
  destruct (N.eqb_spec c backslash); [contradiction|reflexivity].
Qed.

(** The restoring of the newlines undoes their escaping, in a text
    without backslash. *)
Lemma restore_escape (pem : str) :
  Forall (fun c => c <> backslash) pem ->
  restore_newlines (escape_newlines pem) = pem.
Proof.
  induction 1 as [|c pem Hc Hpem IH]; [reflexivity|].
  unfold escape_newlines in *. cbn [flat_map].
  destruct (N.eqb_spec c TextSplitter.newline) as [->|Hnl]; cbn [app].
  - rewrite restore_newlines_step. cbn [N.eqb andb]. rewrite N.eqb_refl. cbn [andb].
    now rewrite IH.
  - rewrite restore_newlines_plain by assumption. now rewrite IH.
Qed.

Lemma escape_nonempty (pem : str) : pem <> [] -> truthy (escape_newlines pem) = true.
Proof.
  destruct pem as [|c pem]; [congruence|]. intros _.
  unfold escape_newlines. cbn [flat_map].
  now destruct (c =? TextSplitter.newline)%N.
Qed.

Lemma str_eqb_refl (a : str) : str_eqb a a = true.
Proof. induction a as [|c a IH]; [reflexivity|]. cbn. now rewrite N.eqb_refl. Qed.

Lemma str_eqb_eq (a b : str) : str_eqb a b = true -> a = b.
Proof.
  revert b. induction a as [|c a IH]; intros [|d b]; cbn; try discriminate; auto.
  intros H. apply andb_prop in H as [Hc Ha]. apply N.eqb_eq in Hc.
  now rewrite Hc, (IH b Ha).
Qed.

(** X16. A key put in the environment with its newlines escaped is
    loaded as it was: with the key id and the service account set and
    not empty, the private key, a text without backslash, written with
    each newline as a backslash and [n], and no algorithm set,
    [_load_key] returns the key with these ids, the private key with
    its newlines, and the algorithm RSA_2048. *)
Theorem escaped_key_is_loaded (getenv : str -> option str) (key_id account pem : str) :
  getenv (of_string "YANDEX_KEY_ID") = Some key_id -> key_id <> [] ->
  getenv (of_string "YANDEX_SERVICE_ACCOUNT_ID") = Some account -> account <> [] ->
  getenv (of_string "YANDEX_PRIVATE_KEY") = Some (escape_newlines pem) -> pem <> [] ->
  Forall (fun c => c <> backslash) pem ->
  getenv (of_string "YANDEX_KEY_ALGORITHM") = None ->
  exists key,
    _load_key getenv = inl key /\
    id key = key_id /\ service_account_id key = account /\
    private_key key = pem /\ key_algorithm key = rsa_2048.
Proof.
  intros Hid Hid' Hacc Hacc' Hkey Hpem Hplain Halg.
  unfold _load_key. rewrite Hid, Hacc, Hkey, Halg. cbv zeta.
  cbn [set_and_not_empty]. rewrite (escape_nonempty pem Hpem).
  destruct key_id; [congruence|]. destruct account; [congruence|].
  cbn [truthy andb]. unfold _validate_key. cbn [key_algorithm].
  rewrite str_eqb_refl. eexists. split; [reflexivity|].
  cbn [id service_account_id private_key key_algorithm].
  repeat split. now apply restore_escape.
Qed.

Lemma escaped_key_is_loaded_witness :
  exists key,
    _load_key example_getenv = inl key /\
    id key = of_string "key-id" /\ service_account_id key = of_string "account-id" /\
    private_key key = example_pem /\ key_algorithm key = rsa_2048.
Proof.
  apply (escaped_key_is_loaded example_getenv (of_string "key-id")
           (of_string "account-id") example_pem);
    try (vm_compute; reflexivity); try (vm_compute; discriminate).
  repeat (constructor; [vm_compute; discriminate|]). constructor.
Defined.

Lemma init_fresh (getenv : str -> option str) (tm : TokenManager) :
  TokenManager_init getenv = inl tm ->
  key_data tm <> None /\ iam_token tm = JNull /\ token_expires_at tm = None.
Proof.
  unfold TokenManager_init. destruct (_load_key getenv) as [key|why]; [|discriminate].
  intros [= <-]. cbn. repeat split. discriminate.
Qed.

(** X17. The construction of a token manager fails exactly when one of
    the three variables of the key is not set or is empty, or when the
    variable of the algorithm is set to something else than RSA_2048;
    a manager that is constructed holds the key and neither token nor
    expiry. *)
Theorem manager_construction (getenv : str -> option str) :
  ((exists why, TokenManager_init getenv = inr why) <->
   set_and_not_empty (getenv (of_string "YANDEX_KEY_ID"))
   && set_and_not_empty (getenv (of_string "YANDEX_SERVICE_ACCOUNT_ID"))
   && set_and_not_empty (getenv (of_string "YANDEX_PRIVATE_KEY")) = false \/
   exists algorithm,
     getenv (of_string "YANDEX_KEY_ALGORITHM") = Some algorithm /\
     algorithm <> rsa_2048) /\
  (forall tm, TokenManager_init getenv = inl tm ->
     key_data tm <> None /\ iam_token tm = JNull /\ token_expires_at tm = None).
Proof.
  unfold TokenManager_init, _load_key. cbv zeta.
  destruct (getenv (of_string "YANDEX_KEY_ID")) as [key_id|];
    destruct (getenv (of_string "YANDEX_SERVICE_ACCOUNT_ID")) as [account|];
    destruct (getenv (of_string "YANDEX_PRIVATE_KEY")) as [private|];
    cbn [set_and_not_empty andb];
    try rewrite !andb_false_r;
    try (split; [split; [auto|intros _; eexists; reflexivity]|discriminate]).
  destruct (truthy key_id && truthy account && truthy private) eqn:Hset.
  2:{ split; [split; [auto|intros _; eexists; reflexivity]|discriminate]. }
  unfold _validate_key. cbn [key_algorithm].
  destruct (getenv (of_string "YANDEX_KEY_ALGORITHM")) as [algorithm|].
  - destruct (str_eqb algorithm rsa_2048) eqn:Halg.
    + apply str_eqb_eq in Halg. split.
      * split; [intros [why H]; discriminate|].
        intros [H|(a & [= <-] & Ha)]; [discriminate|contradiction].
      * intros tm [= <-]. cbn. repeat split. discriminate.
    + split; [|discriminate]. split; [|intros _; eexists; reflexivity].
      intros _. right. exists algorithm. split; [reflexivity|].
      intros ->. now rewrite str_eqb_refl in Halg.
  - rewrite str_eqb_refl. split.
    + split; [intros [why H]; discriminate|].
      intros [H|(a & H & _)]; discriminate.
    + intros tm [= <-]. cbn. repeat split. discriminate.
Qed.

(** *** The exchange *)

(** What a fetch that returns has done. *)
Lemma fetch_iam_token_ok (env : Env) (s : State) :
  match fetch_iam_token env s with
  | (Ok token, s') =>
      exists jwt status body,
        trace s' = EvPost iam_url jwt (Response status (Some body)) :: trace s /\
        is_error_status status = false /\
        subscript body (of_string "iamToken") = Ok token /\
        iam_token (token_manager s') = token /\
        key_data (token_manager s') = key_data (token_manager s) /\
        token_expires_at (token_manager s') = Some (recorded_expiry env body s')
  | (Err _, _) => True
  end.
Proof.
  run. unfold recorded_expiry.
  destruct (key_data (token_manager s)) as [key|] eqn:Hkey; cbn; [|exact I].
  destruct (jwt_encode env _ _ _ _) as [jwt|e]; cbn; [|exact I].
  destruct (requests_post env _ _ _) as [msg|status body] eqn:Hpost; cbn; [exact I|].
  destruct (is_error_status status) eqn:Hstatus; cbn; [exact I|].
  destruct body as [j|]; cbn; [|exact I].
  destruct (subscript j (of_string "iamToken")) as [token|e] eqn:Hsub; cbn; [|exact I].
  destruct (json_truthy (get j (of_string "expiresAt"))) eqn:Hdated; cbn;
    [destruct (parse_expires_at env _) eqn:Hparse; cbn|];
    exists jwt, status, j; rewrite Hdated, ?Hparse; repeat split; auto.
Qed.

(** X18. A successful exchange is recorded: when the exchange that a call
    of [get_iam_token] makes succeeds, the call returns the token of
    the answer, the manager holds this token with the key it had, and
    the expiry recorded is the one of the answer when it has one that
    can be read, and twelve hours after the clock was last read
    otherwise. *)
Theorem successful_exchange_is_recorded (env : Env) (force_refresh : bool) (s : State)
  (url jwt : str) (answer : http_outcome) :
  trace (snd (get_iam_token env force_refresh s)) = EvPost url jwt answer :: trace s ->
  exchange_fails answer = false ->
  exists status body token,
    answer = Response status (Some body) /\
    subscript body (of_string "iamToken") = Ok token /\
    fst (get_iam_token env force_refresh s) = Ok token /\
    iam_token (token_manager (snd (get_iam_token env force_refresh s))) = token /\
    key_data (token_manager (snd (get_iam_token env force_refresh s)))
    = key_data (token_manager s) /\
    token_expires_at (token_manager (snd (get_iam_token env force_refresh s)))
    = Some (recorded_expiry env body (snd (get_iam_token env force_refresh s))).
Proof.
  destruct (get_iam_token_cases env force_refresh s) as (s0 & Htm & Htr & ->).
  destruct (_ && _ && _); cbn [fst snd].
  - rewrite Htr. intros H. exfalso. exact (trace_grows_not _ _ H).
  - unfold try_except, raise.
    pose proof (fetch_iam_token_spec env s0) as Hspec.
    pose proof (fetch_iam_token_ok env s0) as Hok.
    destruct (fetch_iam_token env s0) as [[token|e] s1]; cbn [fst snd].
    + destruct Hok as (jwt' & status & body & Htrace & _ & Hsub & Htok & Hkey & Hexp).
      rewrite Htrace, Htr. intros [= _ _ <-] _.
      exists status, body, token. rewrite <- Htm. auto 10.
    + destruct Hspec as [_ [Htrace|(url' & jwt' & answer' & Htrace & Hfails)]].
      * rewrite Htrace, Htr. intros H. exfalso. exact (trace_grows_not _ _ H).
      * rewrite Htrace, Htr. intros [= _ _ <-]. congruence.
Qed.

Lemma successful_exchange_is_recorded_witness :
  let env := Demo.world 1 (Response 200 (Some dated_body)) Demo.always_ok in
  let run := get_iam_token env true fresh_state in
  fst run = Ok (JStr (of_string "fresh-token")) /\
  token_expires_at (token_manager (snd run)) = Some (1003000000 + default_lifetime)%Z.
Proof.
  destruct (successful_exchange_is_recorded
              (Demo.world 1 (Response 200 (Some dated_body)) Demo.always_ok)
              true fresh_state iam_url (of_string "jwt")
              (Response 200 (Some dated_body)) eq_refl eq_refl)
    as (status & body & token & Hanswer & Hsub & Hret & _ & _ & Hexp).
  injection Hanswer as <- <-. cbv zeta. split.
  - rewrite Hret. vm_compute in Hsub. vm_compute. congruence.
  - rewrite Hexp. vm_compute. reflexivity.
Defined.

(** X19. Without a signature there is no exchange: when the manager has
    no key, or when the signing of the assertion fails, a call of
    [get_iam_token] sends nothing to the endpoint and leaves the
    manager as it was; it returns the cached token if it may, and
    raises otherwise the error of the token with, in it, the error of
    the key or of the signature. *)
Theorem no_signature_no_exchange (env : Env) (force_refresh : bool) (s : State) :
  cannot_sign env s ->
  trace (snd (get_iam_token env force_refresh s)) = trace s /\
  token_manager (snd (get_iam_token env force_refresh s)) = token_manager s /\
  match fst (get_iam_token env force_refresh s) with
  | Ok token => force_refresh = false /\ token = iam_token (token_manager s)
  | Err e =>
      exists why cause,
        e = YandexAuthError IamToken (Some (YandexAuthError why cause)) /\
        (why = KeyNotLoaded \/ why = JwtCreation)
  end.
Proof.
  intros Hsign.
  destruct (get_iam_token_cases env force_refresh s) as (s0 & Htm & Htr & ->).
  destruct (negb force_refresh && _ && _) eqn:Hcached; cbn [fst snd].
  - repeat split; auto. now destruct force_refresh.
  - unfold try_except, raise. run.
    destruct (key_data (token_manager s0)) as [key|] eqn:Hkey; cbn.
    + destruct Hsign as [Hnone|Hfails]; [congruence|].
      match goal with
      | |- context [jwt_encode env ?k ?p ?pk ?h] => destruct (Hfails k p pk h) as [e ->]
      end. cbn. repeat split; auto. eauto.
    + repeat split; auto. eauto.
Qed.

Lemma no_signature_no_exchange_witness :
  let run := get_iam_token (SynthSpec.example_world Demo.always_ok) true keyless_state in
  trace (snd run) = trace keyless_state /\
  token_manager (snd run) = token_manager keyless_state /\
  exists why cause,
    YandexAuthError IamToken (Some (YandexAuthError KeyNotLoaded None))
    = YandexAuthError IamToken (Some (YandexAuthError why cause)) /\
    (why = KeyNotLoaded \/ why = JwtCreation).
Proof.
  exact (no_signature_no_exchange (SynthSpec.example_world Demo.always_ok) true
           keyless_state (or_introl eq_refl)).
Defined.

(** X20. A manager that was just constructed has to ask: its first call
    of [get_iam_token], forced or not, makes exactly one exchange with
    the endpoint, the key being one that signs. *)
Theorem fresh_manager_exchanges_once (getenv : str -> option str) (tm : TokenManager)
  (env : Env) (force_refresh : bool) (s : State) :
  TokenManager_init getenv = inl tm ->
  token_manager s = tm ->
  signing_works env ->
  posts (trace (snd (get_iam_token env force_refresh s))) = S (posts (trace s)).
Proof.
  intros Hinit Hs Hsign. apply init_fresh in Hinit as (Hkey & Htoken & _).
  destruct (get_iam_token_cases env force_refresh s) as (s0 & Htm & Htr & ->).
  rewrite Hs, Htoken. cbn [json_truthy]. rewrite andb_false_r. cbn [andb].
  unfold try_except, raise.
  pose proof (fetch_iam_token_posts env s0) as Hposts.
  rewrite Htm, Hs, Htr in Hposts. specialize (Hposts Hkey Hsign).
  destruct (fetch_iam_token env s0) as [[v|e] s1]; exact Hposts.
Qed.

Lemma fresh_manager_exchanges_once_witness :
  TokenManager_init example_getenv = inl example_manager /\
  posts (trace (snd (get_iam_token (SynthSpec.example_world Demo.always_ok) false
                       fresh_state))) = 1.
Proof.
  split; [vm_compute; reflexivity|].
  apply (fresh_manager_exchanges_once example_getenv example_manager
           (SynthSpec.example_world Demo.always_ok) false fresh_state).
  - vm_compute. reflexivity.
  - reflexivity.
  - intros k payload key headers. eexists. reflexivity.
Defined.

(** *** The reading of the expiry *)

Lemma split_char_go_plain (sep : char) (s : str) : forall piece,
  Forall (fun c => c <> sep) s -> split_char_go sep piece s = [rev piece ++ s].
Proof.
  induction s as [|c s IH]; intros piece Hs; cbn [split_char_go].
  - now rewrite app_nil_r.
  - inversion Hs as [|? ? Hc Hs']; subst.
    destruct (N.eqb_spec c sep); [contradiction|].
    rewrite IH by assumption. cbn [rev]. now rewrite <- app_assoc.
Qed.

Lemma split_char_go_once (sep : char) (a b : str) : forall piece,
  Forall (fun c => c <> sep) a -> Forall (fun c => c <> sep) b ->
  split_char_go sep piece (a ++ sep :: b) = [rev piece ++ a; b].
Proof.
  induction a as [|c a IH]; intros piece Ha Hb; cbn [app split_char_go].
  - rewrite N.eqb_refl, app_nil_r. now rewrite split_char_go_plain.
  - inversion Ha as [|? ? Hc Ha']; subst.
    destruct (N.eqb_spec c sep); [contradiction|].
    rewrite IH by assumption. cbn [rev]. now rewrite <- app_assoc.
Qed.

Lemma filter_plain (p : char -> bool) (s : str) :
  Forall (fun c => p c = true) s -> filter p s = s.
Proof.
  induction 1 as [|c s Hc Hs IH]; [reflexivity|]. cbn. now rewrite Hc, IH.
Qed.

Lemma plain_time_not_Z (s : str) :
  Forall plain_time s -> Forall (fun c => negb (c =? letter_Z)%N = true) s.
Proof.
  intros H. eapply Forall_impl; [|exact H]. intros c [_ Hc].
  now destruct (N.eqb_spec c letter_Z).
Qed.

Lemma plain_time_not_dot (s : str) :
  Forall plain_time s -> Forall (fun c => c <> dot) s.
Proof. intros H. eapply Forall_impl; [|exact H]. now intros c [Hc _]. Qed.

Lemma plain_time_no_dot (s : str) : Forall plain_time s -> existsb (N.eqb dot) s = false.
Proof.
  induction 1 as [|c s [Hc _] Hs IH]; [reflexivity|]. cbn [existsb]. rewrite IH.
  destruct (N.eqb_spec dot c); [congruence|reflexivity].
Qed.

(** X21. The expiry is read to the microsecond: of a time written with a
    fraction of a second and the letter Z, [get_iam_token] hands the
    time to [datetime.fromisoformat] without the Z and with the
    fraction cut, or filled up with zeros, to six digits; a time
    written without fraction is handed over without its Z. *)
Theorem expiry_is_read_to_the_microsecond (env : Env) (time_part fraction : str) :
  Forall plain_time time_part -> Forall plain_time fraction ->
  parse_expires_at env (JStr (time_part ++ [dot] ++ fraction ++ [letter_Z]))
  = fromisoformat env (time_part ++ [dot] ++ microsecond_digits fraction) /\
  length (microsecond_digits fraction) = 6 /\
  parse_expires_at env (JStr (time_part ++ [letter_Z])) = fromisoformat env time_part.
Proof.
  intros Htime Hfraction. split; [|split].
  - unfold parse_expires_at. cbv zeta.
    rewrite !filter_app. cbn [filter].
    change (negb (dot =? letter_Z)%N) with true.
    change (negb (letter_Z =? letter_Z)%N) with false. cbn iota.
    rewrite !(filter_plain _ _ (plain_time_not_Z _ Htime)),
      !(filter_plain _ _ (plain_time_not_Z _ Hfraction)).
    rewrite app_nil_r. cbn [app].
    rewrite existsb_app. cbn [existsb]. rewrite N.eqb_refl, orb_true_r. cbn [orb].
    unfold split_char.
    rewrite split_char_go_once by now apply plain_time_not_dot.
    reflexivity.
  - unfold microsecond_digits. cbv zeta. rewrite length_app, repeat_length.
    pose proof (firstn_le_length 6 fraction). lia.
  - unfold parse_expires_at. cbv zeta.
    rewrite filter_app. cbn [filter].
    change (negb (letter_Z =? letter_Z)%N) with false. cbn iota.
    rewrite (filter_plain _ _ (plain_time_not_Z _ Htime)), app_nil_r.
    now rewrite (plain_time_no_dot _ Htime).
Qed.

Lemma expiry_is_read_to_the_microsecond_witness :
  let env := SynthSpec.example_world Demo.always_ok in
  parse_expires_at env (JStr (of_string "2023-12-31T23:59:59.123456789Z"))
  = fromisoformat env (of_string "2023-12-31T23:59:59.123456") /\
  parse_expires_at env (JStr (of_string "2023-12-31T23:59:59.5Z"))
  = fromisoformat env (of_string "2023-12-31T23:59:59.500000").
Proof.
  assert (Hplain : forall s, forallb (fun c => negb (c =? dot)%N && negb (c =? letter_Z)%N) s
                             = true -> Forall plain_time s).
  { induction s as [|c s IH]; [constructor|]. cbn [forallb]. intros H.
    apply andb_prop in H as [Hc Hs]. apply andb_prop in Hc as [Hd Hz].
    constructor; [|now apply IH].
    split; intros ->; discriminate. }
  intros env. split.
  - pose proof (expiry_is_read_to_the_microsecond env
                  (of_string "2023-12-31T23:59:59") (of_string "123456789")
                  (Hplain (of_string "2023-12-31T23:59:59") ltac:(vm_compute; reflexivity))
                  (Hplain (of_string "123456789") ltac:(vm_compute; reflexivity)))
      as [H _].
    vm_compute in H. vm_compute. exact H.
  - pose proof (expiry_is_read_to_the_microsecond env
                  (of_string "2023-12-31T23:59:59") (of_string "5")
                  (Hplain (of_string "2023-12-31T23:59:59") ltac:(vm_compute; reflexivity))
                  (Hplain (of_string "5") ltac:(vm_compute; reflexivity)))
      as [H _].
    vm_compute in H. vm_compute. exact H.
Defined.

End TokenFacts.

(** ** Further properties of the synthesis loop *)

Module BooksFacts.

Import Synthesizer AuthSpec SynthSpec BooksSpec SynthFacts.

#[local] Opaque Qplus Qmult Qminus Qdiv Qpower Qfloor Qle_bool Z.mul of_string.

Ltac books := unfold step, synth_calls, posts; cbn; repeat split; lia.

Lemma step_refl (s : State) : step 0 0 0 s s.
Proof. unfold step. repeat split; lia. Qed.

Lemma step_trans (a b p c d q : nat) (s1 s2 s3 : State) :
  step a b p s1 s2 -> step c d q s2 s3 -> step (a + c) (b + d) (p + q) s1 s3.
Proof. unfold step. intros H1 H2. repeat split; lia. Qed.

Lemma step_same (s s' : State) :
  stats s' = stats s -> trace s' = trace s -> step 0 0 0 s s'.
Proof. unfold step. intros -> ->. repeat split; lia. Qed.

Lemma step_after (a b p : nat) (s1 s2 s3 : State) :
  step a b p s1 s2 -> step 0 0 0 s2 s3 -> step a b p s1 s3.
Proof. unfold step. intros H1 H2. repeat split; lia. Qed.

Lemma step_before (a b p : nat) (s1 s2 s3 : State) :
  step 0 0 0 s1 s2 -> step a b p s2 s3 -> step a b p s1 s3.
Proof. unfold step. intros H1 H2. repeat split; lia. Qed.

(** The limiter, a sleep, the making of the directory: nothing counted. *)
Lemma wait_if_needed_books (env : Env) (s : State) :
  exists s', wait_if_needed env s = (Ok tt, s') /\ step 0 0 0 s s'.
Proof.
  unfold wait_if_needed, time_time, time_sleep, bind, ret, get_state, modify.
  cbn [outside clock ticks rate_limiter fst snd].
  destruct (Qlt_bool _ _) eqn:Hlt.
  - apply LimiterFacts.Qlt_bool_iff in Hlt.
    match goal with |- context [Qle_bool 0 ?d] =>
      assert (Hd : Qle_bool 0 d = true) by (apply Qle_bool_iff; lra); rewrite Hd
    end.
    eexists. split; [reflexivity|]. books.
  - eexists. split; [reflexivity|]. now apply step_same.
Qed.

Lemma time_sleep_books (env : Env) (seconds : Q) (s : State) :
  step 0 0 0 s (snd (time_sleep env seconds s)).
Proof.
  unfold time_sleep. destruct (Qle_bool 0 seconds); cbn [snd]; [|apply step_refl].
  books.
Qed.

(** A call of the token manager counts nothing and asks the endpoint
    once at most. *)
Lemma get_iam_token_stats (env : Env) (force_refresh : bool) (s : State) :
  stats (snd (Auth.get_iam_token env force_refresh s)) = stats s.
Proof.
  AuthFacts.run.
  destruct (negb force_refresh && json_truthy (iam_token (token_manager s))); cbn.
  - destruct (token_expires_at (token_manager s)) as [expires_at|]; cbn.
    + destruct (expires_at <=? _)%Z; cbn; [|reflexivity].
      destruct (key_data (token_manager s)) as [key|]; cbn; [|reflexivity].
      destruct (jwt_encode env _ _ _ _) as [jwt|e]; cbn; [|reflexivity].
      destruct (requests_post env _ _ _) as [msg|status body]; cbn; [reflexivity|].
      destruct (Auth.is_error_status status); cbn; [reflexivity|].
      destruct body as [j|]; cbn; [|reflexivity].
      destruct (Auth.subscript j _) as [token|e]; cbn; [|reflexivity].
      destruct (json_truthy _); cbn; [destruct (Auth.parse_expires_at env _); cbn|];
        reflexivity.
    + destruct (key_data (token_manager s)) as [key|]; cbn; [|reflexivity].
      destruct (jwt_encode env _ _ _ _) as [jwt|e]; cbn; [|reflexivity].
      destruct (requests_post env _ _ _) as [msg|status body]; cbn; [reflexivity|].
      destruct (Auth.is_error_status status); cbn; [reflexivity|].
      destruct body as [j|]; cbn; [|reflexivity].
      destruct (Auth.subscript j _) as [token|e]; cbn; [|reflexivity].
      destruct (json_truthy _); cbn; [destruct (Auth.parse_expires_at env _); cbn|];
        reflexivity.
  - destruct (key_data (token_manager s)) as [key|]; cbn; [|reflexivity].
    destruct (jwt_encode env _ _ _ _) as [jwt|e]; cbn; [|reflexivity].
    destruct (requests_post env _ _ _) as [msg|status body]; cbn; [reflexivity|].
    destruct (Auth.is_error_status status); cbn; [reflexivity|].
    destruct body as [j|]; cbn; [|reflexivity].
    destruct (Auth.subscript j _) as [token|e]; cbn; [|reflexivity].
    destruct (json_truthy _); cbn; [destruct (Auth.parse_expires_at env _); cbn|];
      reflexivity.
Qed.

Lemma get_iam_token_books (env : Env) (force_refresh : bool) (s : State) :
  exists asked, asked <= 1 /\
    step 0 0 asked s (snd (Auth.get_iam_token env force_refresh s)).
Proof.
  pose proof (get_iam_token_stats env force_refresh s) as Hstats.
  pose proof (quiet_synth_calls _ _ (get_iam_token_quiet env force_refresh s)) as Hcalls.
  assert (Hposts : exists asked, asked <= 1 /\
            posts (trace (snd (Auth.get_iam_token env force_refresh s)))
            = posts (trace s) + asked).
  { destruct (AuthFacts.get_iam_token_cases env force_refresh s) as (s0 & _ & Htr & ->).
    destruct (_ && _ && _); cbn [snd]; [exists 0; rewrite Htr; lia|].
    unfold try_except, raise.
    pose proof (AuthFacts.fetch_iam_token_spec env s0) as Hspec.
    destruct (Auth.fetch_iam_token env s0) as [[v|e] s1]; cbn [snd].
    - destruct Hspec as (url & jwt & answer & -> & _). exists 1. rewrite Htr.
      split; [lia|]. unfold posts. cbn. lia.
    - destruct Hspec as [_ [->|(url & jwt & answer & -> & _)]].
      + exists 0. rewrite Htr. lia.
      + exists 1. rewrite Htr. split; [lia|]. unfold posts. cbn. lia. }
  destruct Hposts as (asked & Hle & Hposts). exists asked. split; [exact Hle|].
  unfold step. rewrite Hstats, Hcalls, Hposts. repeat split; lia.
Qed.

(** The refresh between two attempts. *)
Lemma refresh_books (env : Env) (s : State) :
  exists s' asked,
    try_except (_refresh_credentials env) (fun _ => ret tt) s = (Ok tt, s') /\
    asked <= 1 /\ step 0 0 asked s s'.
Proof.
  unfold try_except, _refresh_credentials, Auth.refresh_token, bind at 1.
  destruct (get_iam_token_books env true s) as (asked & Hle & Hstep).
  destruct (Auth.get_iam_token env true s) as [[token|e] s1]; cbn [snd] in Hstep.
  - unfold sdk_configure, outside_call, bind, lift, ret.
    destruct (configure_credentials env (ticks s1) token) as [[]|e];
      (eexists; exists asked; split; [reflexivity|]; split; [exact Hle|]);
      (eapply step_after; [exact Hstep|books]).
  - unfold ret. exists s1, asked. auto.
Qed.

(** One attempt and, when it fails, the counting of its failure. *)
Lemma attempt_books (env : Env) (chunk : TextChunk.t) (clean_text output_path : str)
  (s : State) :
  match attempt env chunk clean_text output_path s with
  | (Ok r, s') =>
      r = (mark_processed chunk output_path, Some output_path) /\ step 1 0 0 s s'
  | (Err e, s') => step 0 1 0 s (snd (add_request_stats false (Some e) s'))
  end.
Proof.
  unfold attempt. unfold bind at 1.
  destruct (wait_if_needed_books env s) as (s1 & -> & Hstep).
  unfold sdk_synthesize, export_wav, path_exists, outside_call, bind, lift, ret, raise,
    add_request_stats, modify.
  destruct (model_synthesize env (ticks s1) clean_text) as [[]|e]; cbn [snd].
  2:{ eapply step_before; [exact Hstep|books]. }
  destruct (result_export env _ output_path) as [[]|e]; cbn [snd].
  2:{ eapply step_before; [exact Hstep|books]. }
  destruct (os_path_exists env _ output_path); cbn [negb snd].
  - split; [reflexivity|]. eapply step_before; [exact Hstep|books].
  - eapply step_before; [exact Hstep|books].
Qed.

(** One turn of the retry loop: the attempt, then, when it fails, the
    counting, the pause and the refresh. *)
Lemma attempts_loop_turn (env : Env) (self : SpeechSynthesizer) (chunk : TextChunk.t)
  (clean_text output_path : str) (attempt_no : Z) (rest : list Z) (s : State) :
  let loop := attempts_loop env self chunk clean_text output_path in
  match attempt env chunk clean_text output_path s with
  | (Ok r, s1) =>
      loop (attempt_no :: rest) s = (Ok r, s1) /\
      r = (mark_processed chunk output_path, Some output_path) /\ step 1 0 0 s s1
  | (Err e, _) =>
      exists s' asked,
        asked <= 1 /\ step 0 1 asked s s' /\
        ((attempt_no <? max_retries self - 1)%Z
         && Qle_bool 0 (retry_delay self * 2 ^ attempt_no) = false -> asked = 0) /\
        loop (attempt_no :: rest) s =
          if (attempt_no <? max_retries self - 1)%Z then
            if Qle_bool 0 (retry_delay self * 2 ^ attempt_no) then loop rest s'
            else (Err ValueError, s')
          else (Err (SynthesizerError
                       (RetriesExhausted (TextChunk.index chunk) (max_retries self))
                       (Some e)), s')
  end.
Proof.
  cbv zeta. pose proof (attempt_books env chunk clean_text output_path s) as Hbooks.
  destruct (attempt env chunk clean_text output_path s) as [[r|e] s1] eqn:Hrun;
    cbn [attempts_loop]; unfold try_except at 1; rewrite Hrun.
  { destruct Hbooks as [Hr Hstep]. auto. }
  unfold bind at 1.
  change (add_request_stats false (Some e) s1)
    with (@Ok unit tt, snd (add_request_stats false (Some e) s1)).
  set (s2 := snd (add_request_stats false (Some e) s1)) in *.
  destruct (attempt_no <? max_retries self - 1)%Z.
  - unfold bind at 1. pose proof (time_sleep_books env (retry_delay self * 2 ^ attempt_no) s2)
      as Hsleep.
    unfold time_sleep in *.
    destruct (Qle_bool 0 (retry_delay self * 2 ^ attempt_no)); cbn [snd] in Hsleep.
    + unfold bind at 1.
      destruct (refresh_books env (outside env (retry_delay self * 2 ^ attempt_no)
                  [EvSleep (retry_delay self * 2 ^ attempt_no)] s2))
        as (s4 & asked & -> & Hle & Hrefresh).
      exists s4, asked. split; [exact Hle|]. split; [|split; [discriminate|reflexivity]].
      exact (step_trans _ _ _ _ _ _ _ _ _ Hbooks
               (step_trans _ _ _ _ _ _ _ _ _ Hsleep Hrefresh)).
    + exists s2, 0. split; [lia|]. split; [exact Hbooks|]. split; reflexivity.
  - exists s2, 0. split; [lia|]. split; [exact Hbooks|]. split; reflexivity.
Qed.

(** The retry loop over what is left of [range(max_retries)]: it ends
    with the chunk marked, after one success, or with an error; every
    attempt is counted, and the endpoint is asked at most once between
    two attempts. *)
Lemma attempts_loop_books (env : Env) (self : SpeechSynthesizer) (chunk : TextChunk.t)
  (clean_text output_path : str) (m : nat) : forall a s,
  0 < m -> Z.of_nat (a + m) = max_retries self ->
  let run := attempts_loop env self chunk clean_text output_path
               (map Z.of_nat (seq a m)) s in
  exists ok ko asked,
    step ok ko asked s (snd run) /\ asked + 1 <= ok + ko /\ ok + ko <= m /\
    (ok = 1 /\ fst run = Ok (mark_processed chunk output_path, Some output_path) \/
     ok = 0 /\ exists e, fst run = Err e).
Proof.
  induction m as [|m IH]; intros a s Hm Hmax; [lia|].
  cbv zeta. cbn [seq map].
  pose proof (attempts_loop_turn env self chunk clean_text output_path
                (Z.of_nat a) (map Z.of_nat (seq (S a) m)) s) as Hturn.
  cbv zeta in Hturn.
  destruct (attempt env chunk clean_text output_path s) as [[r|e] s1].
  { destruct Hturn as (-> & -> & Hstep). exists 1, 0, 0. cbn [fst snd].
    split; [exact Hstep|]. split; [lia|]. split; [lia|]. left. auto. }
  destruct Hturn as (s' & asked & Hle & Hstep & Hzero & ->).
  destruct (Z.ltb_spec (Z.of_nat a) (max_retries self - 1)) as [Hlt|Hge].
  - destruct (Qle_bool 0 (retry_delay self * 2 ^ Z.of_nat a)).
    + destruct (IH (S a) s' ltac:(lia) ltac:(lia))
        as (ok & ko & asked' & Hrest & Hasked & Hcount & Hres).
      exists ok, (S ko), (asked + asked').
      split; [exact (step_trans _ _ _ _ _ _ _ _ _ Hstep Hrest)|].
      split; [lia|]. split; [lia|exact Hres].
    + rewrite (Hzero eq_refl) in Hstep.
      exists 0, 1, 0. cbn [fst snd]. split; [exact Hstep|].
      split; [lia|]. split; [lia|]. right. eauto.
  - rewrite (Hzero eq_refl) in Hstep.
    exists 0, 1, 0. cbn [fst snd]. split; [exact Hstep|].
    split; [lia|]. split; [lia|]. right. eauto.
Qed.

(** One call of [synthesize_chunk]. *)
Lemma synthesize_chunk_books (env : Env) (self : SpeechSynthesizer) (chunk : TextChunk.t)
  (output_path : option str) (s : State) :
  let run := synthesize_chunk env self chunk output_path s in
  exists ok ko asked,
    step ok ko asked s (snd run) /\ asked <= Nat.pred (ok + ko) /\
    ok + ko <= Z.to_nat (max_retries self) /\
    (TextChunk.processed chunk = false ->
     ok = 1 /\ (exists path, artifact (fst run) = Some path) \/
     ok = 0 /\ artifact (fst run) = None).
Proof.
  cbv zeta. destruct (TextChunk.processed chunk) eqn:Hp.
  { unfold synthesize_chunk. rewrite Hp. exists 0, 0, 0. cbn [snd ret].
    split; [apply step_refl|]. split; [simpl; lia|]. split; [lia|discriminate]. }
  destruct (truthy (strip (clean_text_for_synthesis env (TextChunk.text chunk)))) eqn:Hc.
  2:{ unfold synthesize_chunk. rewrite Hp, Hc. cbn [negb]. exists 0, 0, 0.
      unfold raise. cbn [fst snd].
      split; [apply step_refl|]. split; [simpl; lia|]. split; [lia|]. intros _. now right. }
  rewrite synthesize_chunk_pending by assumption.
  assert (Hloop : forall path s0,
            exists ok ko asked,
              step ok ko asked s0
                (snd (attempts_loop env self chunk
                        (clean_text_for_synthesis env (TextChunk.text chunk)) path
                        (py_range (max_retries self)) s0)) /\
              asked <= Nat.pred (ok + ko) /\
              ok + ko <= Z.to_nat (max_retries self) /\
              (ok = 1 /\
               (exists p, artifact (fst (attempts_loop env self chunk
                        (clean_text_for_synthesis env (TextChunk.text chunk)) path
                        (py_range (max_retries self)) s0)) = Some p) \/
               ok = 0 /\
               artifact (fst (attempts_loop env self chunk
                        (clean_text_for_synthesis env (TextChunk.text chunk)) path
                        (py_range (max_retries self)) s0)) = None)).
  { intros path s0. rewrite py_range_seq.
    destruct (Z.to_nat (max_retries self)) as [|m] eqn:Hm.
    - exists 0, 0, 0. cbn [seq map attempts_loop ret fst snd].
      split; [apply step_refl|]. split; [simpl; lia|]. split; [lia|]. now right.
    - destruct (attempts_loop_books env self chunk
                  (clean_text_for_synthesis env (TextChunk.text chunk)) path (S m) 0 s0
                  ltac:(lia) ltac:(lia))
        as (ok & ko & asked & Hstep & Hasked & Hcount & Hres).
      cbv zeta in *. exists ok, ko, asked.
      split; [exact Hstep|]. split; [lia|]. split; [lia|].
      destruct Hres as [[-> ->]|[-> [e ->]]]; [left|right]; cbn; eauto. }
  destruct output_path as [p|]; cbv zeta.
  - destruct (Hloop p s) as (ok & ko & asked & H). exists ok, ko, asked.
    destruct H as (H1 & H2 & H3 & H4). auto.
  - destruct (mkdir env (ticks s) (temp_dir self)) as [[]|e].
    + destruct (Hloop (chunk_path self chunk)
                  (outside env 0 [EvMkdir (temp_dir self) (Ok tt)] s))
        as (ok & ko & asked & H1 & H2 & H3 & H4).
      exists ok, ko, asked. split; [|auto].
      eapply step_before; [|exact H1]. books.
    + exists 0, 0, 0. cbn [fst snd]. split; [books|].
      split; [simpl; lia|]. split; [lia|]. intros _. now right.
Qed.

(** A whole run of the loop over the chunks. *)
Lemma final_state_books (env : Env) (self : SpeechSynthesizer)
  (chunks : list TextChunk.t) : forall s,
  exists ok ko asked,
    step ok ko asked s (final_state env self chunks s) /\ asked <= ok + ko /\
    (all_pending chunks ->
     ok = length (valid_audio_files (map artifact (outcomes env self chunks s)))).
Proof.
  induction chunks as [|chunk rest IH]; intros s.
  - exists 0, 0, 0. cbn. split; [apply step_refl|]. auto.
  - cbn [final_state outcomes map].
    destruct (synthesize_chunk_books env self chunk None s)
      as (ok & ko & asked & Hstep & Hasked & _ & Hres). cbv zeta in *.
    destruct (IH (snd (synthesize_chunk env self chunk None s)))
      as (ok' & ko' & asked' & Hstep' & Hasked' & Hres').
    exists (ok + ok'), (ko + ko'), (asked + asked').
    split; [exact (step_trans _ _ _ _ _ _ _ _ _ Hstep Hstep')|].
    split; [lia|]. intros Hpending. inversion Hpending as [|? ? Hp Hrest]; subst.
    rewrite (Hres' Hrest).
    destruct (Hres Hp) as [[-> [path ->]]|[-> ->]]; reflexivity.
Qed.

(** X22. The statistics count the requests: over a run of
    [synthesize_chunks] on a list that is not empty, whatever the
    outside answers, the requests counted are the calls of the
    synthesis function, each counted once, as a success or as a
    failure; the counters of the text grow by the number of chunks and
    by the sum of their lengths; and when no chunk had been synthesized
    before, the successes counted are the audio files returned. *)
Theorem requests_are_counted (env : Env) (self : SpeechSynthesizer)
  (chunks : list TextChunk.t) (s : State) :
  chunks <> [] ->
  let run := synthesize_chunks env self chunks s in
  exists ok ko,
    total_requests (stats (snd run)) = (total_requests (stats s) + Z.of_nat (ok + ko))%Z /\
    successful_requests (stats (snd run))
    = (successful_requests (stats s) + Z.of_nat ok)%Z /\
    failed_requests (stats (snd run)) = (failed_requests (stats s) + Z.of_nat ko)%Z /\
    synth_calls (trace (snd run)) = synth_calls (trace s) + (ok + ko) /\
    total_chunks (stats (snd run))
    = (total_chunks (stats s) + Z.of_nat (length chunks))%Z /\
    total_characters (stats (snd run))
    = (total_characters (stats s) + sum_lengths chunks)%Z /\
    (all_pending chunks ->
     ok = match fst run with
          | Ok (_, files) => length files
          | Err _ => 0
          end).
Proof.
  intros Hne. cbv zeta. rewrite (synthesize_chunks_spec env self chunks s Hne).
  cbv zeta. cbn [fst snd].
  destruct (final_state_books env self chunks (loop_start chunks s))
    as (ok & ko & asked & Hstep & _ & Hfiles).
  exists ok, ko. unfold step in Hstep.
  destruct Hstep as (H1 & H2 & H3 & H4 & H5 & H6 & _).
  unfold loop_start, add_text_stats, modify in *.
  cbn [snd stats trace set_stats total_requests successful_requests failed_requests
       total_characters total_chunks] in *.
  repeat split; auto.
  intros Hpending. rewrite (Hfiles Hpending).
  now destruct (valid_audio_files _).
Qed.

Lemma requests_are_counted_witness :
  let run := synthesize_chunks (example_world Demo.fails_on_bad) example_synthesizer
               two_chunks example_state in
  exists ok ko,
    total_requests (stats (snd run)) = (0 + Z.of_nat (ok + ko))%Z /\
    successful_requests (stats (snd run)) = (0 + Z.of_nat ok)%Z /\
    failed_requests (stats (snd run)) = (0 + Z.of_nat ko)%Z /\
    synth_calls (trace (snd run)) = 0 + (ok + ko) /\
    total_chunks (stats (snd run)) = (0 + 2)%Z /\
    total_characters (stats (snd run)) = (0 + 22)%Z /\
    (all_pending two_chunks ->
     ok = match fst run with
          | Ok (_, files) => length files
          | Err _ => 0
          end).
Proof.
  exact (requests_are_counted (example_world Demo.fails_on_bad) example_synthesizer
           two_chunks example_state ltac:(discriminate)).
Defined.

(** X23. The endpoint is asked between two attempts only: over a call of
    [synthesize_chunk], whatever the outside answers, the exchanges
    with the identity endpoint are fewer than the calls of the
    synthesis function: at most one after each attempt that failed,
    and none after the last. *)
Theorem exchanges_between_attempts (env : Env) (self : SpeechSynthesizer)
  (chunk : TextChunk.t) (output_path : option str) (s : State) :
  let s' := snd (synthesize_chunk env self chunk output_path s) in
  posts (trace s) <= posts (trace s') /\
  posts (trace s') - posts (trace s)
  <= Nat.pred (synth_calls (trace s') - synth_calls (trace s)).
Proof.
  cbv zeta.
  destruct (synthesize_chunk_books env self chunk output_path s)
    as (ok & ko & asked & Hstep & Hasked & _). cbv zeta in Hstep.
  destruct Hstep as (_ & _ & _ & _ & _ & Hcalls & Hposts).
  rewrite Hcalls, Hposts. lia.
Qed.

(** *** A run repeated *)

Lemma valid_audio_files_full (slots : list (option str)) :
  length (valid_audio_files slots) = length slots ->
  slots = map Some (valid_audio_files slots).
Proof.
  induction slots as [|[f|] slots IH]; cbn [valid_audio_files map length]; intros H.
  - reflexivity.
  - f_equal. apply IH. lia.
  - pose proof (valid_audio_files_length slots). lia.
Qed.

Lemma valid_audio_files_some (files : list str) :
  valid_audio_files (map Some files) = files.
Proof. induction files as [|f files IH]; [reflexivity|]. cbn. now rewrite IH. Qed.

(** Chunks that are marked processed are passed over. *)
Lemma done_chunks_passed_over (env : Env) (self : SpeechSynthesizer)
  (chunks : list TextChunk.t) : forall s,
  Forall (fun chunk => TextChunk.processed chunk = true) chunks ->
  outcomes env self chunks s = map (fun chunk => Ok (chunk, TextChunk.audio_file chunk)) chunks /\
  final_state env self chunks s = s.
Proof.
  induction chunks as [|chunk rest IH]; intros s Hdone; [split; reflexivity|].
  inversion Hdone as [|? ? Hp Hrest]; subst.
  cbn [outcomes final_state map]. unfold synthesize_chunk. rewrite Hp.
  cbn [ret fst snd]. destruct (IH s Hrest) as [-> ->]. split; reflexivity.
Qed.

(** The chunks a run leaves, when every chunk gave a file: they are
    marked, and their files are the files returned. *)
Lemma chunks_after_done (chunks : list TextChunk.t) :
  forall (outs : list (result (TextChunk.t * option str))) (files : list str),
  map artifact outs = map Some files ->
  Forall2 (fun chunk' r =>
             forall path, artifact r = Some path ->
               TextChunk.processed chunk' = true /\
               TextChunk.audio_file chunk' = Some path)
          (chunks_after chunks outs) outs ->
  Forall (fun chunk => TextChunk.processed chunk = true) (chunks_after chunks outs) /\
  map TextChunk.audio_file (chunks_after chunks outs) = map Some files.
Proof.
  intros outs files Hfiles Hmarked. revert files Hfiles.
  induction Hmarked as [|chunk' r done outs' Hone Hrest IH]; intros files Hfiles.
  - destruct files; [split; [constructor|reflexivity]|discriminate].
  - destruct files as [|f files]; [discriminate|]. cbn [map] in Hfiles.
    injection Hfiles as Hf Hfiles. destruct (Hone f Hf) as [Hp Ha].
    destruct (IH files Hfiles) as [Hdone Hmap].
    split; [now constructor|]. cbn [map]. now rewrite Ha, Hmap.
Qed.

Lemma chunks_after_same (chunks : list TextChunk.t) :
  chunks_after chunks (map (fun chunk => Ok (chunk, TextChunk.audio_file chunk)) chunks)
  = chunks.
Proof. induction chunks as [|chunk rest IH]; [reflexivity|]. cbn. now rewrite IH. Qed.

(** X24. A run that gave a file for every chunk can be repeated for
    nothing: [synthesize_chunks] called again on the chunks the run
    left, in whatever state and world, returns the same chunks and
    the same files and makes none of the calls of the trace: no call
    of the SDK, no export, no exchange with the endpoint, no sleep, no
    directory; the token manager and the limiter are as they were, no
    request is counted, and the counters of the text are added to a
    second time.  Of the clock, which the progress bar reads, nothing
    is said. *)
Theorem full_run_repeats_for_nothing (env : Env) (self : SpeechSynthesizer)
  (chunks chunks' : list TextChunk.t) (files : list str) (s s' : State) :
  synthesize_chunks env self chunks s = (Ok (chunks', files), s') ->
  length files = length chunks ->
  forall (env2 : Env) (self2 : SpeechSynthesizer) (s2 : State),
    let again := synthesize_chunks env2 self2 chunks' s2 in
    fst again = Ok (chunks', files) /\
    trace (snd again) = trace s2 /\
    token_manager (snd again) = token_manager s2 /\
    rate_limiter (snd again) = rate_limiter s2 /\
    total_requests (stats (snd again)) = total_requests (stats s2) /\
    successful_requests (stats (snd again)) = successful_requests (stats s2) /\
    failed_requests (stats (snd again)) = failed_requests (stats s2) /\
    errors (stats (snd again)) = errors (stats s2) /\
    total_chunks (stats (snd again))
    = (total_chunks (stats s2) + Z.of_nat (length chunks'))%Z /\
    total_characters (stats (snd again))
    = (total_characters (stats s2) + sum_lengths chunks')%Z.
Proof.
  intros Hrun Hfull env2 self2 s2.
  assert (Hne : chunks <> []).
  { intros ->. discriminate Hrun. }
  rewrite (synthesize_chunks_spec env self chunks s Hne) in Hrun. cbv zeta in Hrun.
  set (outs := outcomes env self chunks (loop_start chunks s)) in *.
  destruct (chunks_after_spec env self chunks (loop_start chunks s)) as (Hlen & _ & Hmarked).
  cbv zeta in Hlen, Hmarked. fold outs in Hlen, Hmarked.
  assert (Hfiles : files = valid_audio_files (map artifact outs) /\
                   chunks' = chunks_after chunks outs).
  { destruct (valid_audio_files (map artifact outs)); [discriminate|].
    injection Hrun as <- <- _. auto. }
  destruct Hfiles as (Hf & Hc). clear Hrun.
  assert (Hsome : map artifact outs = map Some files).
  { rewrite Hf. apply valid_audio_files_full.
    rewrite <- Hf, Hfull, length_map. unfold outs. now rewrite outcomes_length. }
  destruct (chunks_after_done chunks outs files Hsome Hmarked) as [Hdone Haudio].
  rewrite <- Hc in Hdone, Haudio, Hlen.
  assert (Hne' : chunks' <> []).
  { intros E. rewrite E in Hlen. destruct chunks; [congruence|discriminate]. }
  cbv zeta. rewrite (synthesize_chunks_spec env2 self2 chunks' s2 Hne'). cbv zeta.
  destruct (done_chunks_passed_over env2 self2 chunks' (loop_start chunks' s2) Hdone)
    as [-> ->].
  rewrite map_map.
  rewrite (map_ext (fun x => artifact (Ok (x, TextChunk.audio_file x)))
             TextChunk.audio_file) by (intros c; apply artifact_returned).
  rewrite Haudio, valid_audio_files_some, chunks_after_same.
  cbn [fst snd]. split.
  - destruct files as [|f files]; [|reflexivity].
    cbn in Hfull. destruct chunks; [congruence|discriminate].
  - unfold loop_start, add_text_stats, modify. cbn. repeat split; reflexivity.
Qed.

Lemma full_run_repeats_for_nothing_witness :
  let env := example_world Demo.always_ok in
  let run := synthesize_chunks env example_synthesizer two_chunks example_state in
  exists chunks' files,
    fst run = Ok (chunks', files) /\
    fst (synthesize_chunks (example_world Demo.always_fails) example_synthesizer chunks'
           (snd run)) = Ok (chunks', files) /\
    trace (snd (synthesize_chunks (example_world Demo.always_fails) example_synthesizer
                  chunks' (snd run))) = trace (snd run).
Proof.
  cbv zeta.
  destruct (synthesize_chunks (example_world Demo.always_ok) example_synthesizer
              two_chunks example_state) as [[[chunks' files]|e] s'] eqn:Hrun;
    [|vm_compute in Hrun; discriminate].
  exists chunks', files. split; [reflexivity|].
  assert (Hfull : length files = length two_chunks).
  { vm_compute in Hrun. injection Hrun as _ <- _. reflexivity. }
  destruct (full_run_repeats_for_nothing (example_world Demo.always_ok)
              example_synthesizer two_chunks chunks' files example_state s' Hrun Hfull
              (example_world Demo.always_fails) example_synthesizer s')
    as (Hagain & Htrace & _).
  cbn [snd]. split; [exact Hagain|exact Htrace].
Defined.

(** *** When all goes well *)

Lemma attempt_succeeds (env : Env) (chunk : TextChunk.t) (clean_text output_path : str)
  (s : State) :
  obliging env ->
  exists s', attempt env chunk clean_text output_path s
             = (Ok (mark_processed chunk output_path, Some output_path), s').
Proof.
  intros (Hsynth & Hexport & Hexists & _).
  unfold attempt. unfold bind at 1.
  destruct (wait_if_needed_books env s) as (s1 & -> & _).
  unfold sdk_synthesize, export_wav, path_exists, outside_call, bind, lift, ret, raise,
    add_request_stats, modify.
  rewrite Hsynth, Hexport, Hexists. cbn [negb]. eexists. reflexivity.
Qed.

Lemma chunk_succeeds (env : Env) (self : SpeechSynthesizer) (chunk : TextChunk.t)
  (s : State) :
  obliging env -> (0 < max_retries self)%Z -> ready env chunk ->
  fst (synthesize_chunk env self chunk None s)
  = Ok (synthesized self chunk, Some (chunk_path self chunk)) /\
  step 1 0 0 s (snd (synthesize_chunk env self chunk None s)).
Proof.
  intros Hob Hmax [Hp Hsay].
  assert (Hclean : truthy (strip (clean_text_for_synthesis env (TextChunk.text chunk)))
                   = true).
  { now rewrite (CleanFacts.clean_text_stripped env (TextChunk.text chunk)),
      CleanFacts.clean_text_truthy. }
  rewrite (synthesize_chunk_pending env self chunk None s Hp Hclean). cbv zeta.
  destruct Hob as (Hsynth & Hexport & Hexists & Hmkdir). rewrite Hmkdir.
  set (s1 := outside env 0 [EvMkdir (temp_dir self) (Ok tt)] s).
  assert (Hs1 : step 0 0 0 s s1) by (subst s1; books).
  rewrite py_range_seq.
  destruct (Z.to_nat (max_retries self)) as [|m] eqn:Hm; [lia|]. cbn [seq map].
  pose proof (attempts_loop_turn env self chunk
                (clean_text_for_synthesis env (TextChunk.text chunk))
                (chunk_path self chunk) (Z.of_nat 0) (map Z.of_nat (seq 1 m)) s1) as Hturn.
  cbv zeta in Hturn.
  destruct (attempt_succeeds env chunk
              (clean_text_for_synthesis env (TextChunk.text chunk))
              (chunk_path self chunk) s1 (conj Hsynth (conj Hexport (conj Hexists Hmkdir))))
    as (s2 & Hattempt).
  rewrite Hattempt in Hturn. destruct Hturn as (-> & _ & Hstep). cbn [fst snd].
  split; [reflexivity|]. eapply step_before; [exact Hs1|exact Hstep].
Qed.

Lemma run_succeeds (env : Env) (self : SpeechSynthesizer) (chunks : list TextChunk.t) :
  obliging env -> (0 < max_retries self)%Z -> Forall (ready env) chunks ->
  forall s,
    outcomes env self chunks s
    = map (fun chunk => Ok (synthesized self chunk, Some (chunk_path self chunk))) chunks /\
    step (length chunks) 0 0 s (final_state env self chunks s).
Proof.
  intros Hob Hmax Hready. induction Hready as [|chunk rest Hchunk Hrest IH]; intros s.
  - split; [reflexivity|apply step_refl].
  - cbn [outcomes final_state map length].
    destruct (chunk_succeeds env self chunk s Hob Hmax Hchunk) as [-> Hstep].
    destruct (IH (snd (synthesize_chunk env self chunk None s))) as [-> Hstep'].
    split; [reflexivity|].
    exact (step_trans _ _ _ _ _ _ _ _ _ Hstep Hstep').
Qed.

Lemma chunks_after_synthesized (self : SpeechSynthesizer) (chunks : list TextChunk.t) :
  chunks_after chunks
    (map (fun chunk => Ok (synthesized self chunk, Some (chunk_path self chunk))) chunks)
  = map (synthesized self) chunks.
Proof. induction chunks as [|chunk rest IH]; [reflexivity|]. cbn. now rewrite IH. Qed.

(** X25. When all goes well, there is one file for each chunk: with an
    outside that does what it is asked, one try at least, and chunks
    that wait for their synthesis and have each something to say,
    [synthesize_chunks] returns the files of the chunks, one for each,
    in the order of the chunks, and leaves each chunk marked with its
    file; the synthesis function has been called once for each chunk,
    no request has failed, and the endpoint has not been asked. *)
Theorem one_file_for_each_chunk (env : Env) (self : SpeechSynthesizer)
  (chunks : list TextChunk.t) (s : State) :
  obliging env -> (0 < max_retries self)%Z -> chunks <> [] ->
  Forall (ready env) chunks ->
  let run := synthesize_chunks env self chunks s in
  fst run = Ok (map (synthesized self) chunks, map (chunk_path self) chunks) /\
  synth_calls (trace (snd run)) = synth_calls (trace s) + length chunks /\
  failed_requests (stats (snd run)) = failed_requests (stats s) /\
  posts (trace (snd run)) = posts (trace s).
Proof.
  intros Hob Hmax Hne Hready. cbv zeta.
  rewrite (synthesize_chunks_spec env self chunks s Hne). cbv zeta. cbn [fst snd].
  destruct (run_succeeds env self chunks Hob Hmax Hready (loop_start chunks s))
    as [-> Hstep].
  rewrite map_map, chunks_after_synthesized.
  rewrite (map_ext (fun x => artifact (Ok (synthesized self x, Some (chunk_path self x))))
             (fun x => Some (chunk_path self x))) by reflexivity.
  rewrite <- (map_map (chunk_path self) Some), valid_audio_files_some.
  split.
  - destruct chunks as [|chunk rest]; [congruence|reflexivity].
  - destruct Hstep as (_ & _ & Hko & _ & _ & Hcalls & Hposts).
    unfold loop_start, add_text_stats, modify in *.
    cbn [snd stats trace set_stats failed_requests] in *.
    repeat split; lia.
Qed.

Lemma one_file_for_each_chunk_witness :
  fst (synthesize_chunks (example_world Demo.always_ok) example_synthesizer two_chunks
         example_state)
  = Ok (map (synthesized example_synthesizer) two_chunks,
        [chunk_file "/tmp/chunk_0000.wav"; chunk_file "/tmp/chunk_0001.wav"]).
Proof.
  destruct (one_file_for_each_chunk (example_world Demo.always_ok) example_synthesizer
              two_chunks example_state) as [Hrun _].
  - repeat split.
  - reflexivity.
  - discriminate.
  - repeat constructor.
  - rewrite Hrun. vm_compute. reflexivity.
Defined.

End BooksFacts.

(** ** Properties of the file names *)

Module PathFacts.

Import TextSplitter TextSpec TextFacts Synthesizer PathSpec.

Lemma to_string_of_string (x : string) : to_string (of_string x) = x.
Proof.
  unfold to_string, of_string. rewrite map_map.
  rewrite (map_ext _ (fun a => a)) by (intros a; apply ascii_N_embedding).
  rewrite map_id. apply string_of_list_ascii_of_string.
Qed.

Lemma read_decimal_decimal (n : N) : read_decimal (decimal n) = Some n.
Proof.
  unfold read_decimal, decimal. rewrite to_string_of_string, NilEmpty.usu.
  cbn [option_map]. now rewrite DecimalN.Unsigned.of_to.
Qed.

Lemma read_decimal_zero (s : str) : read_decimal (48%N :: s) = read_decimal s.
Proof.
  unfold read_decimal, to_string. cbn [map string_of_list_ascii].
  change (ascii_of_N 48) with "0"%char. cbn [NilEmpty.uint_of_string].
  destruct (NilEmpty.uint_of_string _) as [d|]; reflexivity.
Qed.

Lemma read_decimal_zfill (width : nat) (digits : str) :
  read_decimal (zfill width digits) = read_decimal digits.
Proof.
  unfold zfill. induction (width - length digits) as [|k IH]; [reflexivity|].
  cbn [repeat app]. now rewrite read_decimal_zero.
Qed.

(** [f"{index:04d}"] tells the indexes apart, those that are not
    negative. *)
Lemma format_04d_inj (i j : Z) :
  (0 <= i)%Z -> (0 <= j)%Z -> format_04d i = format_04d j -> i = j.
Proof.
  intros Hi Hj. unfold format_04d.
  destruct (Z.ltb_spec i 0) as [|_]; [lia|].
  destruct (Z.ltb_spec j 0) as [|_]; [lia|].
  intros H. apply (f_equal read_decimal) in H.
  rewrite !read_decimal_zfill, !read_decimal_decimal in H.
  injection H as H'. apply (f_equal Z.of_N) in H'.
  rewrite !N2Z.inj_abs_N in H'. lia.
Qed.

Lemma os_path_join_inj (dir a b : str) : os_path_join dir a = os_path_join dir b -> a = b.
Proof.
  unfold os_path_join. destruct (rev dir) as [|c r]; [auto|].
  destruct (c =? 47)%N; intros H.
  - now apply app_inv_head in H.
  - apply app_inv_head in H. now injection H.
Qed.

Lemma chunk_path_index (self : SpeechSynthesizer) (c1 c2 : TextChunk.t) :
  (0 <= TextChunk.index c1)%Z -> (0 <= TextChunk.index c2)%Z ->
  chunk_path self c1 = chunk_path self c2 -> TextChunk.index c1 = TextChunk.index c2.
Proof.
  intros H1 H2 H. unfold chunk_path in H. apply os_path_join_inj in H.
  apply app_inv_head in H. apply app_inv_tail in H. now apply format_04d_inj.
Qed.

Lemma NoDup_map_on {A B} (f : A -> B) (l : list A) :
  (forall x y, In x l -> In y l -> f x = f y -> x = y) -> NoDup l -> NoDup (map f l).
Proof.
  intros Hinj Hl. induction Hl as [|x l Hx Hl IH]; [constructor|].
  cbn [map]. constructor.
  - intros Hin. apply in_map_iff in Hin as (y & Hy & Hin).
    assert (y = x) by (apply Hinj; [now right|now left|exact Hy]). congruence.
  - apply IH. intros a b Ha Hb. apply Hinj; now right.
Qed.

(** X26. No two chunks of a text go to the same file: the paths that
    [synthesize_chunk] gives the chunks of [split_text] in the
    temporary directory are all different, however many the chunks
    are. *)
Theorem chunk_files_are_distinct (self : SpeechSynthesizer) (max_chunk_size : Z)
  (text : str) (chunks : list TextChunk.t) :
  split_text max_chunk_size text = Ok chunks ->
  NoDup (map (chunk_path self) chunks).
Proof.
  intros H. apply split_text_inv in H as (pieces & _ & ->).
  rewrite map_map.
  assert (Hfst : forall ic, In ic (enumerate 0 pieces) ->
            exists k, (k < length pieces)%nat /\ fst ic = Z.of_nat k).
  { intros ic Hin. apply (in_map fst) in Hin. rewrite enumerate_fst in Hin.
    apply in_map_iff in Hin as (k & Hk & Hin). apply in_seq in Hin.
    exists k. split; [lia|]. lia. }
  assert (Hnodup : NoDup (map fst (enumerate 0 pieces))).
  { rewrite enumerate_fst. apply NoDup_map_on; [|apply seq_NoDup].
    intros x y _ _. lia. }
  apply NoDup_map_on.
  - intros x y Hx Hy Hpath.
    destruct (Hfst x Hx) as (kx & _ & Hkx). destruct (Hfst y Hy) as (ky & _ & Hky).
    apply chunk_path_index in Hpath;
      cbn [TextChunk.index TextChunk.init] in *; try lia.
    assert (Hsnd : forall l (a b : Z * str),
              NoDup (map fst l) -> In a l -> In b l -> fst a = fst b -> a = b).
    { induction l as [|c l IH]; intros a b Hl Ha Hb Hab; [contradiction|].
      cbn [map] in Hl. inversion Hl as [|? ? Hc Hl']; subst.
      destruct Ha as [<-|Ha], Hb as [<-|Hb]; auto.
      - exfalso. apply Hc. rewrite Hab. now apply in_map.
      - exfalso. apply Hc. rewrite <- Hab. now apply in_map. }
    now apply (Hsnd (enumerate 0 pieces)).
  - now apply NoDup_map_inv in Hnodup.
Qed.

Lemma chunk_files_are_distinct_witness :
  NoDup (map (chunk_path SynthSpec.example_synthesizer) ellipsis_chunks).
Proof.
  apply (chunk_files_are_distinct SynthSpec.example_synthesizer 20 ellipsis_text).
  vm_compute. reflexivity.
Defined.

End PathFacts.

(** ** Properties of [merge_wav_files] *)

Module MergerFacts.

Import AudioMerger.

Section Merge.

Variable AudioSegment : Type.
Variable os_path_exists : str -> bool.
Variable from_wav : str -> result AudioSegment.
Variable dirname : str -> str.
Variable make_directory : str -> result unit.
Variable export : list AudioSegment -> str -> result unit.
Variable exported : str -> bool.
Variable getsize : str -> result Z.

Lemma add_segments_spec (files : list str) : forall combined_audio,
  add_segments AudioSegment from_wav combined_audio files
  = combined_audio ++ segments_of AudioSegment from_wav files.
Proof.
  induction files as [|f files IH]; intros combined_audio; cbn [add_segments segments_of flat_map].
  - now rewrite app_nil_r.
  - destruct (from_wav f) as [audio_segment|e]; rewrite IH; [|reflexivity].
    now rewrite <- app_assoc.
Qed.

(** X27. The merged audio follows the order of the files: when
    [merge_wav_files] returns, it returns the output path, and the
    audio it has exported there is made of the segments of the files
    that exist and can be loaded, in the order of the list it was
    given, the first existing file being one of them.  A first
    existing file that cannot be loaded makes the merge fail, whatever
    the other files are, whereas a later one is passed over. *)
Theorem merged_audio_is_in_order (audio_files : list str) (output_path : str) :
  let merge := merge_wav_files AudioSegment os_path_exists from_wav dirname
                 make_directory export exported getsize in
  let existing := existing_files os_path_exists audio_files in
  (forall path audio,
     merge audio_files output_path = inl (path, audio) ->
     path = output_path /\
     audio = segments_of AudioSegment from_wav existing /\
     exists first rest base,
       existing = first :: rest /\ from_wav first = Ok base /\
       audio = base :: segments_of AudioSegment from_wav rest) /\
  (forall first rest e,
     existing = first :: rest -> from_wav first = Err e ->
     merge audio_files output_path = inr (MergeFailed (Raised e))).
Proof.
  cbv zeta. unfold merge_wav_files. split.
  - intros path audio. destruct audio_files as [|f files]; [discriminate|].
    destruct (existing_files os_path_exists (f :: files)) as [|first rest];
      [discriminate|].
    destruct (from_wav first) as [base|e] eqn:Hbase; [|discriminate]. cbv zeta.
    destruct (if truthy (dirname output_path) then _ else _); [|discriminate].
    destruct (export _ output_path); [|discriminate].
    destruct (negb (exported output_path)); [discriminate|].
    destruct (getsize output_path); [|discriminate].
    intros [= <- <-]. rewrite add_segments_spec.
    split; [reflexivity|]. split.
    + cbn [segments_of flat_map]. now rewrite Hbase.
    + exists first, rest, base. auto.
  - intros first rest e Hexisting Hfirst.
    destruct audio_files as [|f files]; [discriminate|].
    now rewrite Hexisting, Hfirst.
Qed.

End Merge.

Lemma merged_audio_is_in_order_witness :
  example_merge [of_string "a.wav"; of_string "missing.wav"; of_string "broken.wav";
                 of_string "b.wav"]
  = inl (of_string "out.wav", [of_string "a.wav"; of_string "b.wav"]) /\
  example_merge [of_string "broken.wav"; of_string "a.wav"]
  = inr (MergeFailed (Raised (LibraryError (of_string "not a WAV file")))).
Proof.
  destruct (merged_audio_is_in_order str example_exists example_from_wav (fun _ => [])
              (fun _ => Ok tt) (fun _ _ => Ok tt) (fun _ => true) (fun _ => Ok 44%Z)
              [of_string "broken.wav"; of_string "a.wav"] (of_string "out.wav"))
    as [_ Hfails].
  split; [vm_compute; reflexivity|].
  apply (Hfails (of_string "broken.wav") [of_string "a.wav"]); vm_compute; reflexivity.
Defined.

End MergerFacts.
